(** * Recruiting database utility (src/main.go): shallow embedding

    The program is a console front end over a relational store.  The
    embedding has four layers:

    - [utf8], [strings], [json]: the parts of the Go standard library the
      program calls ([strings.TrimSpace], [strings.Split], [json.Marshal],
      [json.Unmarshal]), on byte strings;
    - [pg]: the store, as the data definition of [createTables] declares it
      (serial keys, UNIQUE, NOT NULL, DEFAULT, the foreign key, JSONB
      columns with the containment operator);
    - the effect monad [M] over a [World] (store, wire log, entropy,
      console);
    - the functions of src/main.go, in the order of the source.

    Go strings are byte strings: [string] of the standard library, one
    [ascii] per byte. *)

From Stdlib Require Import ZArith List String Ascii Bool Lia.
From Stdlib Require Import Floats.SpecFloat.
Import ListNotations.

Set Warnings "-register-all".

Local Open Scope Z_scope.
Local Open Scope list_scope.

(* ================================================================= *)
(** ** Bytes and byte strings *)

Definition byte (c : ascii) : Z := Z.of_N (N_of_ascii c).
Definition chr (b : Z) : ascii := ascii_of_N (Z.to_N b).

(** The characters that cannot be written inside a string literal here. *)
Definition dquote : ascii := "034"%char.
Definition backslash : ascii := "092"%char.

Notation "a +++ b" := (String.append a b) (at level 60, right associativity).

Definition str1 (c : ascii) : string := String c EmptyString.

(** [s[n:]] *)
Fixpoint drop (n : nat) (s : string) : string :=
  match n, s with
  | O, _ => s
  | S n', String _ t => drop n' t
  | S _, EmptyString => EmptyString
  end.

(** [s[:n]] *)
Fixpoint take (n : nat) (s : string) : string :=
  match n, s with
  | S n', String c t => String c (take n' t)
  | _, _ => EmptyString
  end.

Fixpoint rev_append (s acc : string) : string :=
  match s with
  | EmptyString => acc
  | String c t => rev_append t (String c acc)
  end.

Definition rev (s : string) : string := rev_append s EmptyString.

Fixpoint all_bytes (p : ascii -> bool) (s : string) : bool :=
  match s with
  | EmptyString => true
  | String c t => p c && all_bytes p t
  end.

(** A Go slice is nil or holds elements; [json.Marshal] tells the two
    apart. *)
Definition slice (A : Type) : Type := option (list A).
Definition nil_slice {A} : slice A := None.
Definition elems {A} (s : slice A) : list A :=
  match s with None => [] | Some l => l end.
(** [append(s, x)] *)
Definition append1 {A} (s : slice A) (x : A) : slice A := Some (elems s ++ [x]).

(* ================================================================= *)
(** ** unicode/utf8 *)

Module utf8.

Definition RuneError : Z := 0xFFFD.
Definition RuneSelf : Z := 0x80.
Definition UTFMax : nat := 4.

Definition maskx : Z := 0x3F.
Definition mask2 : Z := 0x1F.
Definition mask3 : Z := 0x0F.
Definition mask4 : Z := 0x07.
Definition locb : Z := 0x80.
Definition hicb : Z := 0xBF.

Definition xx : Z := 0xF1.
Definition as_ : Z := 0xF0.
Definition s1 : Z := 0x02.
Definition s2 : Z := 0x13.
Definition s3 : Z := 0x03.
Definition s4 : Z := 0x23.
Definition s5 : Z := 0x34.
Definition s6 : Z := 0x04.
Definition s7 : Z := 0x44.

(** The table [first]: one entry per leading byte. *)
Definition first (b : Z) : Z :=
  if b <? 0x80 then as_
  else if b <? 0xC2 then xx
  else if b <? 0xE0 then s1
  else if b =? 0xE0 then s2
  else if b <? 0xED then s3
  else if b =? 0xED then s4
  else if b <? 0xF0 then s3
  else if b =? 0xF0 then s5
  else if b <? 0xF4 then s6
  else if b =? 0xF4 then s7
  else xx.

(** The table [acceptRanges]: bounds of the second byte. *)
Definition acceptRanges (i : Z) : Z * Z :=
  if i =? 0 then (locb, hicb)
  else if i =? 1 then (0xA0, hicb)
  else if i =? 2 then (locb, 0x9F)
  else if i =? 3 then (0x90, hicb)
  else if i =? 4 then (locb, 0x8F)
  else (0, 0).

Definition RuneStart (b : Z) : bool := negb (Z.land b 0xC0 =? 0x80).

(** [DecodeRuneInString]: the first rune of [s] and its width in bytes;
    [(RuneError, 1)] on an invalid encoding, [(RuneError, 0)] on the
    empty string. *)
Definition DecodeRuneInString (s : string) : Z * nat :=
  match s with
  | EmptyString => (RuneError, 0%nat)
  | String c0 t0 =>
    let b0 := byte c0 in
    let x := first b0 in
    if as_ <=? x then
      (* mask := rune(x) << 31 >> 31: all ones exactly when x = xx *)
      ((if Z.odd x then RuneError else b0), 1%nat)
    else
      let sz := Z.land x 7 in
      let '(lo, hi) := acceptRanges (Z.shiftr x 4) in
      if Z.of_nat (String.length s) <? sz then (RuneError, 1%nat)
      else
        match t0 with
        | EmptyString => (RuneError, 1%nat)
        | String c1 t1 =>
          let b1 := byte c1 in
          if (b1 <? lo) || (hi <? b1) then (RuneError, 1%nat)
          else if sz <=? 2 then
            (Z.lor (Z.shiftl (Z.land b0 mask2) 6) (Z.land b1 maskx), 2%nat)
          else
            match t1 with
            | EmptyString => (RuneError, 1%nat)
            | String c2 t2 =>
              let b2 := byte c2 in
              if (b2 <? locb) || (hicb <? b2) then (RuneError, 1%nat)
              else if sz <=? 3 then
                (Z.lor (Z.lor (Z.shiftl (Z.land b0 mask3) 12)
                              (Z.shiftl (Z.land b1 maskx) 6))
                       (Z.land b2 maskx), 3%nat)
              else
                match t2 with
                | EmptyString => (RuneError, 1%nat)
                | String c3 _ =>
                  let b3 := byte c3 in
                  if (b3 <? locb) || (hicb <? b3) then (RuneError, 1%nat)
                  else
                    (Z.lor (Z.lor (Z.lor (Z.shiftl (Z.land b0 mask4) 18)
                                         (Z.shiftl (Z.land b1 maskx) 12))
                                  (Z.shiftl (Z.land b2 maskx) 6))
                           (Z.land b3 maskx), 4%nat)
                end
            end
        end
  end.

(** [DecodeLastRuneInString]: the last rune of [s] and its width.  The
    argument is [s] reversed (last byte first), so [s[start:end]] is the
    reversal of a prefix of it.  The loop looks for a start byte at
    [end-2], [end-3], ... down to [lim = max 0 (end - UTFMax)]; when it
    finds none, [start] is [lim - 1], or 0 when that is negative. *)
Fixpoint back_to_start (k : nat) (w : string) : option nat :=
  match w with
  | EmptyString => None
  | String b w' =>
    if RuneStart (byte b) then Some (S k) else back_to_start (S k) w'
  end.

Definition DecodeLastRuneInString (r : string) : Z * nat :=
  match r with
  | EmptyString => (RuneError, 0%nat)
  | String c t =>
    if byte c <? RuneSelf then (byte c, 1%nat)
    else
      let width :=
        match back_to_start 1%nat (take (UTFMax - 1) t) with
        | Some w => w
        | None => Nat.min (S UTFMax) (String.length r)
        end in
      let '(rn, size) := DecodeRuneInString (rev (take width r)) in
      if Nat.eqb size width then (rn, size) else (RuneError, 1%nat)
  end.

(** [ValidString]: [s] consists entirely of valid encodings, that is,
    decoding never meets an invalid byte. *)
Fixpoint ValidString_loop (fuel : nat) (s : string) : bool :=
  match fuel with
  | O => match s with EmptyString => true | _ => false end
  | S fuel' =>
    match s with
    | EmptyString => true
    | String c t =>
      if byte c <? RuneSelf then ValidString_loop fuel' t
      else
        let '(r, size) := DecodeRuneInString s in
        if (r =? RuneError) && Nat.eqb size 1 then false
        else ValidString_loop fuel' (drop size s)
    end
  end.

Definition ValidString (s : string) : bool :=
  ValidString_loop (String.length s) s.

(** [EncodeRune]: the bytes of the encoding of [r]; surrogates and values
    above [MaxRune] are encoded as [RuneError]. *)
Definition EncodeRune (r : Z) : string :=
  let three (r : Z) :=
    String (chr (Z.lor 0xE0 (Z.shiftr r 12)))
      (String (chr (Z.lor 0x80 (Z.land (Z.shiftr r 6) maskx)))
         (str1 (chr (Z.lor 0x80 (Z.land r maskx))))) in
  if (r <? 0) then three RuneError
  else if r <=? 0x7F then str1 (chr r)
  else if r <=? 0x7FF then
    String (chr (Z.lor 0xC0 (Z.shiftr r 6)))
      (str1 (chr (Z.lor 0x80 (Z.land r maskx))))
  else if (0x10FFFF <? r) || ((0xD800 <=? r) && (r <=? 0xDFFF)) then
    three RuneError
  else if r <=? 0xFFFF then three r
  else
    String (chr (Z.lor 0xF0 (Z.shiftr r 18)))
      (String (chr (Z.lor 0x80 (Z.land (Z.shiftr r 12) maskx)))
         (String (chr (Z.lor 0x80 (Z.land (Z.shiftr r 6) maskx)))
            (str1 (chr (Z.lor 0x80 (Z.land r maskx)))))).

End utf8.

(* ================================================================= *)
(** ** unicode/utf16 *)

Module utf16.

Definition surr1 : Z := 0xD800.
Definition surr2 : Z := 0xDC00.
Definition surr3 : Z := 0xE000.
Definition surrSelf : Z := 0x10000.
Definition replacementChar : Z := 0xFFFD.

Definition IsSurrogate (r : Z) : bool := (surr1 <=? r) && (r <? surr3).

(** [utf16.DecodeRune] *)
Definition DecodeRune (r1 r2 : Z) : Z :=
  if (surr1 <=? r1) && (r1 <? surr2) && (surr2 <=? r2) && (r2 <? surr3) then
    Z.lor (Z.shiftl (r1 - surr1) 10) (r2 - surr2) + surrSelf
  else replacementChar.

End utf16.

(* ================================================================= *)
(** ** unicode *)

Module unicode.

(** [unicode.IsSpace] *)
Definition IsSpace (r : Z) : bool :=
  if r <=? 0xFF then
    (r =? 9) || (r =? 10) || (r =? 11) || (r =? 12) || (r =? 13) ||
    (r =? 32) || (r =? 0x85) || (r =? 0xA0)
  else
    (r =? 0x1680) || ((0x2000 <=? r) && (r <=? 0x200A)) ||
    (r =? 0x2028) || (r =? 0x2029) || (r =? 0x202F) || (r =? 0x205F) ||
    (r =? 0x3000).

End unicode.

(* ================================================================= *)
(** ** strings *)

Module strings.

(** The table [asciiSpace]. *)
Definition asciiSpace (b : Z) : bool :=
  (b =? 9) || (b =? 10) || (b =? 11) || (b =? 12) || (b =? 13) || (b =? 32).

(** [TrimLeftFunc(s, unicode.IsSpace)]: ranging over [s] rune by rune,
    [s] from the first rune that is not a space. *)
Fixpoint TrimLeftFunc_loop (fuel : nat) (s : string) : string :=
  match fuel with
  | O => EmptyString
  | S fuel' =>
    match s with
    | EmptyString => EmptyString
    | _ =>
      let '(r, size) := utf8.DecodeRuneInString s in
      if unicode.IsSpace r then TrimLeftFunc_loop fuel' (drop size s) else s
    end
  end.

Definition TrimLeftFunc (s : string) : string :=
  TrimLeftFunc_loop (String.length s) s.

(** [lastIndexFunc(s, unicode.IsSpace, false)] on the reversed string:
    the reversed [s[0:i]] for the index [i] it returns, [None] for -1. *)
Fixpoint lastIndexFunc_loop (fuel : nat) (r : string) : option string :=
  match fuel with
  | O => None
  | S fuel' =>
    match r with
    | EmptyString => None
    | _ =>
      let '(rn, size) := utf8.DecodeLastRuneInString r in
      let r' := drop size r in
      if unicode.IsSpace rn then lastIndexFunc_loop fuel' r' else Some r'
    end
  end.

(** [TrimRightFunc(s, unicode.IsSpace)] *)
Definition TrimRightFunc (s : string) : string :=
  match lastIndexFunc_loop (String.length s) (rev s) with
  | Some r' =>
    let i := String.length r' in
    match drop i s with
    | String c _ =>
      if utf8.RuneSelf <=? byte c then
        let '(_, wid) := utf8.DecodeRuneInString (drop i s) in
        take (i + wid) s
      else take (S i) s
    | EmptyString => take (S i) s
    end
  | None => EmptyString
  end.

Definition TrimFunc (s : string) : string := TrimRightFunc (TrimLeftFunc s).

(** The second loop of [TrimSpace], on the reversed [s[start:]]: [s[start:stop]]. *)
Fixpoint TrimSpace_stop (r : string) : string :=
  match r with
  | EmptyString => EmptyString
  | String c t =>
    if utf8.RuneSelf <=? byte c then TrimRightFunc (rev r)
    else if asciiSpace (byte c) then TrimSpace_stop t
    else rev r
  end.

(** [strings.TrimSpace] *)
Fixpoint TrimSpace (s : string) : string :=
  match s with
  | EmptyString => EmptyString
  | String c t =>
    if utf8.RuneSelf <=? byte c then TrimFunc s
    else if asciiSpace (byte c) then TrimSpace t
    else TrimSpace_stop (rev s)
  end.

(** [bytealg.IndexByteString]: the index of the first [c] in [s], or -1. *)
Fixpoint IndexByte (s : string) (c : ascii) : Z :=
  match s with
  | EmptyString => -1
  | String a t =>
    if Ascii.eqb a c then 0
    else let m := IndexByte t c in if m <? 0 then -1 else m + 1
  end.

(** [bytealg.CountString] *)
Fixpoint Count (s : string) (c : ascii) : nat :=
  match s with
  | EmptyString => O
  | String a t => if Ascii.eqb a c then S (Count t c) else Count t c
  end.

(** The loop of [genSplit] with [sepSave = 0] and a separator of one
    byte; [k] is the number of iterations left ([n - i]). *)
Fixpoint genSplit_loop (k : nat) (s : string) (sep : ascii) : list string :=
  match k with
  | O => [s]
  | S k' =>
    let m := IndexByte s sep in
    if m <? 0 then [s]
    else take (Z.to_nat m) s :: genSplit_loop k' (drop (Z.to_nat m + 1) s) sep
  end.

(** [strings.Split(s, sep)] for a separator [sep] of one byte:
    [genSplit(s, sep, 0, -1)], where [n = Count(s, sep) + 1], capped by
    [len(s) + 1], and the loop runs while [i < n - 1]. *)
Definition Split (s : string) (sep : ascii) : list string :=
  let n := Nat.min (Count s sep + 1) (String.length s + 1) in
  genSplit_loop (n - 1) s sep.

End strings.

(* ================================================================= *)
(** ** JSON text: the grammar shared by the encoder's reader and the store *)

Module jsontext.

(** A JSON document.  Numbers keep their literal and objects their
    members in the order of the text. *)
Inductive json : Type :=
  | JNull
  | JBool (b : bool)
  | JNumber (literal : string)
  | JString (s : string)
  | JArray (l : list json)
  | JObject (members : list (string * json)).

Inductive syntax_error : Type :=
  | Malformed          (* the text is not a JSON document *)
  | CodePointZero.     (* the escape of U+0000, where the reader refuses it *)

Inductive res (A : Type) : Type :=
  | Ok (a : A)
  | Fail (e : syntax_error)
  | OutOfFuel.
Arguments Ok {A} a.
Arguments Fail {A} e.
Arguments OutOfFuel {A}.

Definition is_ws (c : ascii) : bool :=
  let b := byte c in (b =? 32) || (b =? 9) || (b =? 10) || (b =? 13).

Fixpoint skip_ws (s : string) : string :=
  match s with
  | String c t => if is_ws c then skip_ws t else s
  | EmptyString => s
  end.

Definition is_digit (c : ascii) : bool :=
  (48 <=? byte c) && (byte c <=? 57).

(** Letters, digits, the underscore and the bytes above ASCII: what
    a reader takes as part of a word or as garbage after a number. *)
Definition is_alnum (c : ascii) : bool :=
  let b := byte c in
  ((97 <=? b) && (b <=? 122)) || ((65 <=? b) && (b <=? 90)) ||
  ((48 <=? b) && (b <=? 57)) || (b =? 95) || (0x80 <=? b).

Fixpoint span (p : ascii -> bool) (s : string) : string * string :=
  match s with
  | String c t =>
    if p c then let '(a, r) := span p t in (String c a, r)
    else (EmptyString, s)
  | EmptyString => (EmptyString, EmptyString)
  end.

Definition hexval (c : ascii) : option Z :=
  let b := byte c in
  if (48 <=? b) && (b <=? 57) then Some (b - 48)
  else if (97 <=? b) && (b <=? 102) then Some (b - 87)
  else if (65 <=? b) && (b <=? 70) then Some (b - 55)
  else None.

Definition hex4 (h1 h2 h3 h4 : ascii) : option Z :=
  match hexval h1, hexval h2, hexval h3, hexval h4 with
  | Some a, Some b, Some c, Some d => Some (((a * 16 + b) * 16 + c) * 16 + d)
  | _, _, _, _ => None
  end.

(** The escapes of one letter. *)
Definition unescape (c : ascii) : option ascii :=
  let b := byte c in
  if (b =? 0x22) || (b =? 0x5C) || (b =? 0x2F) then Some c
  else if b =? 98 then Some (chr 8)
  else if b =? 102 then Some (chr 12)
  else if b =? 110 then Some (chr 10)
  else if b =? 114 then Some (chr 13)
  else if b =? 116 then Some (chr 9)
  else None.

Definition prepend (p : string) (r : res (string * string)) : res (string * string) :=
  match r with
  | Ok (s, rest) => Ok (p +++ s, rest)
  | other => other
  end.

(** [s] without its first byte, when that byte is [c]. *)
Definition after (c : ascii) (s : string) : option string :=
  match s with
  | String c' r => if Ascii.eqb c' c then Some r else None
  | EmptyString => None
  end.

(** The number lexer: the literal and the text after it. *)
Definition lex_number (s : string) : res (string * string) :=
  let '(sign, s0) :=
    match after "-" s with
    | Some r => ("-"%string, r)
    | None => (EmptyString, s)
    end in
  let int_part : option (string * string) :=
    match s0 with
    | String c r =>
      if Ascii.eqb c "0" then Some ("0"%string, r)
      else if is_digit c then
        let '(ds, r') := span is_digit r in Some (String c ds, r')
      else None
    | EmptyString => None
    end in
  match int_part with
  | None => Fail Malformed
  | Some (ip, r1) =>
    let frac_part : option (string * string) :=
      match after "." r1 with
      | Some r =>
        let '(ds, r') := span is_digit r in
        match ds with
        | EmptyString => None
        | _ => Some (String "." ds, r')
        end
      | None => Some (EmptyString, r1)
      end in
    match frac_part with
    | None => Fail Malformed
    | Some (fp, r2) =>
      let exp_part : option (string * string) :=
        match r2 with
        | String e r =>
          if (byte e =? 101) || (byte e =? 69) then
            let '(sg, r') :=
              match after "+" r, after "-" r with
              | Some r'', _ => ("+"%string, r'')
              | None, Some r'' => ("-"%string, r'')
              | None, None => (EmptyString, r)
              end in
            let '(ds, r'') := span is_digit r' in
            match ds with
            | EmptyString => None
            | _ => Some (String e (sg +++ ds), r'')
            end
          else Some (EmptyString, r2)
        | EmptyString => Some (EmptyString, r2)
        end in
      match exp_part with
      | None => Fail Malformed
      | Some (ep, r3) =>
        match r3 with
        | String c _ =>
          if is_alnum c then Fail Malformed
          else Ok (sign +++ ip +++ fp +++ ep, r3)
        | EmptyString => Ok (sign +++ ip +++ fp +++ ep, r3)
        end
      end
    end
  end.

(** A word: [true], [false] or [null]. *)
Definition lex_word (s : string) : res (json * string) :=
  let '(w, r) := span is_alnum s in
  if String.eqb w "true" then Ok (JBool true, r)
  else if String.eqb w "false" then Ok (JBool false, r)
  else if String.eqb w "null" then Ok (JNull, r)
  else Fail Malformed.

Section Parser.

(** The string lexer of the reader, applied after the opening quote: the
    value of the string and the text after the closing quote. *)
Variable lex_string : string -> res (string * string).

(** The recursive descent; one unit of fuel per level of the descent. *)
Fixpoint parse_value (fuel : nat) (s : string) : res (json * string) :=
  match fuel with
  | O => OutOfFuel
  | S f =>
    match skip_ws s with
    | EmptyString => Fail Malformed
    | String c r =>
      if Ascii.eqb c "[" then
        match after "]" (skip_ws r) with
        | Some r' => Ok (JArray [], r')
        | None =>
          match parse_elements f r with
          | Ok (l, r') => Ok (JArray l, r')
          | Fail e => Fail e
          | OutOfFuel => OutOfFuel
          end
        end
      else if Ascii.eqb c "{" then
        match after "}" (skip_ws r) with
        | Some r' => Ok (JObject [], r')
        | None =>
          match parse_members f r with
          | Ok (l, r') => Ok (JObject l, r')
          | Fail e => Fail e
          | OutOfFuel => OutOfFuel
          end
        end
      else if Ascii.eqb c dquote then
        match lex_string r with
        | Ok (v, r') => Ok (JString v, r')
        | Fail e => Fail e
        | OutOfFuel => OutOfFuel
        end
      else if Ascii.eqb c "-" || is_digit c then
        match lex_number (String c r) with
        | Ok (v, r') => Ok (JNumber v, r')
        | Fail e => Fail e
        | OutOfFuel => OutOfFuel
        end
      else lex_word (String c r)
    end
  end
with parse_elements (fuel : nat) (s : string) : res (list json * string) :=
  match fuel with
  | O => OutOfFuel
  | S f =>
    match parse_value f s with
    | Ok (v, r) =>
      match after "," (skip_ws r) with
      | Some r' =>
        match parse_elements f r' with
        | Ok (l, r'') => Ok (v :: l, r'')
        | other => other
        end
      | None =>
        match after "]" (skip_ws r) with
        | Some r' => Ok ([v], r')
        | None => Fail Malformed
        end
      end
    | Fail e => Fail e
    | OutOfFuel => OutOfFuel
    end
  end
with parse_members (fuel : nat) (s : string) : res (list (string * json) * string) :=
  match fuel with
  | O => OutOfFuel
  | S f =>
    match after dquote (skip_ws s) with
    | None => Fail Malformed
    | Some r =>
      match lex_string r with
      | Ok (k, r0) =>
        match after ":" (skip_ws r0) with
        | None => Fail Malformed
        | Some r1 =>
          match parse_value f r1 with
          | Ok (v, r2) =>
            match after "," (skip_ws r2) with
            | Some r3 =>
              match parse_members f r3 with
              | Ok (l, r4) => Ok ((k, v) :: l, r4)
              | other => other
              end
            | None =>
              match after "}" (skip_ws r2) with
              | Some r3 => Ok ([(k, v)], r3)
              | None => Fail Malformed
              end
            end
          | Fail e => Fail e
          | OutOfFuel => OutOfFuel
          end
        end
      | Fail e => Fail e
      | OutOfFuel => OutOfFuel
      end
    end
  end.

(** A whole text is one document, with white space around it.  The fuel
    is more than any descent into the text uses. *)
Definition parse_document (text : string) : res json :=
  match parse_value (2 * String.length text + 1) text with
  | Ok (v, r) =>
    match skip_ws r with
    | EmptyString => Ok v
    | _ => Fail Malformed
    end
  | Fail e => Fail e
  | OutOfFuel => OutOfFuel
  end.

End Parser.

End jsontext.

(* ================================================================= *)
(** ** encoding/json *)

Module json.
Import jsontext.

(** The table [htmlSafeSet]: the ASCII bytes written as they are when
    HTML escaping is on, which is what [json.Marshal] uses. *)
Definition htmlSafeSet (b : Z) : bool :=
  (0x20 <=? b) && (b <? 0x80) &&
  negb ((b =? 0x22) || (b =? 0x26) || (b =? 0x3C) || (b =? 0x3E) || (b =? 0x5C)).

(** [hex[i]] for the string [hex = 0123456789abcdef]. *)
Definition hex (i : Z) : ascii :=
  if i <? 10 then chr (48 + i) else chr (87 + i).

(** The [switch] of [appendString] on an ASCII byte that is not safe. *)
Definition escape_byte (c : ascii) : string :=
  let b := byte c in
  if (b =? 0x5C) || (b =? 0x22) then String backslash (str1 c)
  else if b =? 8 then "\b"
  else if b =? 12 then "\f"
  else if b =? 10 then "\n"
  else if b =? 13 then "\r"
  else if b =? 9 then "\t"
  else "\u00" +++ String (hex (Z.shiftr b 4)) (str1 (hex (Z.land b 0xF))).

(** The loop of [appendString], between the two quotes.  Bytes that need
    no escape are copied; the source copies them in runs, from [start]
    to [i], which gives the same output. *)
Fixpoint appendString_loop (fuel : nat) (src : string) : string :=
  match fuel with
  | O => EmptyString
  | S fuel' =>
    match src with
    | EmptyString => EmptyString
    | String c rest =>
      if byte c <? utf8.RuneSelf then
        (if htmlSafeSet (byte c) then str1 c else escape_byte c)
          +++ appendString_loop fuel' rest
      else
        let '(r, size) := utf8.DecodeRuneInString (take utf8.UTFMax src) in
        if (r =? utf8.RuneError) && Nat.eqb size 1 then
          String backslash "ufffd" +++ appendString_loop fuel' rest
        else if (r =? 0x2028) || (r =? 0x2029) then
          "\u202" +++ String (hex (Z.land r 0xF))
                         (appendString_loop fuel' (drop size src))
        else
          take size src +++ appendString_loop fuel' (drop size src)
    end
  end.

(** [appendString(dst, src, escapeHTML = true)] *)
Definition appendString (src : string) : string :=
  String dquote (appendString_loop (String.length src) src +++ str1 dquote).

(** The array encoder: the elements between brackets, separated by
    commas. *)
Fixpoint encode_elements (l : list string) : string :=
  match l with
  | [] => EmptyString
  | [x] => appendString x
  | x :: rest => appendString x +++ "," +++ encode_elements rest
  end.

(** [json.Marshal(v)] for [v] of type [[]string]: a nil slice is [null];
    the encoder has no failure for this type. *)
Definition Marshal_strings (v : slice string) : string :=
  match v with
  | None => "null"
  | Some l => "[" +++ encode_elements l +++ "]"
  end.

(** The reader of a string literal: the scanner's checks and
    [unquoteBytes] together, after the opening quote.  Escapes are
    decoded, a pair of surrogate escapes gives one rune, a lone
    surrogate and every invalid byte give the replacement rune. *)
Fixpoint unquote_loop (fuel : nat) (s : string) : res (string * string) :=
  match fuel with
  | O => OutOfFuel
  | S f =>
    match s with
    | EmptyString => Fail Malformed
    | String c r =>
      if Ascii.eqb c dquote then Ok (EmptyString, r)
      else if Ascii.eqb c backslash then
        match r with
        | EmptyString => Fail Malformed
        | String e r1 =>
          if Ascii.eqb e "u" then
            match r1 with
            | String h1 (String h2 (String h3 (String h4 r'))) =>
              match hex4 h1 h2 h3 h4 with
              | None => Fail Malformed
              | Some rr =>
                if utf16.IsSurrogate rr then
                  let second :=
                    match r' with
                    | String b (String u (String g1 (String g2 (String g3 (String g4 r''))))) =>
                      if Ascii.eqb b backslash && Ascii.eqb u "u" then
                        match hex4 g1 g2 g3 g4 with
                        | Some rr1 => Some (utf16.DecodeRune rr rr1, r'')
                        | None => None
                        end
                      else None
                    | _ => None
                    end in
                  match second with
                  | Some (dec, r'') =>
                    if dec =? utf16.replacementChar then
                      prepend (utf8.EncodeRune utf16.replacementChar) (unquote_loop f r')
                    else prepend (utf8.EncodeRune dec) (unquote_loop f r'')
                  | None =>
                    prepend (utf8.EncodeRune utf16.replacementChar) (unquote_loop f r')
                  end
                else prepend (utf8.EncodeRune rr) (unquote_loop f r')
              end
            | _ => Fail Malformed
            end
          else
            match unescape e with
            | Some b => prepend (str1 b) (unquote_loop f r1)
            | None => Fail Malformed
            end
        end
      else if byte c <? 32 then Fail Malformed
      else if byte c <? utf8.RuneSelf then prepend (str1 c) (unquote_loop f r)
      else
        let '(rr, size) := utf8.DecodeRuneInString s in
        prepend (utf8.EncodeRune rr) (unquote_loop f (drop size s))
    end
  end.

Definition unquote (s : string) : res (string * string) :=
  unquote_loop (S (String.length s)) s.

Inductive UnmarshalError : Type :=
  | SyntaxError            (* the text is not valid JSON: nothing is stored *)
  | UnmarshalTypeError.    (* a value does not fit the Go type *)

(** An array element decoded into a string: a string is stored, [null]
    leaves the zero value, anything else is a type error and leaves the
    zero value too. *)
Definition decode_element (v : json) : string :=
  match v with
  | JString s => s
  | _ => EmptyString
  end.

Definition element_fits (v : json) : bool :=
  match v with
  | JString _ | JNull => true
  | _ => false
  end.

(** [json.Unmarshal(data, &v)] for [v] a nil [[]string]: the slice
    afterwards, and the error. *)
Definition Unmarshal_strings (data : string) : slice string * option UnmarshalError :=
  match parse_document unquote data with
  | Ok JNull => (None, None)
  | Ok (JArray l) =>
    (Some (map decode_element l),
     if forallb element_fits l then None else Some UnmarshalTypeError)
  | Ok _ => (None, Some UnmarshalTypeError)
  | _ => (None, Some SyntaxError)
  end.

End json.

(* ================================================================= *)
(** ** The store: JSONB *)

(** Error classes of the store (SQLSTATE). *)
Inductive sqlstate : Type :=
  | unique_violation                (* 23505 *)
  | foreign_key_violation           (* 23503 *)
  | invalid_text_representation     (* 22P02: invalid input syntax *)
  | untranslatable_character        (* 22P05: the escape of U+0000 in jsonb *)
  | statement_too_complex           (* 54001: nesting beyond the parser's depth *)
  | protocol_violation.             (* 08P01: parameters that do not fit the statement *)

Module jsonb.
Import jsontext.

Definition is_utf16_surrogate_first (c : Z) : bool :=
  (0xD800 <=? c) && (c <=? 0xDBFF).
Definition is_utf16_surrogate_second (c : Z) : bool :=
  (0xDC00 <=? c) && (c <=? 0xDFFF).
Definition surrogate_pair_to_codepoint (first second : Z) : Z :=
  Z.shiftl (Z.land first 0x3FF) 10 + 0x10000 + Z.land second 0x3FF.

(** [unicode_to_utf8] *)
Definition unicode_to_utf8 (c : Z) : string :=
  if c <=? 0x7F then str1 (chr c)
  else if c <=? 0x7FF then
    String (chr (Z.lor 0xC0 (Z.land (Z.shiftr c 6) 0x1F)))
      (str1 (chr (Z.lor 0x80 (Z.land c 0x3F))))
  else if c <=? 0xFFFF then
    String (chr (Z.lor 0xE0 (Z.land (Z.shiftr c 12) 0x0F)))
      (String (chr (Z.lor 0x80 (Z.land (Z.shiftr c 6) 0x3F)))
         (str1 (chr (Z.lor 0x80 (Z.land c 0x3F)))))
  else
    String (chr (Z.lor 0xF0 (Z.land (Z.shiftr c 18) 0x07)))
      (String (chr (Z.lor 0x80 (Z.land (Z.shiftr c 12) 0x3F)))
         (String (chr (Z.lor 0x80 (Z.land (Z.shiftr c 6) 0x3F)))
            (str1 (chr (Z.lor 0x80 (Z.land c 0x3F)))))).

(** The string lexer of the store, after the opening quote.  [hi] is a
    pending first surrogate.  A control byte must be escaped, a surrogate
    escape must be half of a pair, and the escape of U+0000 is refused,
    since the text type of the store cannot hold it. *)
Fixpoint lex_string_from (s : string) (hi : option Z) : res (string * string) :=
  match s with
  | EmptyString => Fail Malformed
  | String c r =>
    if Ascii.eqb c dquote then
      match hi with
      | Some _ => Fail Malformed
      | None => Ok (EmptyString, r)
      end
    else if Ascii.eqb c backslash then
      match r with
      | EmptyString => Fail Malformed
      | String e r1 =>
        if Ascii.eqb e "u" then
          match r1 with
          | String h1 (String h2 (String h3 (String h4 r'))) =>
            match hex4 h1 h2 h3 h4 with
            | None => Fail Malformed
            | Some ch =>
              if is_utf16_surrogate_first ch then
                match hi with
                | Some _ => Fail Malformed
                | None => lex_string_from r' (Some ch)
                end
              else
                let cp :=
                  if is_utf16_surrogate_second ch then
                    match hi with
                    | None => None
                    | Some h => Some (surrogate_pair_to_codepoint h ch)
                    end
                  else
                    match hi with
                    | Some _ => None
                    | None => Some ch
                    end in
                match cp with
                | None => Fail Malformed
                | Some u =>
                  if u =? 0 then Fail CodePointZero
                  else prepend (unicode_to_utf8 u) (lex_string_from r' None)
                end
            end
          | _ => Fail Malformed
          end
        else
          match hi, unescape e with
          | None, Some b => prepend (str1 b) (lex_string_from r1 None)
          | _, _ => Fail Malformed
          end
      end
    else
      match hi with
      | Some _ => Fail Malformed
      | None =>
        if byte c <? 32 then Fail Malformed
        else prepend (str1 c) (lex_string_from r None)
      end
  end.

Definition lex_string (s : string) : res (string * string) :=
  lex_string_from s None.

(** [jsonb_in]: the input function of the type, applied to the text of a
    parameter of type [jsonb]. *)
Definition jsonb_in (text : string) : json + sqlstate :=
  match parse_document lex_string text with
  | Ok v => inl v
  | Fail Malformed => inr invalid_text_representation
  | Fail CodePointZero => inr untranslatable_character
  | OutOfFuel => inr statement_too_complex
  end.

(** [escape_json] *)
Definition escape_json_byte (c : ascii) : string :=
  let b := byte c in
  if b =? 8 then "\b"
  else if b =? 12 then "\f"
  else if b =? 10 then "\n"
  else if b =? 13 then "\r"
  else if b =? 9 then "\t"
  else if b =? 0x22 then String backslash (str1 dquote)
  else if b =? 0x5C then String backslash (str1 backslash)
  else if b <? 32 then
    "\u00" +++ String (json.hex (Z.shiftr b 4)) (str1 (json.hex (Z.land b 0xF)))
  else str1 c.

Fixpoint escape_json_body (s : string) : string :=
  match s with
  | EmptyString => EmptyString
  | String c t => escape_json_byte c +++ escape_json_body t
  end.

Definition escape_json (s : string) : string :=
  String dquote (escape_json_body s +++ str1 dquote).

(** [jsonb_out]: the text of a stored document; elements and members are
    separated by a comma and a space. *)
Fixpoint jsonb_out (v : json) : string :=
  match v with
  | JNull => "null"
  | JBool true => "true"
  | JBool false => "false"
  | JNumber lit => lit
  | JString s => escape_json s
  | JArray l =>
    let fix elements (l : list json) : string :=
      match l with
      | [] => EmptyString
      | [x] => jsonb_out x
      | x :: rest => jsonb_out x +++ ", " +++ elements rest
      end in
    "[" +++ elements l +++ "]"
  | JObject m =>
    let fix members (m : list (string * json)) : string :=
      match m with
      | [] => EmptyString
      | [(k, x)] => escape_json k +++ ": " +++ jsonb_out x
      | (k, x) :: rest => escape_json k +++ ": " +++ jsonb_out x +++ ", " +++ members rest
      end in
    "{" +++ members m +++ "}"
  end.

Definition is_scalar (v : json) : bool :=
  match v with
  | JArray _ | JObject _ => false
  | _ => true
  end.

(** Equality of scalars.  The store compares numbers by value; the
    literals are compared here, and this program stores no number. *)
Definition scalar_eqb (a b : json) : bool :=
  match a, b with
  | JNull, JNull => true
  | JBool x, JBool y => Bool.eqb x y
  | JNumber x, JNumber y => String.eqb x y
  | JString x, JString y => String.eqb x y
  | _, _ => false
  end.

Definition same_container (a b : json) : bool :=
  match a, b with
  | JArray _, JArray _ => true
  | JObject _, JObject _ => true
  | _, _ => false
  end.

(** The member of key [k] that the store keeps: the last one. *)
Fixpoint lookup_member (k : string) (l : list (string * json)) : option json :=
  match l with
  | [] => None
  | (k', v) :: rest =>
    match lookup_member k rest with
    | Some v' => Some v'
    | None => if String.eqb k k' then Some v else None
    end
  end.

(** [JsonbDeepContains]: does [val] contain [tmpl]?  Both are containers
    of the same kind. *)
Fixpoint deep_contains (val tmpl : json) {struct tmpl} : bool :=
  match val, tmpl with
  | JArray vs, JArray ts =>
    forallb (fun t =>
      if is_scalar t then existsb (fun v => scalar_eqb v t) vs
      else existsb (fun v => same_container v t && deep_contains v t) vs) ts
  | JObject vm, JObject tm =>
    forallb (fun kt =>
      match lookup_member (fst kt) vm with
      | None => false
      | Some v =>
        if is_scalar (snd kt) then scalar_eqb v (snd kt)
        else same_container v (snd kt) && deep_contains v (snd kt)
      end) tm
  | _, _ => false
  end.

(** The operator [@>] ([jsonb_contains]).  A scalar at the root is kept
    as an array of one element marked raw: an array contains a scalar
    that is one of its elements, a raw scalar contains no array. *)
Definition jsonb_contains (val tmpl : json) : bool :=
  match val, tmpl with
  | JObject _, JObject _ => deep_contains val tmpl
  | JObject _, _ | _, JObject _ => false
  | JArray _, JArray _ => deep_contains val tmpl
  | JArray vs, t => existsb (fun v => scalar_eqb v t) vs
  | _, JArray _ => false
  | v, t => scalar_eqb v t
  end.

End jsonb.

(* ================================================================= *)
(** ** The store: tables and statements *)

(** Go's [float64], with the comparison of IEEE 754. *)
Definition float64 : Type := spec_float.
Definition float64_zero : float64 := S754_zero false.

Module pg.
Import jsontext.

(** The rows of the four tables of [createTables]; a column without
    NOT NULL may hold NULL ([None]). *)
Record users_row : Type := mk_user {
  users_id : Z;
  users_username : string;
  users_password_hash : string;
  users_role : string }.

Record companies_row : Type := mk_company {
  companies_id : Z;
  companies_name : string }.

Record candidates_row : Type := mk_candidate {
  candidates_id : Z;
  candidates_full_name : string;
  candidates_age : Z;
  candidates_email : string;
  candidates_experience : option string;
  candidates_skills : option json }.

Record job_openings_row : Type := mk_job_opening {
  job_openings_id : Z;
  job_openings_company_id : option Z;
  job_openings_title : string;
  job_openings_experience : option string;
  job_openings_salary : float64;
  job_openings_required_skills : option json }.

(** The state of the store: each table in the order of insertion, and
    the next value of the sequence behind each SERIAL key.  Column values
    are kept as the program binds them: the limits of INTEGER, of
    NUMERIC(10,2) and of the text encoding are not modelled, nor is the
    end of a sequence. *)
Record Store : Type := mk_store {
  users : list users_row;
  users_id_seq : Z;
  companies : list companies_row;
  companies_id_seq : Z;
  candidates : list candidates_row;
  candidates_id_seq : Z;
  job_openings : list job_openings_row;
  job_openings_id_seq : Z }.

(** The store after [createTables] on an empty database. *)
Definition empty : Store := mk_store [] 1 [] 1 [] 1 [] 1.

(** The SQL texts of src/main.go. *)
Inductive statement : Type :=
  | SelectUserExists           (* line 67 *)
  | InsertUser                 (* line 81 *)
  | SelectUserByName           (* line 95 *)
  | InsertCompany              (* line 159 *)
  | InsertCandidate            (* line 182 *)
  | InsertJobOpening           (* line 205 *)
  | SelectCandidatesBySkill    (* line 220 *)
  | SelectAllJobOpenings       (* line 244 *)
  | SelectJobOpeningsBySkill   (* line 272 *)
  | CreateTables.              (* line 297 *)

(** A parameter as the driver sends it. *)
Inductive arg : Type :=
  | AInt (z : Z)
  | AFloat (f : float64)
  | AString (s : string)
  | ABytes (s : string).

(** A column of a result row. *)
Inductive datum : Type :=
  | DNull
  | DInt (z : Z)
  | DText (s : string)
  | DNumeric (f : float64).

Definition opt_text (o : option string) : datum :=
  match o with None => DNull | Some s => DText s end.
Definition opt_int (o : option Z) : datum :=
  match o with None => DNull | Some z => DInt z end.
Definition opt_jsonb (o : option json) : datum :=
  match o with None => DNull | Some j => DText (jsonb.jsonb_out j) end.

(** [column @> tmpl]: NULL is not a match. *)
Definition contains (column : option json) (tmpl : json) : bool :=
  match column with
  | None => false
  | Some v => jsonb.jsonb_contains v tmpl
  end.

Definition candidate_columns (r : candidates_row) : list datum :=
  [DInt (candidates_id r); DText (candidates_full_name r);
   DInt (candidates_age r); DText (candidates_email r);
   opt_text (candidates_experience r); opt_jsonb (candidates_skills r)].

Definition job_opening_columns (r : job_openings_row) : list datum :=
  [DInt (job_openings_id r); opt_int (job_openings_company_id r);
   DText (job_openings_title r); opt_text (job_openings_experience r);
   DNumeric (job_openings_salary r); opt_jsonb (job_openings_required_skills r)].

(** One statement with its parameters: the rows of the result, or the
    error, and the store afterwards.  An INSERT takes the next value of
    the sequence before the constraints are checked, so a refused row
    still uses up a key; a parameter that the input function of its type
    refuses stops the statement before that. *)
Definition execute (q : statement) (args : list arg) (st : Store)
  : (list (list datum) + sqlstate) * Store :=
  match q, args with
  | CreateTables, [] => (inl [], st)
  | SelectUserExists, [AString username] =>
    (inl (map (fun _ => [DInt 1])
              (filter (fun r => String.eqb (users_username r) username) (users st))),
     st)
  | InsertUser, [AString username; AString password_hash] =>
    let id := users_id_seq st in
    let st1 := mk_store (users st) (id + 1) (companies st) (companies_id_seq st)
                 (candidates st) (candidates_id_seq st)
                 (job_openings st) (job_openings_id_seq st) in
    if existsb (fun r => users_id r =? id) (users st)
       || existsb (fun r => String.eqb (users_username r) username) (users st)
    then (inr unique_violation, st1)
    else
      (inl [],
       mk_store (users st ++ [mk_user id username password_hash "user"]) (id + 1)
         (companies st) (companies_id_seq st)
         (candidates st) (candidates_id_seq st)
         (job_openings st) (job_openings_id_seq st))
  | SelectUserByName, [AString username] =>
    (inl (map (fun r => [DInt (users_id r); DText (users_password_hash r);
                         DText (users_role r)])
              (filter (fun r => String.eqb (users_username r) username) (users st))),
     st)
  | InsertCompany, [AString name] =>
    let id := companies_id_seq st in
    let st1 := mk_store (users st) (users_id_seq st) (companies st) (id + 1)
                 (candidates st) (candidates_id_seq st)
                 (job_openings st) (job_openings_id_seq st) in
    if existsb (fun r => companies_id r =? id) (companies st)
       || existsb (fun r => String.eqb (companies_name r) name) (companies st)
    then (inr unique_violation, st1)
    else
      (inl [],
       mk_store (users st) (users_id_seq st)
         (companies st ++ [mk_company id name]) (id + 1)
         (candidates st) (candidates_id_seq st)
         (job_openings st) (job_openings_id_seq st))
  | InsertCandidate,
    [AString full_name; AInt age; AString email; AString experience; ABytes skills] =>
    match jsonb.jsonb_in skills with
    | inr e => (inr e, st)
    | inl j =>
      let id := candidates_id_seq st in
      let st1 := mk_store (users st) (users_id_seq st)
                   (companies st) (companies_id_seq st)
                   (candidates st) (id + 1)
                   (job_openings st) (job_openings_id_seq st) in
      if existsb (fun r => candidates_id r =? id) (candidates st)
      then (inr unique_violation, st1)
      else
        (inl [],
         mk_store (users st) (users_id_seq st)
           (companies st) (companies_id_seq st)
           (candidates st ++
              [mk_candidate id full_name age email (Some experience) (Some j)])
           (id + 1)
           (job_openings st) (job_openings_id_seq st))
    end
  | InsertJobOpening,
    [AInt company_id; AString title; AString experience; AFloat salary;
     ABytes required_skills] =>
    match jsonb.jsonb_in required_skills with
    | inr e => (inr e, st)
    | inl j =>
      let id := job_openings_id_seq st in
      let st1 := mk_store (users st) (users_id_seq st)
                   (companies st) (companies_id_seq st)
                   (candidates st) (candidates_id_seq st)
                   (job_openings st) (id + 1) in
      if existsb (fun r => job_openings_id r =? id) (job_openings st)
      then (inr unique_violation, st1)
      else if negb (existsb (fun r => companies_id r =? company_id) (companies st))
      then (inr foreign_key_violation, st1)
      else
        (inl [],
         mk_store (users st) (users_id_seq st)
           (companies st) (companies_id_seq st)
           (candidates st) (candidates_id_seq st)
           (job_openings st ++
              [mk_job_opening id (Some company_id) title (Some experience)
                 salary (Some j)])
           (id + 1))
    end
  | SelectCandidatesBySkill, [AString tmpl] =>
    match jsonb.jsonb_in tmpl with
    | inr e => (inr e, st)
    | inl t =>
      (inl (map candidate_columns
              (filter (fun r => contains (candidates_skills r) t) (candidates st))),
       st)
    end
  | SelectAllJobOpenings, [] =>
    (inl (map job_opening_columns (job_openings st)), st)
  | SelectJobOpeningsBySkill, [AString tmpl] =>
    match jsonb.jsonb_in tmpl with
    | inr e => (inr e, st)
    | inl t =>
      (inl (map job_opening_columns
              (filter (fun r => contains (job_openings_required_skills r) t)
                      (job_openings st))),
       st)
    end
  | _, _ => (inr protocol_violation, st)
  end.

(** What holds of every store that only this program has written:
    the keys in use are below the sequences, and the columns the program
    reads into a Go value that cannot be nil are not NULL. *)
Definition keys_below_sequences (st : Store) : Prop :=
  Forall (fun r => users_id r < users_id_seq st) (users st) /\
  Forall (fun r => companies_id r < companies_id_seq st) (companies st) /\
  Forall (fun r => candidates_id r < candidates_id_seq st) (candidates st) /\
  Forall (fun r => job_openings_id r < job_openings_id_seq st) (job_openings st).

Definition readable (st : Store) : Prop :=
  Forall (fun r => candidates_experience r <> None) (candidates st) /\
  Forall (fun r => job_openings_company_id r <> None /\
                   job_openings_experience r <> None) (job_openings st).

Definition consistent (st : Store) : Prop :=
  keys_below_sequences st /\ readable st.

End pg.

(* ================================================================= *)
(** ** Go errors *)

(** The texts of the errors that src/main.go creates, by line. *)
Inductive message : Type :=
  | MsgEmptyCredentials     (* 64: user name and password cannot be empty *)
  | MsgUserExists           (* 71: a user with this name already exists *)
  | MsgExistenceProbe       (* 73: error checking whether the user exists *)
  | MsgHashing              (* 78: error hashing the password *)
  | MsgPrepare              (* 83, 161, 184, 207: error preparing the statement *)
  | MsgRegister             (* 89: error registering the user *)
  | MsgPrepareLogin         (* 97: error preparing the statement (capitalised) *)
  | MsgUserNotFound         (* 105: user not found *)
  | MsgAuth                 (* 107: authorisation error *)
  | MsgWrongPassword        (* 111: wrong password *)
  | MsgEmptyCompany         (* 157: the company name cannot be empty *)
  | MsgAddCompany           (* 167: error adding the company *)
  | MsgCandidateFields      (* 174: required fields of the candidate missing *)
  | MsgMarshalSkills        (* 179, 202: error serialising the skills *)
  | MsgAddCandidate         (* 190: error adding the candidate *)
  | MsgJobFields            (* 197: required fields of the job opening missing *)
  | MsgAddJobOpening        (* 213: error adding the job opening *)
  | MsgQuery                (* 222, 274: error querying the database *)
  | MsgScanRow              (* 231, 283: error scanning a row *)
  | MsgReadRows             (* 238, 290: error reading the rows *)
  | MsgCreateTables.        (* 329: error creating the tables *)

(** An error value: [errors.New], [fmt.Errorf] with the verb [%w], and
    the errors of the libraries. *)
Inductive error : Type :=
  | errors_New (text : message)
  | fmt_Errorf (text : message) (wrapped : error)
  | sql_ErrNoRows
  | sql_ScanError (column : nat)
  | pq_Error (code : sqlstate)
  | bcrypt_Error (text : string)
  | json_Error (e : json.UnmarshalError).

(** [err == sql.ErrNoRows] *)
Definition is_ErrNoRows (e : error) : bool :=
  match e with sql_ErrNoRows => true | _ => false end.

(** The taxonomy of the specification (section 7). *)
Inductive error_kind : Type :=
  | ValidationError
  | DuplicateUserError
  | NotFoundError
  | InvalidCredentialsError
  | StorageError
  | HashingError
  | SchemaError.

(** The kind of an error that a function of the repository returns: by
    the text the function gave it. *)
Definition kind_of (e : error) : error_kind :=
  match e with
  | errors_New MsgEmptyCredentials | errors_New MsgEmptyCompany
  | errors_New MsgCandidateFields | errors_New MsgJobFields => ValidationError
  | errors_New MsgUserExists => DuplicateUserError
  | errors_New MsgUserNotFound => NotFoundError
  | errors_New MsgWrongPassword => InvalidCredentialsError
  | fmt_Errorf MsgHashing _ | bcrypt_Error _ => HashingError
  | fmt_Errorf MsgCreateTables _ => SchemaError
  | _ => StorageError
  end.

(** The cause at the bottom of a chain of wrapped errors. *)
Fixpoint cause (e : error) : error :=
  match e with
  | fmt_Errorf _ w => cause w
  | _ => e
  end.

(* ================================================================= *)
(** ** The world and the effect monad *)

(** What goes to the store over the connection. *)
Inductive request : Type :=
  | Prepare (q : pg.statement)
  | Exec (q : pg.statement) (args : list pg.arg)
  | Query (q : pg.statement) (args : list pg.arg)
  | Close (q : pg.statement).

(** The world of the process: the store behind the connection [db], the
    requests sent to it (latest last), the number of draws from the
    random source, the lines still to be read from the standard input
    (each as [ReadString] returns it) and what was printed. *)
Record World : Type := mk_world {
  store : pg.Store;
  wire : list request;
  entropy : nat;
  stdin : list string;
  stdout : list string }.

Definition M (A : Type) : Type := World -> A * World.

Definition ret {A} (a : A) : M A := fun w => (a, w).
Definition bind {A B} (m : M A) (k : A -> M B) : M B :=
  fun w => let '(a, w') := m w in k a w'.

Declare Scope go_scope.
Delimit Scope go_scope with go.
Notation "x <- m ;; k" := (bind m (fun x => k))
  (at level 61, m at next level, right associativity) : go_scope.
Notation "' p <- m ;; k" := (bind m (fun x => let p := x in k))
  (at level 61, p pattern, m at next level, right associativity) : go_scope.
Notation "m ;; k" := (bind m (fun _ => k))
  (at level 61, right associativity) : go_scope.
Local Open Scope go_scope.

Definition send (r : request) : M unit :=
  fun w => (tt, mk_world (store w) (wire w ++ [r]) (entropy w) (stdin w) (stdout w)).

Definition run (q : pg.statement) (args : list pg.arg)
  : M (list (list pg.datum) + sqlstate) :=
  fun w =>
    let '(r, st) := pg.execute q args (store w) in
    (r, mk_world st (wire w) (entropy w) (stdin w) (stdout w)).

(** A draw from the random source. *)
Definition draw : M nat :=
  fun w => (entropy w,
            mk_world (store w) (wire w) (S (entropy w)) (stdin w) (stdout w)).

(** [fmt.Print] *)
Definition fmt_Print (s : string) : M unit :=
  fun w => (tt, mk_world (store w) (wire w) (entropy w) (stdin w) (stdout w ++ [s])).

(** [reader.ReadString('\n')] on a new reader of the standard input, the
    error dropped: the next line, or the empty string at the end of the
    input. *)
Definition ReadString : M string :=
  fun w =>
    match stdin w with
    | [] => (EmptyString, w)
    | line :: rest =>
      (line, mk_world (store w) (wire w) (entropy w) rest (stdout w))
    end.

(* ================================================================= *)
(** ** database/sql *)

Module sql.

(** [db.Prepare(query)]: the statement is sent to the store to be
    parsed.  Every text of the program is valid for the tables of
    [createTables], so the store accepts it. *)
Definition Prepare (q : pg.statement) : M (pg.statement * option error) :=
  send (Prepare q) ;; ret (q, None).

(** [stmt.Close()], [rows.Close()] *)
Definition Close (q : pg.statement) : M unit := send (Close q).

(** [stmt.Exec(args...)], [db.Exec(query, args...)]: the result is
    dropped by every caller. *)
Definition Exec (q : pg.statement) (args : list pg.arg) : M (option error) :=
  send (Exec q args) ;;
  r <- run q args ;;
  ret (match r with inl _ => None | inr e => Some (pq_Error e) end).

(** [db.Query(query, args...)]: the rows, or the error. *)
Definition Query (q : pg.statement) (args : list pg.arg)
  : M (list (list pg.datum) * option error) :=
  send (Query q args) ;;
  r <- run q args ;;
  ret (match r with inl rows => (rows, None) | inr e => ([], Some (pq_Error e)) end).

(** The conversions of [Scan] into a destination of a Go type; [column]
    is the index of the column. *)
Definition scan_int (column : nat) (d : pg.datum) : Z + error :=
  match d with
  | pg.DInt z => inl z
  | _ => inr (sql_ScanError column)
  end.

Definition scan_string (column : nat) (d : pg.datum) : string + error :=
  match d with
  | pg.DText s => inl s
  | _ => inr (sql_ScanError column)
  end.

Definition scan_float64 (column : nat) (d : pg.datum) : float64 + error :=
  match d with
  | pg.DNumeric f => inl f
  | _ => inr (sql_ScanError column)
  end.

(** Into a [[]byte]: NULL gives the nil slice, of no bytes. *)
Definition scan_bytes (column : nat) (d : pg.datum) : string + error :=
  match d with
  | pg.DText s => inl s
  | pg.DNull => inl EmptyString
  | _ => inr (sql_ScanError column)
  end.

(** [rows.Err()]: the rows come with the reply to the query, and reading
    them meets no error. *)
Definition Rows_Err : option error := None.

(** [QueryRow(args...).Scan(dest...)]: the error of the query, or
    [sql.ErrNoRows] when it has no row, or the scan of the first row.
    [zero] is what the destinations hold when they are not assigned. *)
Definition QueryRow_Scan {A} (q : pg.statement) (args : list pg.arg)
    (scan : list pg.datum -> A + error) (zero : A) : M (A * option error) :=
  '(rows, err) <- Query q args ;;
  ret (match err with
       | Some e => (zero, Some e)
       | None =>
         match rows with
         | [] => (zero, Some sql_ErrNoRows)
         | row :: _ =>
           match scan row with
           | inl a => (a, None)
           | inr e => (zero, Some e)
           end
         end
       end).

End sql.

Definition or_else {A B E} (r : A + E) (k : A -> B + E) : B + E :=
  match r with
  | inl a => k a
  | inr e => inr e
  end.
Notation "x <-? r ;; k" := (or_else r (fun x => k))
  (at level 61, r at next level, right associativity) : go_scope.

(* ================================================================= *)
(** ** src/main.go *)

Record User : Type := mk_User {
  User_ID : Z;
  User_Username : string;
  User_PasswordHash : string;
  User_Role : string }.

Record Candidate : Type := mk_Candidate {
  Candidate_ID : Z;
  Candidate_FullName : string;
  Candidate_Age : Z;
  Candidate_Email : string;
  Candidate_Experience : string;
  Candidate_Skills : slice string }.

Record JobOpening : Type := mk_JobOpening {
  JobOpening_ID : Z;
  JobOpening_CompanyID : Z;
  JobOpening_Title : string;
  JobOpening_Experience : string;
  JobOpening_Salary : float64;
  JobOpening_RequiredSkills : slice string }.

Record Company : Type := mk_Company {
  Company_ID : Z;
  Company_Name : string }.

(** [bcrypt.DefaultCost] *)
Definition bcrypt_DefaultCost : Z := 10.

Section Repository.

(** golang.org/x/crypto/bcrypt is taken as given.
    [GenerateFromPassword password cost seed] is the hash and the error,
    [seed] standing for the salt drawn from the random source;
    [CompareHashAndPassword hash password] is the error, nil on a
    match. *)
Variable bcrypt_GenerateFromPassword : string -> Z -> nat -> string * option error.
Variable bcrypt_CompareHashAndPassword : string -> string -> option error.

Definition hashPassword (password : string) : M (string * option error) :=
  seed <- draw ;;
  let '(bytes, err) := bcrypt_GenerateFromPassword password bcrypt_DefaultCost seed in
  match err with
  | Some e => ret (EmptyString, Some e)
  | None => ret (bytes, None)
  end.

Definition checkPasswordHash (password hash : string) : bool :=
  match bcrypt_CompareHashAndPassword hash password with
  | None => true
  | Some _ => false
  end.

Definition registerUser (username password : string) : M (option error) :=
  if String.eqb username "" || String.eqb password "" then
    ret (Some (errors_New MsgEmptyCredentials))
  else
    '(exists_, err) <-
      sql.QueryRow_Scan pg.SelectUserExists [pg.AString username]
        (fun row => match row with
                    | [d] => sql.scan_int 0 d
                    | _ => inr (sql_ScanError 0)
                    end) 0 ;;
    let insert : M (option error) :=
      '(hashedPassword, err) <- hashPassword password ;;
      match err with
      | Some e => ret (Some (fmt_Errorf MsgHashing e))
      | None =>
        '(stmt, err) <- sql.Prepare pg.InsertUser ;;
        match err with
        | Some e => ret (Some (fmt_Errorf MsgPrepare e))
        | None =>
          err <- sql.Exec stmt [pg.AString username; pg.AString hashedPassword] ;;
          sql.Close stmt ;;
          match err with
          | Some e => ret (Some (fmt_Errorf MsgRegister e))
          | None => ret None
          end
        end
      end in
    match err with
    | None =>
      if exists_ =? 1 then ret (Some (errors_New MsgUserExists)) else insert
    | Some e =>
      if negb (is_ErrNoRows e) then ret (Some (fmt_Errorf MsgExistenceProbe e))
      else insert
    end.

Definition loginUser (username password : string) : M (Z * string * option error) :=
  '(stmt, err) <- sql.Prepare pg.SelectUserByName ;;
  match err with
  | Some e => ret (0, EmptyString, Some (fmt_Errorf MsgPrepareLogin e))
  | None =>
    '(user, err) <-
      sql.QueryRow_Scan stmt [pg.AString username]
        (fun row => match row with
                    | [d0; d1; d2] =>
                      id <-? sql.scan_int 0 d0 ;;
                      hash <-? sql.scan_string 1 d1 ;;
                      role <-? sql.scan_string 2 d2 ;;
                      inl (mk_User id EmptyString hash role)
                    | _ => inr (sql_ScanError 0)
                    end)
        (mk_User 0 EmptyString EmptyString EmptyString) ;;
    sql.Close stmt ;;
    match err with
    | Some e =>
      if is_ErrNoRows e then ret (0, EmptyString, Some (errors_New MsgUserNotFound))
      else ret (0, EmptyString, Some (fmt_Errorf MsgAuth e))
    | None =>
      if negb (checkPasswordHash password (User_PasswordHash user)) then
        ret (0, EmptyString, Some (errors_New MsgWrongPassword))
      else ret (User_ID user, User_Role user, None)
    end
  end.

End Repository.

(** [input, _ := reader.ReadString('\n'); return strings.TrimSpace(input)] *)
Definition getInput (prompt : string) : M string :=
  fmt_Print prompt ;;
  input <- ReadString ;;
  ret (strings.TrimSpace input).

Definition getStringArrayInput (prompt : string) : M (slice string * option error) :=
  input <- getInput prompt ;;
  if String.eqb input "" then ret (Some [], None)
  else
    let skills := strings.Split input "," in
    ret (Some (map strings.TrimSpace skills), None).

Definition addCompany (companyName : string) : M (option error) :=
  if String.eqb companyName "" then ret (Some (errors_New MsgEmptyCompany))
  else
    '(stmt, err) <- sql.Prepare pg.InsertCompany ;;
    match err with
    | Some e => ret (Some (fmt_Errorf MsgPrepare e))
    | None =>
      err <- sql.Exec stmt [pg.AString companyName] ;;
      sql.Close stmt ;;
      match err with
      | Some e => ret (Some (fmt_Errorf MsgAddCompany e))
      | None => ret None
      end
    end.

(** [json.Marshal] of a [[]string] returns no error. *)
Definition json_Marshal (v : slice string) : string * option error :=
  (json.Marshal_strings v, None).

Definition addCandidate (candidate : Candidate) : M (option error) :=
  if String.eqb (Candidate_FullName candidate) "" || (Candidate_Age candidate <=? 0) then
    ret (Some (errors_New MsgCandidateFields))
  else
    let '(skillsJSON, err) := json_Marshal (Candidate_Skills candidate) in
    match err with
    | Some e => ret (Some (fmt_Errorf MsgMarshalSkills e))
    | None =>
      '(stmt, err) <- sql.Prepare pg.InsertCandidate ;;
      match err with
      | Some e => ret (Some (fmt_Errorf MsgPrepare e))
      | None =>
        err <- sql.Exec stmt
                 [pg.AString (Candidate_FullName candidate);
                  pg.AInt (Candidate_Age candidate);
                  pg.AString (Candidate_Email candidate);
                  pg.AString (Candidate_Experience candidate);
                  pg.ABytes skillsJSON] ;;
        sql.Close stmt ;;
        match err with
        | Some e => ret (Some (fmt_Errorf MsgAddCandidate e))
        | None => ret None
        end
      end
    end.

Definition addJobOpening (jobOpening : JobOpening) : M (option error) :=
  if String.eqb (JobOpening_Title jobOpening) ""
     || (JobOpening_CompanyID jobOpening <=? 0)
     || SFleb (JobOpening_Salary jobOpening) float64_zero then
    ret (Some (errors_New MsgJobFields))
  else
    let '(requiredSkillsJSON, err) := json_Marshal (JobOpening_RequiredSkills jobOpening) in
    match err with
    | Some e => ret (Some (fmt_Errorf MsgMarshalSkills e))
    | None =>
      '(stmt, err) <- sql.Prepare pg.InsertJobOpening ;;
      match err with
      | Some e => ret (Some (fmt_Errorf MsgPrepare e))
      | None =>
        err <- sql.Exec stmt
                 [pg.AInt (JobOpening_CompanyID jobOpening);
                  pg.AString (JobOpening_Title jobOpening);
                  pg.AString (JobOpening_Experience jobOpening);
                  pg.AFloat (JobOpening_Salary jobOpening);
                  pg.ABytes requiredSkillsJSON] ;;
        sql.Close stmt ;;
        match err with
        | Some e => ret (Some (fmt_Errorf MsgAddJobOpening e))
        | None => ret None
        end
      end
    end.

(** [rows.Scan] of a row of candidates, and [json.Unmarshal] of the
    skills into the new record, its error dropped. *)
Definition scan_candidate (row : list pg.datum) : Candidate + error :=
  match row with
  | [d0; d1; d2; d3; d4; d5] =>
    id <-? sql.scan_int 0 d0 ;;
    full_name <-? sql.scan_string 1 d1 ;;
    age <-? sql.scan_int 2 d2 ;;
    email <-? sql.scan_string 3 d3 ;;
    experience <-? sql.scan_string 4 d4 ;;
    skillsJSON <-? sql.scan_bytes 5 d5 ;;
    inl (mk_Candidate id full_name age email experience
           (fst (json.Unmarshal_strings skillsJSON)))
  | _ => inr (sql_ScanError 0)
  end.

(** The loop [for rows.Next()] of [findCandidatesBySkill]. *)
Fixpoint candidates_loop (rows : list (list pg.datum)) (candidates : slice Candidate)
  : slice Candidate + error :=
  match rows with
  | [] => inl candidates
  | row :: rest =>
    match scan_candidate row with
    | inr e => inr (fmt_Errorf MsgScanRow e)
    | inl candidate => candidates_loop rest (append1 candidates candidate)
    end
  end.

Definition findCandidatesBySkill (skill : string) : M (slice Candidate * option error) :=
  '(rows, err) <-
    sql.Query pg.SelectCandidatesBySkill
      [pg.AString ((String "[" (str1 dquote) +++ skill) +++ String dquote "]")] ;;
  match err with
  | Some e => ret (None, Some (fmt_Errorf MsgQuery e))
  | None =>
    let result := candidates_loop rows nil_slice in
    sql.Close pg.SelectCandidatesBySkill ;;
    match result with
    | inr e => ret (None, Some e)
    | inl candidates =>
      match sql.Rows_Err with
      | Some e => ret (None, Some (fmt_Errorf MsgReadRows e))
      | None => ret (candidates, None)
      end
    end
  end.

Definition scan_job_opening (row : list pg.datum) : JobOpening + error :=
  match row with
  | [d0; d1; d2; d3; d4; d5] =>
    id <-? sql.scan_int 0 d0 ;;
    company_id <-? sql.scan_int 1 d1 ;;
    title <-? sql.scan_string 2 d2 ;;
    experience <-? sql.scan_string 3 d3 ;;
    salary <-? sql.scan_float64 4 d4 ;;
    requiredSkillsJSON <-? sql.scan_bytes 5 d5 ;;
    inl (mk_JobOpening id company_id title experience salary
           (fst (json.Unmarshal_strings requiredSkillsJSON)))
  | _ => inr (sql_ScanError 0)
  end.

(** The loop [for rows.Next()] of [findJobOpeningsBySkill]. *)
Fixpoint job_openings_loop (rows : list (list pg.datum)) (jobOpenings : slice JobOpening)
  : slice JobOpening + error :=
  match rows with
  | [] => inl jobOpenings
  | row :: rest =>
    match scan_job_opening row with
    | inr e => inr (fmt_Errorf MsgScanRow e)
    | inl jobOpening => job_openings_loop rest (append1 jobOpenings jobOpening)
    end
  end.

Definition findJobOpeningsBySkill (skill : string) : M (slice JobOpening * option error) :=
  '(rows, err) <-
    sql.Query pg.SelectJobOpeningsBySkill
      [pg.AString ((String "[" (str1 dquote) +++ skill) +++ String dquote "]")] ;;
  match err with
  | Some e => ret (None, Some (fmt_Errorf MsgQuery e))
  | None =>
    let result := job_openings_loop rows nil_slice in
    sql.Close pg.SelectJobOpeningsBySkill ;;
    match result with
    | inr e => ret (None, Some e)
    | inl jobOpenings =>
      match sql.Rows_Err with
      | Some e => ret (None, Some (fmt_Errorf MsgReadRows e))
      | None => ret (jobOpenings, None)
      end
    end
  end.

Definition createTables : M (option error) :=
  err <- sql.Exec pg.CreateTables [] ;;
  match err with
  | Some e => ret (Some (fmt_Errorf MsgCreateTables e))
  | None => ret None
  end.

(* ================================================================= *)
(** ** An instance of the hash functions *)

(** Two functions with the property assumed of bcrypt (a hash that was
    generated from a password compares equal to it), to run the
    repository on examples.  The hash is the password behind a prefix;
    like the library, the generator refuses more than 72 bytes. *)
Module plainhash.

Definition GenerateFromPassword (password : string) (cost : Z) (seed : nat)
  : string * option error :=
  if (72 <? String.length password)%nat then
    (EmptyString, Some (bcrypt_Error "password length exceeds 72 bytes"))
  else ("$2a$" +++ password, None).

Definition CompareHashAndPassword (hash password : string) : option error :=
  if String.eqb hash ("$2a$" +++ password) then None
  else Some (bcrypt_Error "hashedPassword is not the hash of the given password").

End plainhash.

(** A world with an empty store and nothing on the console. *)
Definition initial_world : World := mk_world pg.empty [] 0 [] [].

(** A world with one user, alice. *)
Definition alice_world : World :=
  snd (registerUser plainhash.GenerateFromPassword "alice" "secret1" initial_world).

(* ================================================================= *)
(** ** Notions used in the statements *)

(** The users rows that a lookup by name returns. *)
Definition rows_named (username : string) (st : pg.Store) : list pg.users_row :=
  filter (fun r => String.eqb (pg.users_username r) username) (pg.users st).

(** A part of a string: what is left when a prefix and a suffix are cut
    off. *)
Definition part_of (t s : string) : Prop :=
  exists before after, s = before +++ t +++ after.

(** A continuation byte. *)
Definition continuation (c : ascii) : Prop := 0x80 <= byte c <= 0xBF.

(** The well-formed encodings of more than one byte and the rune each
    encodes (the Unicode Standard, table 3-7). *)
Inductive encodes : string -> Z -> Prop :=
  | encodes2 (c0 c1 : ascii) :
      0xC2 <= byte c0 <= 0xDF -> continuation c1 ->
      encodes (String c0 (str1 c1)) ((byte c0 - 0xC0) * 64 + (byte c1 - 0x80))
  | encodes3 (c0 c1 c2 : ascii) :
      0xE0 <= byte c0 <= 0xEF -> continuation c1 -> continuation c2 ->
      (byte c0 = 0xE0 -> 0xA0 <= byte c1) ->
      (byte c0 = 0xED -> byte c1 <= 0x9F) ->
      encodes (String c0 (String c1 (str1 c2)))
        ((byte c0 - 0xE0) * 4096 + (byte c1 - 0x80) * 64 + (byte c2 - 0x80))
  | encodes4 (c0 c1 c2 c3 : ascii) :
      0xF0 <= byte c0 <= 0xF4 ->
      continuation c1 -> continuation c2 -> continuation c3 ->
      (byte c0 = 0xF0 -> 0x90 <= byte c1) ->
      (byte c0 = 0xF4 -> byte c1 <= 0x8F) ->
      encodes (String c0 (String c1 (String c2 (str1 c3))))
        ((byte c0 - 0xF0) * 262144 + (byte c1 - 0x80) * 4096 +
         (byte c2 - 0x80) * 64 + (byte c3 - 0x80)).

(** A string of well-formed encodings. *)
Inductive wellformed : string -> Prop :=
  | wellformed_nil : wellformed EmptyString
  | wellformed_ascii (c : ascii) (s : string) :
      byte c < 0x80 -> wellformed s -> wellformed (String c s)
  | wellformed_encoding (e : string) (r : Z) (s : string) :
      encodes e r -> wellformed s -> wellformed (e +++ s).

(** A string without the byte 0. *)
Definition no_nul (s : string) : bool :=
  all_bytes (fun c => negb (byte c =? 0)) s.

(** A byte that stands for itself inside a string literal of JSON: not
    a control byte, not the quote, not the backslash. *)
Definition plain_byte (c : ascii) : bool :=
  (0x20 <=? byte c) && negb (Ascii.eqb c dquote) && negb (Ascii.eqb c backslash).

Definition plain (s : string) : bool := all_bytes plain_byte s.

(** The text that [jsonb_out] gives for the elements of an array of
    strings. *)
Fixpoint out_strings (l : list string) : string :=
  match l with
  | [] => EmptyString
  | [x] => jsonb.escape_json x
  | x :: rest => jsonb.escape_json x +++ ", " +++ out_strings rest
  end.

(** The text of a JSONB column in a result row; NULL has none. *)
Definition column_text (o : option jsontext.json) : string :=
  match o with
  | None => EmptyString
  | Some j => jsonb.jsonb_out j
  end.

(** The record that the loop of [findCandidatesBySkill] builds from a row
    whose experience is not NULL. *)
Definition candidate_of_row (r : pg.candidates_row) : Candidate :=
  mk_Candidate (pg.candidates_id r) (pg.candidates_full_name r)
    (pg.candidates_age r) (pg.candidates_email r)
    (match pg.candidates_experience r with Some e => e | None => EmptyString end)
    (fst (json.Unmarshal_strings (column_text (pg.candidates_skills r)))).

(** The record that the loop of [findJobOpeningsBySkill] builds from a
    row whose company key and experience are not NULL. *)
Definition job_opening_of_row (r : pg.job_openings_row) : JobOpening :=
  mk_JobOpening (pg.job_openings_id r)
    (match pg.job_openings_company_id r with Some c => c | None => 0 end)
    (pg.job_openings_title r)
    (match pg.job_openings_experience r with Some e => e | None => EmptyString end)
    (pg.job_openings_salary r)
    (fst (json.Unmarshal_strings (column_text (pg.job_openings_required_skills r)))).

(** The slice that a loop of [append] builds from nil: nil when nothing
    was appended. *)
Definition slice_of {A} (l : list A) : slice A :=
  match l with
  | [] => None
  | _ => Some l
  end.

(** A skill query returns the candidate of key [id]: it returns no error
    and a record of that key is in the list. *)
Definition returns_candidate (id : Z) (result : slice Candidate * option error) : Prop :=
  snd result = None /\
  exists c, In c (elems (fst result)) /\ Candidate_ID c = id.

(** Worlds and records of the examples. *)
Definition ann : Candidate :=
  mk_Candidate 0 "Ann" 30 "ann@example.org" "5 years" (Some ["go"; "sql"]%string).

Definition ann_world : World := snd (addCandidate ann alice_world).

(** Skills that a skill query cannot ask for: with a quote, with a
    backslash, with a tab, and one byte that is not UTF-8. *)
Definition quoted_skill : string := String "a" (String dquote "b").
Definition backslash_skill : string := "a\b".
Definition tab_skill : string := String "a" (String (chr 9) "b").
Definition invalid_skill : string := str1 (chr 0xFF).

Definition bob : Candidate :=
  mk_Candidate 0 "Bob" 41 "bob@example.org" ""
    (Some [quoted_skill; backslash_skill; tab_skill; invalid_skill; "go"%string]).

Definition bob_world : World := snd (addCandidate bob alice_world).

(** The skill that is two elements of an array once it stands between
    the quotes of the query. *)
Definition injected_skill : string :=
  String "g" (String "o" (String dquote (String "," (String dquote "sql")))).

Definition acme_world : World := snd (addCompany "Acme" alice_world).

Definition engineer : JobOpening :=
  mk_JobOpening 0 1 "Engineer" "" (S754_finite false 1000 0) (Some ["go"%string]).

Definition engineer_world : World := snd (addJobOpening engineer acme_world).

(** A computation keeps a property of the store. *)
Definition keeps (P : pg.Store -> Prop) {A} (m : M A) : Prop :=
  forall w, P (store w) -> P (store (snd (m w))).

(** A reader went on: it did not run out of fuel, and when it returned a
    value, what it left of the text is shorter than [n]. *)
Definition went_on {A} (n : nat) (x : jsontext.res (A * string)) : Prop :=
  match x with
  | jsontext.Ok (_, r) => (String.length r < n)%nat
  | jsontext.Fail _ => True
  | jsontext.OutOfFuel => False
  end.


(** The constraints that [createTables] declares and that outlast every
    statement of the program: keys and the names declared UNIQUE are
    without duplicates, every role is the default, which no statement of
    the program overrides, and every job opening refers to a company,
    which no statement of the program removes. *)
Definition schema_holds (st : pg.Store) : Prop :=
  NoDup (map pg.users_id (pg.users st)) /\
  NoDup (map pg.users_username (pg.users st)) /\
  Forall (fun r => pg.users_role r = "user"%string) (pg.users st) /\
  NoDup (map pg.companies_id (pg.companies st)) /\
  NoDup (map pg.companies_name (pg.companies st)) /\
  NoDup (map pg.candidates_id (pg.candidates st)) /\
  NoDup (map pg.job_openings_id (pg.job_openings st)) /\
  Forall (fun j => exists c, In c (pg.companies st) /\
                     pg.job_openings_company_id j = Some (pg.companies_id c))
         (pg.job_openings st).

(** A skill query returns the job opening of key [id]. *)
Definition returns_job_opening (id : Z) (result : slice JobOpening * option error) : Prop :=
  snd result = None /\
  exists j, In j (elems (fst result)) /\ JobOpening_ID j = id.

(** The document that the store keeps for a slice of skills. *)
Definition skills_document (skills : slice string) : jsontext.json :=
  match skills with
  | None => jsontext.JNull
  | Some l => jsontext.JArray (map jsontext.JString l)
  end.

(** A password longer than bcrypt takes. *)
Definition long_password : string :=
  "0123456789012345678901234567890123456789012345678901234567890123456789012"%string.

(** A candidate with the byte 0 in a skill. *)
Definition eve : Candidate :=
  mk_Candidate 0 "Eve" 25 "" "" (Some ["go"%string; String (chr 0) "sql"]).

(** [l] is [base] with rows added at the end. *)
Definition extends {A} (base l : list A) : Prop :=
  exists more, l = base ++ more.

(* ================================================================= *)
(** ** strconv and the verb [%d] of fmt *)

Module strconv.

(** [ErrSyntax] and [ErrRange] *)
Inductive conversion_error : Type :=
  | ErrSyntax
  | ErrRange.

(** [NumError] *)
Record NumError : Type := mk_NumError {
  Func : string;
  Num : string;
  Err : conversion_error }.

Definition syntaxError (fn str : string) : NumError := mk_NumError fn str ErrSyntax.
Definition rangeError (fn str : string) : NumError := mk_NumError fn str ErrRange.

(** [IntSize]: the program is taken to run where an [int] has 64 bits. *)
Definition IntSize : Z := 64.
Definition maxUint64 : Z := 2 ^ 64 - 1.

(** [uint64(x)] and [int64(x)]: the value of the low 64 bits. *)
Definition uint64 (x : Z) : Z := x mod 2 ^ 64.
Definition int64 (x : Z) : Z := (x + 2 ^ 63) mod 2 ^ 64 - 2 ^ 63.

(** [lower(c)]: [c | ('x' - 'X')] *)
Definition lower (c : Z) : Z := Z.lor c 0x20.

(** The loop of [ParseUint] for base 10 and 64 bits; [n] is the value
    read so far.  The result is what [ParseUint] returns from inside the
    loop or after it: the value, and the kind of the error. *)
Fixpoint ParseUint_loop (s : string) (n : Z) : Z * option conversion_error :=
  match s with
  | EmptyString => (n, None)
  | String c t =>
    let b := byte c in
    let digit : option Z :=
      if (48 <=? b) && (b <=? 57) then Some (b - 48)
      else if (97 <=? lower b) && (lower b <=? 122) then Some (lower b - 97 + 10)
      else None in
    match digit with
    | None => (0, Some ErrSyntax)
    | Some d =>
      if 10 <=? d then (0, Some ErrSyntax)
      else if maxUint64 / 10 + 1 <=? n then (maxUint64, Some ErrRange)
      else
        let n10 := uint64 (n * 10) in
        let n1 := uint64 (n10 + d) in
        if (n1 <? n10) || (maxUint64 <? n1) then (maxUint64, Some ErrRange)
        else ParseUint_loop t n1
    end
  end.

(** [ParseUint(s, 10, 0)] *)
Definition ParseUint (s : string) : Z * option NumError :=
  match s with
  | EmptyString => (0, Some (syntaxError "ParseUint" s))
  | _ =>
    match ParseUint_loop s 0 with
    | (n, None) => (n, None)
    | (n, Some ErrSyntax) => (n, Some (syntaxError "ParseUint" s))
    | (n, Some ErrRange) => (n, Some (rangeError "ParseUint" s))
    end
  end.

(** [ParseInt(s, 10, 0)], once the sign is picked off: [s0] is the whole
    text, [neg] the sign and [s] the text after it. *)
Definition ParseInt_unsigned (s0 : string) (neg : bool) (s : string)
  : Z * option NumError :=
  let '(un, err) := ParseUint s in
  let syntax :=
    match err with
    | Some e => match Err e with ErrRange => false | ErrSyntax => true end
    | None => false
    end in
  if syntax then (0, Some (mk_NumError "ParseInt" s0 ErrSyntax))
  else
    let cutoff := 2 ^ (IntSize - 1) in
    if negb neg && (cutoff <=? un) then (cutoff - 1, Some (rangeError "ParseInt" s0))
    else if neg && (cutoff <? un) then (- cutoff, Some (rangeError "ParseInt" s0))
    else
      let n := int64 un in
      (if neg then int64 (- n) else n, None).

(** [ParseInt(s, 10, 0)] *)
Definition ParseInt (s : string) : Z * option NumError :=
  match s with
  | EmptyString => (0, Some (syntaxError "ParseInt" s))
  | String c t =>
    if Ascii.eqb c "+" then ParseInt_unsigned s false t
    else if Ascii.eqb c "-" then ParseInt_unsigned s true t
    else ParseInt_unsigned s false s
  end.

(** The loop of the fast path of [Atoi]: [ch -= '0'] is on a byte.  With
    fewer than 19 digits [n] stays within an [int]. *)
Fixpoint Atoi_loop (s : string) (n : Z) : option Z :=
  match s with
  | EmptyString => Some n
  | String ch t =>
    let ch' := (byte ch - 48) mod 256 in
    if 9 <? ch' then None else Atoi_loop t (n * 10 + ch')
  end.

(** [Atoi(s)] *)
Definition Atoi (s : string) : Z * option NumError :=
  let sLen := String.length s in
  if ((0 <? sLen) && (sLen <? 19))%nat then
    match s with
    | EmptyString => (0, Some (syntaxError "Atoi" s))
    | String c t =>
      let s0 := s in
      let signed := Ascii.eqb c "-" || Ascii.eqb c "+" in
      let s1 := if signed then t else s in
      if signed && (String.length s1 <? 1)%nat then (0, Some (syntaxError "Atoi" s0))
      else
        match Atoi_loop s1 0 with
        | None => (0, Some (syntaxError "Atoi" s0))
        | Some n => (if Ascii.eqb c "-" then - n else n, None)
        end
    end
  else
    let '(i64, err) := ParseInt s in
    (i64,
     match err with
     | Some nerr => Some (mk_NumError "Atoi" (Num nerr) (Err nerr))
     | None => None
     end).

End strconv.

(** The verb [%d] of fmt on an [int] ([fmtInteger], base 10, no flags):
    the digits are written from the last one, while [u >= 10], then the
    first one, then the sign.  Twenty digits are enough for 64 bits. *)
Fixpoint fmt_digits (fuel : nat) (u : Z) (buf : string) : string :=
  match fuel with
  | O => buf
  | S f =>
    if 10 <=? u then
      let next := u / 10 in
      fmt_digits f next (String (chr (48 + u - next * 10)) buf)
    else String (chr (48 + u)) buf
  end.

Definition fmt_d (v : Z) : string :=
  let u := strconv.uint64 v in
  let negative := strconv.int64 u <? 0 in
  let u := if negative then strconv.uint64 (- u) else u in
  let buf := fmt_digits 20 u EmptyString in
  if negative then String "-" buf else buf.

(** The errors that the console functions make: [fmt.Errorf] with the
    verb [%w] around the error of strconv. *)
Inductive input_error : Type :=
  | invalid_integer (wrapped : strconv.NumError)    (* 128: not an integer *)
  | invalid_float (wrapped : strconv.NumError).     (* 137: not a real number *)

Definition getIntInput (prompt : string) : M (Z * option input_error) :=
  input <- getInput prompt ;;
  let '(num, err) := strconv.Atoi input in
  match err with
  | Some e => ret (0, Some (invalid_integer e))
  | None => ret (num, None)
  end.

(** A decimal numeral: an optional sign and digits, at least one.  The
    value of the digits [s] after the value [n]. *)
Fixpoint digits_value (s : string) (n : Z) : Z :=
  match s with
  | EmptyString => n
  | String c t => digits_value t (n * 10 + (byte c - 48))
  end.

Definition digits_of (ds : string) : option Z :=
  match ds with
  | EmptyString => None
  | _ => if all_bytes jsontext.is_digit ds then Some (digits_value ds 0) else None
  end.

Definition numeral (s : string) : option Z :=
  match s with
  | EmptyString => None
  | String c t =>
    if Ascii.eqb c "-" then option_map Z.opp (digits_of t)
    else if Ascii.eqb c "+" then digits_of t
    else digits_of s
  end.

(** The values of an [int]. *)
Definition is_int (z : Z) : bool := (- 2 ^ 63 <=? z) && (z <? 2 ^ 63).

(** The end of a line. *)
Definition newline : string := str1 (chr 10).

(** White space of ASCII only; a byte of ASCII that is not white space;
    a text that is empty or begins and ends with such a byte. *)
Definition spaces (s : string) : bool :=
  all_bytes (fun c => strings.asciiSpace (byte c)) s.

Definition solid (c : ascii) : bool :=
  (byte c <? utf8.RuneSelf) && negb (strings.asciiSpace (byte c)).

Fixpoint last_byte (s : string) (c : ascii) : ascii :=
  match s with
  | EmptyString => c
  | String c' t => last_byte t c'
  end.

Definition tidy (s : string) : bool :=
  match s with
  | EmptyString => true
  | String c t => solid c && solid (last_byte t c)
  end.

(* ================================================================= *)
(** ** fmt and the texts of the program *)

(** [fmt.Println] of one operand; of several, they go in with a space
    between them. *)
Definition fmt_Println (s : string) : M unit := fmt_Print (s +++ newline).

(** The verb [%v] on a slice of strings: the elements as they are,
    between brackets, with a space between them. *)
Definition fmt_v (v : slice string) : string :=
  "[" +++ String.concat " " (elems v) +++ "]".

(** The interface [error]: a value with the method [Error]. *)
Class GoError (E : Type) : Type := { Error : E -> string }.

(** The texts of the errors that src/main.go creates; for an error made
    by [fmt.Errorf], the text before the colon and the verb [%w]. *)
Definition text (m : message) : string :=
  match m with
  | MsgEmptyCredentials => "имя пользователя и пароль не могут быть пустыми"
  | MsgUserExists => "пользователь с таким именем уже существует"
  | MsgExistenceProbe => "ошибка проверки существования пользователя"
  | MsgHashing => "ошибка хеширования пароля"
  | MsgPrepare => "ошибка подготовки запроса"
  | MsgRegister => "ошибка регистрации пользователя"
  | MsgPrepareLogin => "Ошибка подготовки запроса"
  | MsgUserNotFound => "пользователь не найден"
  | MsgAuth => "ошибка авторизации"
  | MsgWrongPassword => "неверный пароль"
  | MsgEmptyCompany => "имя компании не может быть пустым"
  | MsgAddCompany => "ошибка добавления компании"
  | MsgCandidateFields => "не все обязательные поля заполнены для кандидата"
  | MsgMarshalSkills => "ошибка сериализации навыков"
  | MsgAddCandidate => "ошибка добавления кандидата"
  | MsgJobFields => "не все обязательные поля заполнены для вакансии"
  | MsgAddJobOpening => "ошибка добавления вакансии"
  | MsgQuery => "ошибка запроса к базе данных"
  | MsgScanRow => "ошибка сканирования строки"
  | MsgReadRows => "ошибка чтения строк"
  | MsgCreateTables => "ошибка создания таблиц"
  end.

(** [for _, x := range l { f(x) }] *)
Fixpoint for_range {A} (l : list A) (f : A -> M unit) : M unit :=
  match l with
  | [] => ret tt
  | x :: rest => f x ;; for_range rest f
  end.

(** The headings and the confirmations. *)
Definition all_job_openings : string := "Все вакансии:"%string.
Definition registered : string := "Регистрация успешна!"%string.
Definition company_added : string := "Компания успешно добавлена!"%string.
Definition candidate_added : string := "Кандидат успешно добавлен!"%string.
Definition job_opening_added : string := "Вакансия успешно добавлена!"%string.
Definition candidates_found : string := "Найденные кандидаты:"%string.
Definition job_openings_found : string := "Найденные вакансии:"%string.

Section Console.

(** The libraries behind the console, taken as given: bcrypt as before;
    [strconv.ParseFloat(s, 64)]; the verb [%.2f] on a [float64]; and the
    texts of the errors that the libraries make, which the program only
    prints. *)
Variable bcrypt_GenerateFromPassword : string -> Z -> nat -> string * option error.
Variable bcrypt_CompareHashAndPassword : string -> string -> option error.
Variable strconv_ParseFloat : string -> float64 * option strconv.NumError.
Variable fmt_f2 : float64 -> string.
Variable library_Error : error -> string.
Variable NumError_Error : strconv.NumError -> string.

(** [err.Error()]: the text of [errors.New]; for [fmt.Errorf] the text,
    a colon and a space, and the text of the wrapped error. *)
Fixpoint error_Error (e : error) : string :=
  match e with
  | errors_New m => text m
  | fmt_Errorf m wrapped => text m +++ ": " +++ error_Error wrapped
  | other => library_Error other
  end.

Definition input_error_Error (e : input_error) : string :=
  match e with
  | invalid_integer wrapped => "неверный ввод целого числа" +++ ": " +++ NumError_Error wrapped
  | invalid_float wrapped => "неверный ввод вещественного числа" +++ ": " +++ NumError_Error wrapped
  end.

#[local] Instance error_GoError : GoError error := {| Error := error_Error |}.
#[local] Instance input_error_GoError : GoError input_error :=
  {| Error := input_error_Error |}.

Definition getFloatInput (prompt : string) : M (float64 * option input_error) :=
  input <- getInput prompt ;;
  let '(num, err) := strconv_ParseFloat input in
  match err with
  | Some e => ret (float64_zero, Some (invalid_float e))
  | None => ret (num, None)
  end.

(** What [listAllJobOpenings] prints for one row. *)
Definition job_opening_text (jobOpening : JobOpening) : string :=
    "ID: " +++ fmt_d (JobOpening_ID jobOpening) +++ newline +++
    "Компания ID: " +++
    fmt_d (JobOpening_CompanyID jobOpening) +++ newline +++
    "Название: " +++ JobOpening_Title jobOpening +++
    newline +++ "Опыт: " +++
    JobOpening_Experience jobOpening +++ newline +++
    "Зарплата: " +++ fmt_f2 (JobOpening_Salary jobOpening) +++
    newline +++ "Требуемые навыки: " +++
    fmt_v (JobOpening_RequiredSkills jobOpening) +++
    newline +++ newline.

(** The loop [for rows.Next()] of [listAllJobOpenings]: each row is
    printed before the next one is scanned. *)
Fixpoint listAllJobOpenings_loop (rows : list (list pg.datum)) : M (option error) :=
  match rows with
  | [] => ret None
  | row :: rest =>
    match scan_job_opening row with
    | inr e => ret (Some (fmt_Errorf MsgScanRow e))
    | inl jobOpening =>
      fmt_Print (job_opening_text jobOpening) ;;
      listAllJobOpenings_loop rest
    end
  end.

Definition listAllJobOpenings : M (option error) :=
  '(rows, err) <- sql.Query pg.SelectAllJobOpenings [] ;;
  match err with
  | Some e => ret (Some (fmt_Errorf MsgQuery e))
  | None =>
    fmt_Println all_job_openings ;;
    result <- listAllJobOpenings_loop rows ;;
    sql.Close pg.SelectAllJobOpenings ;;
    match result with
    | Some e => ret (Some e)
    | None =>
      match sql.Rows_Err with
      | Some e => ret (Some (fmt_Errorf MsgReadRows e))
      | None => ret None
      end
    end
  end.

Definition handleError {E} `{GoError E} (err : option E) : M unit :=
  match err with
  | Some e => fmt_Println ("Произошла ошибка:" +++ " " +++ Error e)
  | None => ret tt
  end.

(** The menu, lines 357 to 366: ten calls of [fmt.Println]. *)
Definition menu : list string :=
  [newline +++ "Выберите действие:";
   "1. Зарегистрироваться";
   "2. Авторизоваться";
   "3. Добавить компанию";
   "4. Добавить кандидата";
   "5. Добавить вакансию";
   "6. Найти кандидатов по навыку";
   "7. Найти вакансии по навыку";
   "8. Показать все вакансии";
   "9. Выйти"]%string.

Definition print_menu : M unit := for_range menu fmt_Println.

(** The texts that [main] prints around the turns. *)
Definition choice_prompt : string := "Введите номер действия: "%string.
Definition farewell : string := "Выход из программы."%string.
Definition wrong_choice : string := "Неверный выбор действия. Попробуйте снова."%string.

(** The cases of the [switch], lines 375 to 473.  The result tells
    whether [main] returns: a case that ends, or that leaves by
    [continue], goes on with the loop. *)
Definition register_case : M bool :=
  username <- getInput "Введите имя пользователя: " ;;
  password <- getInput "Введите пароль: " ;;
  err <- registerUser bcrypt_GenerateFromPassword username password ;;
  handleError err ;;
  match err with
  | None => fmt_Println registered ;; ret false
  | Some _ => ret false
  end.

(** What [main] prints after a login, line 389. *)
Definition login_text (userID : Z) (role : string) : string :=
    "Авторизация успешна! ID пользователя: " +++
    fmt_d (userID) +++ ", Роль: " +++ role +++ newline.

Definition login_case : M bool :=
  username <- getInput "Введите имя пользователя: " ;;
  password <- getInput "Введите пароль: " ;;
  '(userID, role, err) <- loginUser bcrypt_CompareHashAndPassword username password ;;
  handleError err ;;
  match err with
  | None =>
    fmt_Print (login_text userID role) ;;
    ret false
  | Some _ => ret false
  end.

Definition company_case : M bool :=
  companyName <- getInput "Введите название компании: " ;;
  err <- addCompany companyName ;;
  handleError err ;;
  match err with
  | None => fmt_Println company_added ;; ret false
  | Some _ => ret false
  end.

Definition candidate_case : M bool :=
  FullName <- getInput "Введите ФИО кандидата: " ;;
  '(Age, err) <- getIntInput "Введите возраст кандидата: " ;;
  handleError err ;;
  match err with
  | Some _ => ret false
  | None =>
    Email <- getInput "Введите email кандидата: " ;;
    Experience <- getInput "Введите опыт работы кандидата: " ;;
    '(Skills, err) <- getStringArrayInput "Введите навыки кандидата (через запятую): " ;;
    handleError err ;;
    match err with
    | Some _ => ret false
    | None =>
      err <- addCandidate (mk_Candidate 0 FullName Age Email Experience Skills) ;;
      handleError err ;;
      match err with
      | None => fmt_Println candidate_added ;; ret false
      | Some _ => ret false
      end
    end
  end.

Definition job_opening_case : M bool :=
  Title <- getInput "Введите название вакансии: " ;;
  '(CompanyID, err) <- getIntInput "Введите ID компании: " ;;
  handleError err ;;
  match err with
  | Some _ => ret false
  | None =>
    Experience <- getInput "Введите требуемый опыт работы: " ;;
    '(Salary, err) <- getFloatInput "Введите зарплату: " ;;
    handleError err ;;
    match err with
    | Some _ => ret false
    | None =>
      '(RequiredSkills, err) <- getStringArrayInput "Введите требуемые навыки (через запятую): " ;;
      handleError err ;;
      match err with
      | Some _ => ret false
      | None =>
        err <- addJobOpening
                 (mk_JobOpening 0 CompanyID Title Experience Salary RequiredSkills) ;;
        handleError err ;;
        match err with
        | None => fmt_Println job_opening_added ;; ret false
        | Some _ => ret false
        end
      end
    end
  end.

(** What [main] prints for a candidate found, line 449, and for a job
    opening found, line 459. *)
Definition candidate_text (c : Candidate) : string :=
    "ID: " +++ fmt_d (Candidate_ID c) +++ ", ФИО: " +++
    Candidate_FullName c +++ ", Навыки: " +++
    fmt_v (Candidate_Skills c) +++ newline.

Definition job_opening_line (j : JobOpening) : string :=
    "ID: " +++ fmt_d (JobOpening_ID j) +++ ", Название: " +++
    JobOpening_Title j +++ ", Требуемые навыки: " +++
    fmt_v (JobOpening_RequiredSkills j) +++ newline.

Definition find_candidates_case : M bool :=
  skill <- getInput "Введите навык для поиска кандидатов: " ;;
  '(candidates, err) <- findCandidatesBySkill skill ;;
  handleError err ;;
  match err with
  | None =>
    fmt_Println candidates_found ;;
    for_range (elems candidates) (fun c => fmt_Print (candidate_text c)) ;;
    ret false
  | Some _ => ret false
  end.

Definition find_job_openings_case : M bool :=
  skill <- getInput "Введите навык для поиска вакансий: " ;;
  '(jobOpenings, err) <- findJobOpeningsBySkill skill ;;
  handleError err ;;
  match err with
  | None =>
    fmt_Println job_openings_found ;;
    for_range (elems jobOpenings) (fun j => fmt_Print (job_opening_line j)) ;;
    ret false
  | Some _ => ret false
  end.

Definition list_case : M bool :=
  err <- listAllJobOpenings ;;
  handleError err ;;
  match err with
  | Some e => fmt_Println ("Ошибка при выводе вакансий:" +++ " " +++ Error e) ;; ret false
  | None => ret false
  end.

(** One turn of the loop of [main], lines 357 to 473. *)
Definition main_turn : M bool :=
  print_menu ;;
  '(choice, err) <- getIntInput choice_prompt ;;
  handleError err ;;
  match err with
  | Some _ => ret false
  | None =>
    match choice with
    | 1 => register_case
    | 2 => login_case
    | 3 => company_case
    | 4 => candidate_case
    | 5 => job_opening_case
    | 6 => find_candidates_case
    | 7 => find_job_openings_case
    | 8 => list_case
    | 9 => fmt_Println farewell ;; ret true
    | _ => fmt_Println wrong_choice ;; ret false
    end
  end.

(** The loop [for] of [main]: [Some tt] when [main] has returned,
    [None] when it is still running after [fuel] turns. *)
Fixpoint main_loop (fuel : nat) : M (option unit) :=
  match fuel with
  | O => ret None
  | S fuel' =>
    stop <- main_turn ;;
    if stop then ret (Some tt) else main_loop fuel'
  end.

(** [main] from line 350 on, once the connection [db] is open; the world
    is that of the process with its connection. *)
Definition main (fuel : nat) : M (option unit) :=
  err <- createTables ;;
  handleError err ;;
  match err with
  | Some _ => ret (Some tt)
  | None => main_loop fuel
  end.

End Console.

(** What a turn of [main] prints first: the menu, line by line. *)
Definition menu_lines : list string := map (fun s => s +++ newline) menu.

(** What [handleError] prints for the error [e]. *)
Definition complaint {E} `{GoError E} (e : E) : string :=
  ("Произошла ошибка:" +++ " " +++ Error e) +++ newline.

(** The world once [s] is printed, and the world of a turn of [main]
    once the menu and the prompt are printed and a line is read. *)
Definition said (s : string) (w : World) : World :=
  mk_world (store w) (wire w) (entropy w) (stdin w) (stdout w ++ [s]).

Definition asked (w : World) : World :=
  mk_world (store w) (wire w) (entropy w) (tl (stdin w))
    (stdout w ++ menu_lines ++ [choice_prompt]).

(** Stand-ins for the libraries of the console, to run it on examples: a
    reader of floats that refuses every text, and empty texts for the
    salary and for the errors of the libraries. *)
Definition no_float (s : string) : float64 * option strconv.NumError :=
  (float64_zero, Some (strconv.syntaxError "ParseFloat" s)).

Definition no_text {A} (x : A) : string := EmptyString.

(** The world of a fresh store with the lines [l] typed in. *)
Definition typed (l : list string) : World :=
  mk_world pg.empty [] 0 (map (fun s => s +++ newline) l) [].

(** A text without white space of ASCII at its ends: it is empty, or
    neither its first byte nor its last is a space, a tab, a line feed,
    a vertical tab, a form feed or a carriage return. *)
Definition trimmed (s : string) : Prop :=
  match s with
  | EmptyString => True
  | String c t =>
    strings.asciiSpace (byte c) = false /\
    strings.asciiSpace (byte (last_byte t c)) = false
  end.

(** The first byte is no white space of ASCII. *)
Definition clean_start (s : string) : Prop :=
  match s with
  | EmptyString => True
  | String c _ => strings.asciiSpace (byte c) = false
  end.

(** The items of a line: not empty, tidy, without a comma. *)
Definition item (s : string) : Prop :=
  s <> EmptyString /\ tidy s = true /\ strings.Count s ","%char = 0%nat.
(* ================================================================= *)
(** * Properties *)

Local Open Scope string_scope.
Local Open Scope list_scope.
Local Open Scope Z_scope.

(** ** Lists and strings *)

Lemma filter_none {A} (f : A -> bool) (l : list A) :
  (forall x, In x l -> f x = false) -> filter f l = [].
Proof.
  induction l as [|a l IH]; intros H; simpl; [reflexivity|].
  rewrite (H a (or_introl eq_refl)). apply IH. intros x Hx. apply H. now right.
Qed.

Lemma existsb_none {A} (f : A -> bool) (l : list A) :
  (forall x, In x l -> f x = false) -> existsb f l = false.
Proof.
  induction l as [|a l IH]; intros H; simpl; [reflexivity|].
  rewrite (H a (or_introl eq_refl)). apply IH. intros x Hx. apply H. now right.
Qed.

Lemma eqb_empty_false (s : string) : s <> "" -> String.eqb s "" = false.
Proof. intros H. now apply String.eqb_neq. Qed.

(** Running a function of the program: the operations of the monad and
    of database/sql are unfolded and the fields of the world projected. *)
Ltac go_world := cbn [store wire entropy stdin stdout].
Ltac go_run :=
  unfold sql.QueryRow_Scan, sql.Query, sql.Prepare, sql.Exec, sql.Close,
    draw, bind, send, run, ret;
  go_world.

(** ** Accounts *)

Section Accounts.

Variable generate : string -> Z -> nat -> string * option error.
Variable compare : string -> string -> option error.

(** The contract of bcrypt: a hash generated from a password compares
    equal to that password. *)
Hypothesis bcrypt_sound :
  forall password cost seed hash,
    generate password cost seed = (hash, None) ->
    compare hash password = None.

(** C8.  When the user name or the password is empty, [registerUser]
    returns the validation error and leaves the world as it was: nothing
    is sent to the store, no hash is computed, the users table is
    unchanged. *)
Theorem registerUser_empty_input :
  forall (username password : string) (w : World),
    username = "" \/ password = "" ->
    exists err w',
      registerUser generate username password w = (Some err, w') /\
      kind_of err = ValidationError /\
      wire w' = wire w /\ entropy w' = entropy w /\
      pg.users (store w') = pg.users (store w) /\ w' = w.
Proof.
  intros username password w H.
  exists (errors_New MsgEmptyCredentials), w.
  unfold registerUser.
  assert (E : String.eqb username "" || String.eqb password "" = true).
  { destruct H as [-> | ->]; [reflexivity|].
    rewrite String.eqb_refl. apply orb_true_r. }
  rewrite E. repeat split; reflexivity.
Qed.

Lemma rows_named_none username st :
  (forall r, In r (pg.users st) -> pg.users_username r <> username) ->
  rows_named username st = [].
Proof.
  intros H. apply filter_none. intros r Hr. apply String.eqb_neq. now apply H.
Qed.

(** What [registerUser] does once the input is not empty and the probe
    has found no row: hash, prepare, insert. *)
Lemma registerUser_fresh :
  forall username password w hash,
    username <> "" -> password <> "" ->
    (forall r, In r (pg.users (store w)) -> pg.users_username r <> username) ->
    Forall (fun r => pg.users_id r < pg.users_id_seq (store w)) (pg.users (store w)) ->
    generate password bcrypt_DefaultCost (entropy w) = (hash, None) ->
    let st := store w in
    let id := pg.users_id_seq st in
    registerUser generate username password w =
      (None,
       mk_world
         (pg.mk_store (pg.users st ++ [pg.mk_user id username hash "user"]) (id + 1)
            (pg.companies st) (pg.companies_id_seq st)
            (pg.candidates st) (pg.candidates_id_seq st)
            (pg.job_openings st) (pg.job_openings_id_seq st))
         (wire w ++ [Query pg.SelectUserExists [pg.AString username];
                     Prepare pg.InsertUser;
                     Exec pg.InsertUser [pg.AString username; pg.AString hash];
                     Close pg.InsertUser])
         (S (entropy w)) (stdin w) (stdout w)).
Proof.
  intros username password w hash Hu Hp Hfresh Hkeys Hgen st id.
  unfold registerUser.
  rewrite (eqb_empty_false _ Hu), (eqb_empty_false _ Hp). cbn [orb].
  unfold sql.QueryRow_Scan, sql.Query, bind, send, run, ret. cbn [store wire entropy stdin stdout].
  cbn [pg.execute].
  fold (rows_named username (store w)). rewrite (rows_named_none _ _ Hfresh).
  cbn [map is_ErrNoRows negb].
  unfold hashPassword, draw, bind, ret. cbn [store wire entropy stdin stdout].
  rewrite Hgen.
  unfold sql.Prepare, sql.Exec, sql.Close, bind, send, run, ret.
  cbn [store wire entropy stdin stdout pg.execute].
  assert (E1 : existsb (fun r => Z.eqb (pg.users_id r) (pg.users_id_seq (store w)))
                 (pg.users (store w)) = false).
  { apply existsb_none. intros r Hr. rewrite Forall_forall in Hkeys.
    specialize (Hkeys r Hr). apply Z.eqb_neq. lia. }
  assert (E2 : existsb (fun r => String.eqb (pg.users_username r) username)
                 (pg.users (store w)) = false).
  { apply existsb_none. intros r Hr. apply String.eqb_neq. now apply Hfresh. }
  rewrite E1, E2. cbn [orb]. go_world.
  subst st id. repeat rewrite <- app_assoc. reflexivity.
Qed.


Lemma rows_named_some username st :
  (exists r, In r (pg.users st) /\ pg.users_username r = username) ->
  exists r rest,
    rows_named username st = r :: rest /\
    In r (pg.users st) /\ pg.users_username r = username.
Proof.
  intros [r [Hin Hname]].
  unfold rows_named.
  destruct (filter (fun r0 => String.eqb (pg.users_username r0) username) (pg.users st))
    as [|r0 rest] eqn:E.
  - assert (Hf : In r (filter (fun r0 => String.eqb (pg.users_username r0) username)
                         (pg.users st))).
    { apply filter_In. split; [exact Hin|]. now apply String.eqb_eq. }
    rewrite E in Hf. destruct Hf.
  - exists r0, rest. split; [reflexivity|].
    assert (Hf : In r0 (filter (fun r1 => String.eqb (pg.users_username r1) username)
                          (pg.users st))) by (rewrite E; now left).
    apply filter_In in Hf. destruct Hf as [H1 H2]. split; [exact H1|].
    now apply String.eqb_eq.
Qed.


(** A registration that succeeded had a user name that is not empty and
    left a row of that name. *)
Lemma registerUser_success :
  forall username password w w1,
    registerUser generate username password w = (None, w1) ->
    username <> "" /\
    exists r, In r (pg.users (store w1)) /\ pg.users_username r = username.
Proof.
  intros username password w w1.
  unfold registerUser.
  destruct (String.eqb username "") eqn:Eu; [discriminate|].
  destruct (String.eqb password "") eqn:Ep; [discriminate|].
  cbn [orb]. intros H. split; [now apply String.eqb_neq|].
  revert H. go_run. cbn [pg.execute].
  fold (rows_named username (store w)).
  destruct (rows_named username (store w)) as [|r0 rest];
    cbn [map sql.scan_int is_ErrNoRows negb Z.eqb Pos.eqb]; [|discriminate].
  unfold hashPassword. go_run.
  destruct (generate password bcrypt_DefaultCost (entropy w)) as [h [e|]];
    [discriminate|].
  go_run. cbn [pg.execute].
  match goal with |- context [if ?c then _ else _] => destruct c end;
    go_world; [discriminate|].
  intros H. injection H as <-. cbn [store pg.users].
  exists (pg.mk_user (pg.users_id_seq (store w)) username h "user").
  split; [|reflexivity]. apply in_or_app. right. now left.
Qed.

(** C4, as the code has it.  After a successful [registerUser], a second
    call with the same user name and a password that is not empty returns
    the error of a duplicate user.  The only request sent is the
    existence probe: no hash is computed, no statement is prepared or
    executed, and the store is unchanged. *)
Theorem registerUser_twice :
  forall (username password password2 : string) (w w1 : World),
    registerUser generate username password w = (None, w1) ->
    password2 <> "" ->
    exists w2,
      registerUser generate username password2 w1 =
        (Some (errors_New MsgUserExists), w2) /\
      kind_of (errors_New MsgUserExists) = DuplicateUserError /\
      store w2 = store w1 /\
      wire w2 = wire w1 ++ [Query pg.SelectUserExists [pg.AString username]] /\
      entropy w2 = entropy w1.
Proof.
  intros username password password2 w w1 H1 Hp2.
  destruct (registerUser_success _ _ _ _ H1) as [Hu Hex].
  destruct (rows_named_some _ _ Hex) as [r [rest [E _]]].
  eexists. unfold registerUser.
  rewrite (eqb_empty_false _ Hu), (eqb_empty_false _ Hp2). cbn [orb].
  go_run. cbn [pg.execute].
  fold (rows_named username (store w1)). rewrite E.
  cbn [map sql.scan_int Z.eqb Pos.eqb]. repeat split.
Qed.

End Accounts.

(** Witness of C8: an empty password. *)
Lemma registerUser_empty_input_witness :
  exists err w',
    registerUser plainhash.GenerateFromPassword "alice" "" initial_world = (Some err, w') /\
    kind_of err = ValidationError /\
    wire w' = wire initial_world /\ entropy w' = entropy initial_world /\
    pg.users (store w') = pg.users (store initial_world) /\ w' = initial_world.
Proof.
  apply (registerUser_empty_input plainhash.GenerateFromPassword "alice" "" initial_world).
  right. reflexivity.
Defined.

Lemma plainhash_sound :
  forall password cost seed hash,
    plainhash.GenerateFromPassword password cost seed = (hash, None) ->
    plainhash.CompareHashAndPassword hash password = None.
Proof.
  intros password cost seed hash. unfold plainhash.GenerateFromPassword.
  destruct (72 <? String.length password)%nat; [discriminate|].
  intros H. injection H as <-. unfold plainhash.CompareHashAndPassword.
  now rewrite String.eqb_refl.
Qed.



(** Witness of C4: alice registers twice. *)
Lemma registerUser_twice_witness :
  exists w2,
    registerUser plainhash.GenerateFromPassword "alice" "other" alice_world =
      (Some (errors_New MsgUserExists), w2) /\
    kind_of (errors_New MsgUserExists) = DuplicateUserError /\
    store w2 = store alice_world /\
    wire w2 = wire alice_world ++ [Query pg.SelectUserExists [pg.AString "alice"]] /\
    entropy w2 = entropy alice_world.
Proof.
  apply (registerUser_twice plainhash.GenerateFromPassword
           "alice" "secret1" "other" initial_world alice_world).
  - reflexivity.
  - discriminate.
Defined.

(** C4 as stated fails for the empty password: the second call stops at
    the check of the input, with the validation error, before the
    probe. *)
Lemma registerUser_twice_empty_password :
  registerUser plainhash.GenerateFromPassword "alice" "secret1" initial_world =
    (None, alice_world) /\
  registerUser plainhash.GenerateFromPassword "alice" "" alice_world =
    (Some (errors_New MsgEmptyCredentials), alice_world) /\
  kind_of (errors_New MsgEmptyCredentials) <> DuplicateUserError.
Proof.
  split; [reflexivity|]. split; [reflexivity|]. discriminate.
Qed.

(** ** Job openings: the checks of the input and the foreign key *)

(** C10.  For a job opening whose company key is zero or negative,
    [addJobOpening] returns the validation error, the one it returns for
    an empty title or a salary that is not positive, and the world is
    unchanged: nothing is sent to the store. *)
Theorem addJobOpening_nonpositive_company :
  forall (jobOpening : JobOpening) (w : World),
    JobOpening_CompanyID jobOpening <= 0 ->
    addJobOpening jobOpening w = (Some (errors_New MsgJobFields), w) /\
    kind_of (errors_New MsgJobFields) = ValidationError /\
    (forall other : JobOpening,
        JobOpening_Title other = "" \/
        SFleb (JobOpening_Salary other) float64_zero = true ->
        addJobOpening other w = (Some (errors_New MsgJobFields), w)).
Proof.
  intros jobOpening w H. unfold addJobOpening. repeat split.
  - apply Z.leb_le in H. rewrite H. now rewrite orb_true_r.
  - intros other [-> | ->]; [reflexivity|]. now rewrite orb_true_r.
Qed.

(** Witness of C10: the company key 0. *)
Lemma addJobOpening_nonpositive_company_witness :
  let jobOpening := mk_JobOpening 0 0 "Engineer" "" (S754_finite false 1000 0) (Some ["go"]) in
  addJobOpening jobOpening initial_world = (Some (errors_New MsgJobFields), initial_world) /\
  kind_of (errors_New MsgJobFields) = ValidationError /\
  (forall other : JobOpening,
      JobOpening_Title other = "" \/
      SFleb (JobOpening_Salary other) float64_zero = true ->
      addJobOpening other initial_world = (Some (errors_New MsgJobFields), initial_world)).
Proof.
  apply (addJobOpening_nonpositive_company
           (mk_JobOpening 0 0 "Engineer" "" (S754_finite false 1000 0) (Some ["go"]))
           initial_world).
  simpl. lia.
Defined.




(** ** The skill queries: what is sent *)

(** C5.  Both skill queries send one request with one parameter: the
    text made of a bracket and a quote, the bytes of the skill as they
    are, and a quote and a bracket.  The skill is concatenated into the
    text of a JSON array; it is not a parameter of its own and nothing
    in it is escaped. *)
Theorem skill_queries_concatenate :
  forall (skill : string) (w : World),
    let fragment := String "[" (String dquote (skill +++ String dquote "]")) in
    (exists rest,
       wire (snd (findCandidatesBySkill skill w)) =
         wire w ++ Query pg.SelectCandidatesBySkill [pg.AString fragment] :: rest /\
       (rest = [] \/ rest = [Close pg.SelectCandidatesBySkill])) /\
    (exists rest,
       wire (snd (findJobOpeningsBySkill skill w)) =
         wire w ++ Query pg.SelectJobOpeningsBySkill [pg.AString fragment] :: rest /\
       (rest = [] \/ rest = [Close pg.SelectJobOpeningsBySkill])).
Proof.
  intros skill w fragment. subst fragment. split.
  - unfold findCandidatesBySkill. go_run. cbn [String.append str1 pg.execute].
    destruct (jsonb.jsonb_in _) as [t|e]; go_world.
    + destruct (candidates_loop _ _) as [cs|e]; unfold sql.Rows_Err; go_world;
        (exists [Close pg.SelectCandidatesBySkill]; rewrite <- app_assoc; split;
         [reflexivity | now right]).
    + exists []. split; [reflexivity | now left].
  - unfold findJobOpeningsBySkill. go_run. cbn [String.append str1 pg.execute].
    destruct (jsonb.jsonb_in _) as [t|e]; go_world.
    + destruct (job_openings_loop _ _) as [cs|e]; unfold sql.Rows_Err; go_world;
        (exists [Close pg.SelectJobOpeningsBySkill]; rewrite <- app_assoc; split;
         [reflexivity | now right]).
    + exists []. split; [reflexivity | now left].
Qed.

(** ** The console: a list of skills *)

Lemma append_empty_r (s : string) : s +++ "" = s.
Proof. induction s as [|c s IH]; simpl; [reflexivity | now rewrite IH]. Qed.

Lemma append_assoc (a b c : string) : (a +++ b) +++ c = a +++ (b +++ c).
Proof. induction a as [|x a IH]; simpl; [reflexivity | now rewrite IH]. Qed.

Lemma take_drop (n : nat) (s : string) : take n s +++ drop n s = s.
Proof.
  revert s. induction n as [|n IH]; intros [|c s]; simpl; try reflexivity.
  now rewrite IH.
Qed.

Lemma Count_le_length (s : string) (c : ascii) : (strings.Count s c <= String.length s)%nat.
Proof.
  induction s as [|a s IH]; simpl; [lia|]. destruct (Ascii.eqb a c); lia.
Qed.

(** [IndexByte] finds the first occurrence, if there is one. *)
Lemma IndexByte_spec (s : string) (c : ascii) :
  (strings.IndexByte s c = -1 /\ strings.Count s c = 0%nat) \/
  (exists m : nat,
      strings.IndexByte s c = Z.of_nat m /\
      s = take m s +++ String c (drop (m + 1) s) /\
      strings.Count (take m s) c = 0%nat /\
      strings.Count s c = S (strings.Count (drop (m + 1) s) c)).
Proof.
  induction s as [|a s IH]; [left; split; reflexivity|].
  cbn [strings.IndexByte strings.Count].
  destruct (Ascii.eqb a c) eqn:E.
  - right. exists 0%nat. apply Ascii.eqb_eq in E. subst a. repeat split.
  - destruct IH as [[Hi Hc] | [m [Hi [Hs [Ht Hc]]]]].
    + left. rewrite Hi. split; [reflexivity | exact Hc].
    + right. exists (S m). rewrite Hi.
      assert (Hm : (Z.of_nat m <? 0) = false) by (apply Z.ltb_ge; lia).
      rewrite Hm. repeat split.
      * lia.
      * cbn [take drop Nat.add String.append]. now rewrite <- Hs.
      * cbn [take strings.Count]. now rewrite E.
      * exact Hc.
Qed.

(** The loop of [genSplit], run as many times as the separator occurs,
    cuts the string at every separator. *)
Lemma genSplit_loop_spec (c : ascii) :
  forall (k : nat) (s : string),
    strings.Count s c = k ->
    String.concat (str1 c) (strings.genSplit_loop k s c) = s /\
    Forall (fun p => strings.Count p c = 0%nat) (strings.genSplit_loop k s c) /\
    List.length (strings.genSplit_loop k s c) = S k.
Proof.
  induction k as [|k IH]; intros s Hk.
  - cbn. repeat split. constructor; [exact Hk | constructor].
  - cbn [strings.genSplit_loop].
    destruct (IndexByte_spec s c) as [[_ Hc] | [m [Hi [Hs [Ht Hc]]]]]; [congruence|].
    rewrite Hi.
    assert (Hm : (Z.of_nat m <? 0) = false) by (apply Z.ltb_ge; lia).
    rewrite Hm, Nat2Z.id.
    assert (Hk' : strings.Count (drop (m + 1) s) c = k) by congruence.
    destruct (IH _ Hk') as [Hcat [Hall Hlen]].
    repeat split.
    + cbn [String.concat].
      destruct (strings.genSplit_loop k (drop (m + 1) s) c) as [|p ps] eqn:E;
        [discriminate|].
      rewrite Hcat. unfold str1. cbn [String.append]. symmetry. exact Hs.
    + constructor; assumption.
    + cbn [List.length]. now rewrite Hlen.
Qed.

(** [strings.Split(s, sep)] for a separator of one byte: the pieces,
    joined by the separator, give [s] back; no piece holds the
    separator; there is one piece more than separators. *)
Lemma Split_spec (s : string) (c : ascii) :
  String.concat (str1 c) (strings.Split s c) = s /\
  Forall (fun p => strings.Count p c = 0%nat) (strings.Split s c) /\
  List.length (strings.Split s c) = S (strings.Count s c).
Proof.
  unfold strings.Split.
  pose proof (Count_le_length s c).
  replace (Nat.min (strings.Count s c + 1) (String.length s + 1) - 1)%nat
    with (strings.Count s c) by lia.
  now apply genSplit_loop_spec.
Qed.

Lemma rev_append_spec (s acc : string) :
  rev_append s acc = rev_append s "" +++ acc.
Proof.
  revert acc. induction s as [|c s IH]; intros acc; simpl; [reflexivity|].
  rewrite IH. rewrite (IH (String c "")). now rewrite append_assoc.
Qed.

Lemma rev_cons (c : ascii) (s : string) : rev (String c s) = rev s +++ str1 c.
Proof. unfold rev. simpl. apply rev_append_spec. Qed.

Lemma rev_app (a b : string) : rev (a +++ b) = rev b +++ rev a.
Proof.
  induction a as [|c a IH]; simpl.
  - now rewrite append_empty_r.
  - rewrite !rev_cons, IH. now rewrite append_assoc.
Qed.

Lemma rev_involutive (s : string) : rev (rev s) = s.
Proof.
  induction s as [|c s IH]; [reflexivity|].
  rewrite rev_cons, rev_app, IH. reflexivity.
Qed.

Lemma part_of_refl s : part_of s s.
Proof. exists "", "". simpl. now rewrite append_empty_r. Qed.

Lemma part_of_empty s : part_of "" s.
Proof. exists "", s. reflexivity. Qed.

Lemma part_of_trans a b c : part_of a b -> part_of b c -> part_of a c.
Proof.
  intros [p1 [q1 H1]] [p2 [q2 H2]]. exists (p2 +++ p1), (q1 +++ q2).
  subst. now rewrite !append_assoc.
Qed.

Lemma part_of_take n s : part_of (take n s) s.
Proof. exists "", (drop n s). simpl. now rewrite take_drop. Qed.

Lemma part_of_drop n s : part_of (drop n s) s.
Proof. exists (take n s), "". now rewrite append_empty_r, take_drop. Qed.

Lemma part_of_cons c t s : part_of t s -> part_of t (String c s).
Proof. intros [p [q H]]. exists (String c p), q. subst. reflexivity. Qed.

Lemma part_of_snoc c t s : part_of t s -> part_of t (s +++ str1 c).
Proof.
  intros [p [q H]]. exists p, (q +++ str1 c). subst. now rewrite !append_assoc.
Qed.

Lemma TrimLeftFunc_loop_part fuel s : part_of (strings.TrimLeftFunc_loop fuel s) s.
Proof.
  revert s. induction fuel as [|fuel IH]; intros s; simpl; [apply part_of_empty|].
  destruct s as [|c s]; [apply part_of_empty|].
  destruct (utf8.DecodeRuneInString (String c s)) as [r size].
  destruct (unicode.IsSpace r); [|apply part_of_refl].
  eapply part_of_trans; [apply IH | apply part_of_drop].
Qed.

Lemma TrimRightFunc_part s : part_of (strings.TrimRightFunc s) s.
Proof.
  unfold strings.TrimRightFunc.
  destruct (strings.lastIndexFunc_loop _ _) as [r'|]; [|apply part_of_empty].
  destruct (drop (String.length r') s) as [|c t] eqn:E; [apply part_of_take|].
  destruct (utf8.RuneSelf <=? byte c); [|apply part_of_take].
  destruct (utf8.DecodeRuneInString _). apply part_of_take.
Qed.

Lemma TrimSpace_stop_part r : part_of (strings.TrimSpace_stop r) (rev r).
Proof.
  induction r as [|c r IH]; [apply part_of_refl|].
  cbn [strings.TrimSpace_stop].
  destruct (utf8.RuneSelf <=? byte c); [apply TrimRightFunc_part|].
  destruct (strings.asciiSpace (byte c)); [|apply part_of_refl].
  rewrite rev_cons. now apply part_of_snoc.
Qed.

(** [strings.TrimSpace] cuts a prefix and a suffix off. *)
Lemma TrimSpace_part s : part_of (strings.TrimSpace s) s.
Proof.
  induction s as [|c s IH]; [apply part_of_refl|].
  cbn [strings.TrimSpace].
  destruct (utf8.RuneSelf <=? byte c).
  - unfold strings.TrimFunc, strings.TrimLeftFunc.
    eapply part_of_trans; [apply TrimRightFunc_part | apply TrimLeftFunc_loop_part].
  - destruct (strings.asciiSpace (byte c)).
    + now apply part_of_cons.
    + pose proof (TrimSpace_stop_part (rev (String c s))) as H.
      now rewrite rev_involutive in H.
Qed.

Lemma TrimSpace_parts (l : list string) :
  Forall2 part_of (map strings.TrimSpace l) l.
Proof.
  induction l as [|p ps IH]; constructor; [apply TrimSpace_part | exact IH].
Qed.

(** C9.  [getStringArrayInput] returns no error.  With [line] the next
    line of the input trimmed, it returns the empty list when [line] is
    empty, and otherwise the pieces of [line] between its commas, each
    trimmed; a line that is one comma gives two empty skills. *)
Theorem getStringArrayInput_total :
  forall (prompt : string) (w : World),
    let line := strings.TrimSpace (hd "" (stdin w)) in
    exists skills w',
      getStringArrayInput prompt w = ((Some skills, None), w') /\
      store w' = store w /\
      (line = "" -> skills = []) /\
      (line <> "" ->
       exists pieces,
         skills = map strings.TrimSpace pieces /\
         String.concat "," pieces = line /\
         Forall (fun p => strings.Count p "," = 0%nat) pieces /\
         List.length pieces = S (strings.Count line ",") /\
         Forall2 part_of skills pieces) /\
      (hd "" (stdin w) = "," -> skills = [""; ""]).
Proof.
  intros prompt w line.
  assert (E : exists w', getInput prompt w = (line, w') /\ store w' = store w).
  { unfold getInput, fmt_Print, ReadString, bind, ret. go_world.
    subst line. destruct (stdin w) as [|l rest]; eexists; split; reflexivity. }
  destruct E as [w' [E Hst]].
  unfold getStringArrayInput, bind. rewrite E.
  destruct (String.eqb line "") eqn:El.
  - exists [], w'. apply String.eqb_eq in El. repeat split; try assumption.
    + intros H. contradiction.
    + intros H. subst line. rewrite H in El. discriminate.
  - exists (map strings.TrimSpace (strings.Split line ",")), w'.
    apply String.eqb_neq in El. repeat split; try assumption.
    + intros H. contradiction.
    + intros _. exists (strings.Split line ",").
      destruct (Split_spec line ",") as [H1 [H2 H3]].
      repeat split; try assumption. apply TrimSpace_parts.
    + intros H. subst line. rewrite H. reflexivity.
Qed.

(** ** Bytes and runes *)

Lemma byte_range (c : ascii) : 0 <= byte c < 256.
Proof.
  unfold byte. pose proof (N_ascii_bounded c) as H. lia.
Qed.

Lemma chr_byte (c : ascii) : chr (byte c) = c.
Proof. unfold chr, byte. rewrite N2Z.id. apply ascii_N_embedding. Qed.

Lemma byte_chr (z : Z) : 0 <= z < 256 -> byte (chr z) = z.
Proof.
  intros H. unfold chr, byte. rewrite N_ascii_embedding; lia.
Qed.

Lemma byte_inj (a b : ascii) : byte a = byte b -> a = b.
Proof. intros H. rewrite <- (chr_byte a), <- (chr_byte b). now rewrite H. Qed.

(** Bit operations on the ranges at hand, as arithmetic. *)
Lemma land_shifted_low (hi lo k : Z) :
  0 <= k -> 0 <= lo < 2 ^ k -> Z.land (Z.shiftl hi k) lo = 0.
Proof.
  intros Hk Hlo. apply Z.bits_inj'. intros n Hn.
  rewrite Z.land_spec, Z.bits_0.
  destruct (Z.lt_ge_cases n k) as [Hlt|Hge].
  - rewrite Z.shiftl_spec_low by lia. reflexivity.
  - destruct (Z.eq_dec lo 0) as [->|Hnz].
    + rewrite Z.bits_0. apply andb_false_r.
    + rewrite (Z.bits_above_log2 lo n); [apply andb_false_r | lia |].
      apply Z.lt_le_trans with k; [|exact Hge].
      apply Z.log2_lt_pow2; lia.
Qed.

Lemma lor_high_low (hi lo k : Z) :
  0 <= k -> 0 <= lo < 2 ^ k -> Z.lor (Z.shiftl hi k) lo = hi * 2 ^ k + lo.
Proof.
  intros Hk Hlo.
  pose proof (land_shifted_low hi lo k Hk Hlo) as H0.
  rewrite <- Z.lxor_lor by exact H0.
  rewrite <- Z.add_nocarry_lxor by exact H0.
  now rewrite Z.shiftl_mul_pow2.
Qed.

Lemma lor_disjoint (x lo k : Z) :
  0 <= k -> x mod 2 ^ k = 0 -> 0 <= lo < 2 ^ k -> Z.lor x lo = x + lo.
Proof.
  intros Hk Hx Hlo.
  assert (E : x = Z.shiftl (x / 2 ^ k) k).
  { rewrite Z.shiftl_mul_pow2 by lia.
    pose proof (Z.div_mod x (2 ^ k)) as H. lia. }
  rewrite E at 1. rewrite lor_high_low by assumption.
  pose proof (Z.div_mod x (2 ^ k)) as H. lia.
Qed.

(** The bit operations of the decoder and of the encoders, turned into
    arithmetic: masks are remainders, shifts are products and quotients,
    and an or of disjoint bits is a sum. *)
Ltac masks :=
  change utf8.maskx with (Z.ones 6) in *;
  change utf8.mask2 with (Z.ones 5) in *;
  change utf8.mask3 with (Z.ones 4) in *;
  change utf8.mask4 with (Z.ones 3) in *;
  change 0x3F with (Z.ones 6) in *;
  change 0x1F with (Z.ones 5) in *;
  change 0x0F with (Z.ones 4) in *;
  change 0x07 with (Z.ones 3) in *;
  rewrite ?Z.land_ones, ?Z.shiftl_mul_pow2, ?Z.shiftr_div_pow2 in * by lia;
  change (2 ^ 3) with 8 in *; change (2 ^ 4) with 16 in *;
  change (2 ^ 5) with 32 in *; change (2 ^ 6) with 64 in *;
  change (2 ^ 12) with 4096 in *; change (2 ^ 18) with 262144 in *.

Lemma rune2 b0 b1 : 0xC2 <= b0 <= 0xDF -> 0x80 <= b1 <= 0xBF ->
  Z.lor (Z.shiftl (Z.land b0 utf8.mask2) 6) (Z.land b1 utf8.maskx)
  = (b0 - 0xC0) * 64 + (b1 - 0x80).
Proof.
  intros H0 H1. masks.
  rewrite (lor_disjoint _ _ 6); change (2 ^ 6) with 64;
    try (Z.div_mod_to_equations; lia).
Qed.

Lemma rune3 b0 b1 b2 : 0xE0 <= b0 <= 0xEF -> 0x80 <= b1 <= 0xBF -> 0x80 <= b2 <= 0xBF ->
  Z.lor (Z.lor (Z.shiftl (Z.land b0 utf8.mask3) 12) (Z.shiftl (Z.land b1 utf8.maskx) 6))
        (Z.land b2 utf8.maskx)
  = (b0 - 0xE0) * 4096 + (b1 - 0x80) * 64 + (b2 - 0x80).
Proof.
  intros H0 H1 H2. masks.
  rewrite (lor_disjoint _ (b1 mod 64 * 64) 12); change (2 ^ 12) with 4096;
    try (Z.div_mod_to_equations; lia).
  rewrite (lor_disjoint _ _ 6); change (2 ^ 6) with 64;
    try (Z.div_mod_to_equations; lia).
Qed.

Lemma rune4 b0 b1 b2 b3 :
  0xF0 <= b0 <= 0xF4 -> 0x80 <= b1 <= 0xBF -> 0x80 <= b2 <= 0xBF -> 0x80 <= b3 <= 0xBF ->
  Z.lor (Z.lor (Z.lor (Z.shiftl (Z.land b0 utf8.mask4) 18)
                      (Z.shiftl (Z.land b1 utf8.maskx) 12))
               (Z.shiftl (Z.land b2 utf8.maskx) 6))
        (Z.land b3 utf8.maskx)
  = (b0 - 0xF0) * 262144 + (b1 - 0x80) * 4096 + (b2 - 0x80) * 64 + (b3 - 0x80).
Proof.
  intros H0 H1 H2 H3. masks.
  rewrite (lor_disjoint _ (b1 mod 64 * 4096) 18); change (2 ^ 18) with 262144;
    try (Z.div_mod_to_equations; lia).
  rewrite (lor_disjoint _ (b2 mod 64 * 64) 12); change (2 ^ 12) with 4096;
    try (Z.div_mod_to_equations; lia).
  rewrite (lor_disjoint _ _ 6); change (2 ^ 6) with 64;
    try (Z.div_mod_to_equations; lia).
Qed.
Lemma first_cases (b : Z) :
  (b < 0x80 /\ utf8.first b = utf8.as_) \/
  (0x80 <= b < 0xC2 /\ utf8.first b = utf8.xx) \/
  (0xC2 <= b <= 0xDF /\ utf8.first b = utf8.s1) \/
  (b = 0xE0 /\ utf8.first b = utf8.s2) \/
  ((0xE1 <= b <= 0xEC \/ 0xEE <= b <= 0xEF) /\ utf8.first b = utf8.s3) \/
  (b = 0xED /\ utf8.first b = utf8.s4) \/
  (b = 0xF0 /\ utf8.first b = utf8.s5) \/
  (0xF1 <= b <= 0xF3 /\ utf8.first b = utf8.s6) \/
  (b = 0xF4 /\ utf8.first b = utf8.s7) \/
  (0xF5 <= b /\ utf8.first b = utf8.xx).
Proof.
  unfold utf8.first.
  repeat match goal with
         | |- context [if ?c then _ else _] => destruct c eqn:?
         end;
  repeat match goal with
         | H : (_ <? _) = true |- _ => apply Z.ltb_lt in H
         | H : (_ <? _) = false |- _ => apply Z.ltb_ge in H
         | H : (_ =? _) = true |- _ => apply Z.eqb_eq in H
         | H : (_ =? _) = false |- _ => apply Z.eqb_neq in H
         end;
  intuition lia.
Qed.

Ltac bools :=
  repeat match goal with
         | H : (_ || _) = false |- _ => apply orb_false_elim in H; destruct H
         | H : (_ && _) = true |- _ => apply andb_prop in H; destruct H
         | H : (_ <? _) = true |- _ => apply Z.ltb_lt in H
         | H : (_ <? _) = false |- _ => apply Z.ltb_ge in H
         | H : (_ <=? _) = true |- _ => apply Z.leb_le in H
         | H : (_ <=? _) = false |- _ => apply Z.leb_gt in H
         | H : (_ =? _) = true |- _ => apply Z.eqb_eq in H
         | H : (_ =? _) = false |- _ => apply Z.eqb_neq in H
         end.

(** The entry of the table [first] for a leading byte, read: the width
    and the bounds of the second byte. *)
Ltac header x sz lo hi :=
  change (utf8.as_ <=? x) with false;
  change (Z.land x 7) with sz;
  change (utf8.acceptRanges (Z.shiftr x 4)) with (lo, hi);
  change (sz <=? 2) with (Z.leb sz 2); change (sz <=? 3) with (Z.leb sz 3);
  cbv beta iota;
  cbn [Z.leb Z.compare Pos.compare Pos.compare_cont].

Ltac invalid :=
  try (intros Hdec; apply pair_equal_spec in Hdec; destruct Hdec as [<- <-];
       left; split; [reflexivity | right; split; [lia | reflexivity]]).

Ltac next_byte c t R E :=
  destruct t as [|c t]; invalid;
  pose proof (byte_range c) as R;
  match goal with
  | |- context [if ?b then _ else _] => destruct b eqn:E
  end; invalid; unfold utf8.locb, utf8.hicb in *; bools.

Ltac found :=
  intros Hdec; apply pair_equal_spec in Hdec; destruct Hdec as [<- <-];
  right; cbn [take String.length]; split; [lia | split; [|lia]].

(** What the decoder returns on a string that is not empty: an ASCII
    byte, or the mark of an invalid byte, both of width 1, or the rune
    of the well-formed encoding that the string starts with. *)
Lemma DecodeRune_cases (c0 : ascii) (t : string) (r : Z) (size : nat) :
  utf8.DecodeRuneInString (String c0 t) = (r, size) ->
  (size = 1%nat /\
   ((byte c0 < 0x80 /\ r = byte c0) \/ (0x80 <= byte c0 /\ r = utf8.RuneError))) \/
  (0x80 <= byte c0 /\
   encodes (take size (String c0 t)) r /\ (size <= String.length (String c0 t))%nat).
Proof.
  unfold utf8.DecodeRuneInString.
  pose proof (byte_range c0) as R0.
  destruct (first_cases (byte c0))
    as [[H0 F]|[[H0 F]|[[H0 F]|[[H0 F]|[[H0 F]|[[H0 F]|[[H0 F]|[[H0 F]|[[H0 F]|[H0 F]]]]]]]]]];
    rewrite F.
  - change (utf8.as_ <=? utf8.as_) with true. cbv beta iota.
    change (Z.odd utf8.as_) with false. cbv iota.
    intros Hdec; apply pair_equal_spec in Hdec; destruct Hdec as [<- <-].
    left. split; [reflexivity|]. left. split; [lia | reflexivity].
  - change (utf8.as_ <=? utf8.xx) with true. cbv beta iota. invalid.
  - header utf8.s1 2 0x80 0xBF.
    destruct (Z.of_nat _ <? 2); invalid.
    next_byte c1 t R1 E1. found.
    rewrite rune2 by lia. apply encodes2; unfold continuation; lia.
  - header utf8.s2 3 0xA0 0xBF.
    destruct (Z.of_nat _ <? 3); invalid.
    next_byte c1 t R1 E1. next_byte c2 t R2 E2. found.
    rewrite rune3 by lia. apply encodes3; unfold continuation; lia.
  - header utf8.s3 3 0x80 0xBF.
    destruct (Z.of_nat _ <? 3); invalid.
    next_byte c1 t R1 E1. next_byte c2 t R2 E2. found.
    rewrite rune3 by lia. apply encodes3; unfold continuation; lia.
  - header utf8.s4 3 0x80 0x9F.
    destruct (Z.of_nat _ <? 3); invalid.
    next_byte c1 t R1 E1. next_byte c2 t R2 E2. found.
    rewrite rune3 by lia. apply encodes3; unfold continuation; lia.
  - header utf8.s5 4 0x90 0xBF.
    destruct (Z.of_nat _ <? 4); invalid.
    next_byte c1 t R1 E1. next_byte c2 t R2 E2. next_byte c3 t R3 E3. found.
    rewrite rune4 by lia. apply encodes4; unfold continuation; lia.
  - header utf8.s6 4 0x80 0xBF.
    destruct (Z.of_nat _ <? 4); invalid.
    next_byte c1 t R1 E1. next_byte c2 t R2 E2. next_byte c3 t R3 E3. found.
    rewrite rune4 by lia. apply encodes4; unfold continuation; lia.
  - header utf8.s7 4 0x80 0x8F.
    destruct (Z.of_nat _ <? 4); invalid.
    next_byte c1 t R1 E1. next_byte c2 t R2 E2. next_byte c3 t R3 E3. found.
    rewrite rune4 by lia. apply encodes4; unfold continuation; lia.
  - change (utf8.as_ <=? utf8.xx) with true. cbv beta iota. invalid.
Qed.

Ltac in_range :=
  match goal with
  | |- context [if ?b then _ else _] =>
    let E := fresh "E" in
    destruct b eqn:E;
    [ exfalso; unfold utf8.locb, utf8.hicb in *;
      try (apply orb_prop in E; destruct E as [E|E]); bools;
      cbn [String.length] in *; lia
    | clear E ]
  end.

(** The decoder on a well-formed encoding followed by anything: its rune
    and its width. *)
Lemma encodes_DecodeRune (e : string) (r : Z) :
  encodes e r ->
  forall t, utf8.DecodeRuneInString (e +++ t) = (r, String.length e).
Proof.
  intros H t. unfold utf8.DecodeRuneInString.
  destruct H as [c0 c1 H0 H1 | c0 c1 c2 H0 H1 H2 Hlo Hhi
                 | c0 c1 c2 c3 H0 H1 H2 H3 Hlo Hhi];
    unfold continuation in *; cbn [String.append str1 String.length];
    destruct (first_cases (byte c0))
      as [[G F]|[[G F]|[[G F]|[[G F]|[[G F]|[[G F]|[[G F]|[[G F]|[[G F]|[G F]]]]]]]]]];
    try (exfalso; lia); rewrite F.
  - header utf8.s1 2 0x80 0xBF. in_range. in_range.
    now rewrite rune2 by lia.
  - header utf8.s2 3 0xA0 0xBF. in_range. in_range. in_range.
    now rewrite rune3 by lia.
  - header utf8.s3 3 0x80 0xBF. in_range. in_range. in_range.
    now rewrite rune3 by lia.
  - header utf8.s4 3 0x80 0x9F. in_range. in_range. in_range.
    now rewrite rune3 by lia.
  - header utf8.s5 4 0x90 0xBF. in_range. in_range. in_range. in_range.
    now rewrite rune4 by lia.
  - header utf8.s6 4 0x80 0xBF. in_range. in_range. in_range. in_range.
    now rewrite rune4 by lia.
  - header utf8.s7 4 0x80 0x8F. in_range. in_range. in_range. in_range.
    now rewrite rune4 by lia.
Qed.

Lemma encodes_length (e : string) (r : Z) :
  encodes e r -> (2 <= String.length e <= 4)%nat.
Proof. intros []; cbn; lia. Qed.

Lemma encodes_high (e : string) (r : Z) :
  encodes e r -> all_bytes (fun c => 0x80 <=? byte c) e = true.
Proof.
  intros []; unfold continuation in *; cbn [all_bytes str1];
    repeat (apply andb_true_intro; split); try apply Z.leb_le; try lia; reflexivity.
Qed.

Ltac decide_cmp :=
  repeat match goal with
         | |- context [?a <? ?b] =>
           let E := fresh "E" in
           destruct (Z.ltb_spec a b) as [E|E]; try (exfalso; lia)
         | |- context [?a <=? ?b] =>
           let E := fresh "E" in
           destruct (Z.leb_spec a b) as [E|E]; try (exfalso; lia)
         end.

Ltac same_byte k :=
  apply byte_inj; masks;
  rewrite (lor_disjoint _ _ k) by
    (try change (2 ^ 3) with 8; try change (2 ^ 4) with 16; try change (2 ^ 6) with 64;
     try (Z.div_mod_to_equations; lia));
  rewrite byte_chr by (Z.div_mod_to_equations; lia);
  Z.div_mod_to_equations; lia.

(** [utf8.EncodeRune] gives a well-formed encoding back. *)
Lemma encodes_EncodeRune (e : string) (r : Z) :
  encodes e r -> utf8.EncodeRune r = e.
Proof.
  intros [c0 c1 H0 H1 | c0 c1 c2 H0 H1 H2 Hlo Hhi
          | c0 c1 c2 c3 H0 H1 H2 H3 Hlo Hhi];
    unfold continuation in *; unfold utf8.EncodeRune.
  - set (u := (byte c0 - 192) * 64 + (byte c1 - 128)).
    assert (Hu : 0x80 <= u <= 0x7FF) by (subst u; lia).
    decide_cmp. cbn [orb andb]. unfold str1. subst u.
    f_equal; [|f_equal]; same_byte 6%Z.
  - set (u := (byte c0 - 224) * 4096 + (byte c1 - 128) * 64 + (byte c2 - 128)).
    assert (Hu : 0x800 <= u <= 0xFFFF /\ (u < 0xD800 \/ 0xDFFF < u)) by (subst u; lia).
    decide_cmp; cbn [orb andb]; unfold str1; subst u.
    all: f_equal; [|f_equal; [|f_equal]]; [same_byte 4%Z | same_byte 6%Z | same_byte 6%Z].
  - set (u := (byte c0 - 240) * 262144 + (byte c1 - 128) * 4096 +
              (byte c2 - 128) * 64 + (byte c3 - 128)).
    assert (Hu : 0x10000 <= u <= 0x10FFFF) by (subst u; lia).
    decide_cmp; cbn [orb andb]; unfold str1; subst u.
    all: f_equal; [|f_equal; [|f_equal; [|f_equal]]];
      [same_byte 3%Z | same_byte 6%Z | same_byte 6%Z | same_byte 6%Z].
Qed.

Lemma take_app_length (e s : string) : take (String.length e) (e +++ s) = e.
Proof. induction e as [|c e IH]; cbn; [now destruct s | now rewrite IH]. Qed.

Lemma drop_app_length (e s : string) : drop (String.length e) (e +++ s) = s.
Proof. induction e as [|c e IH]; cbn; [reflexivity | exact IH]. Qed.

Lemma length_append (a b : string) :
  String.length (a +++ b) = (String.length a + String.length b)%nat.
Proof. induction a as [|c a IH]; cbn; [reflexivity | now rewrite IH]. Qed.

Lemma length_drop (n : nat) (s : string) :
  String.length (drop n s) = (String.length s - n)%nat.
Proof.
  revert s. induction n as [|n IH]; intros [|c s]; cbn; try reflexivity; try lia.
  apply IH.
Qed.

(** [utf8.ValidString] accepts strings of well-formed encodings only. *)
Lemma ValidString_loop_wellformed (fuel : nat) :
  forall s, utf8.ValidString_loop fuel s = true -> wellformed s.
Proof.
  induction fuel as [|fuel IH]; intros s; cbn [utf8.ValidString_loop].
  - destruct s; [constructor | discriminate].
  - destruct s as [|c t]; [constructor|].
    destruct (byte c <? utf8.RuneSelf) eqn:Ec.
    + intros H. apply wellformed_ascii; [|now apply IH].
      apply Z.ltb_lt in Ec. exact Ec.
    + destruct (utf8.DecodeRuneInString (String c t)) as [r size] eqn:Ed.
      apply Z.ltb_ge in Ec. unfold utf8.RuneSelf in Ec.
      destruct (DecodeRune_cases _ _ _ _ Ed)
        as [[-> [[Hc _]|[_ ->]]] | [_ [He Hl]]]; [lia| |].
      * rewrite Z.eqb_refl. cbn. discriminate.
      * destruct ((r =? utf8.RuneError) && Nat.eqb size 1); [discriminate|].
        intros H. rewrite <- (take_drop size (String c t)).
        eapply wellformed_encoding; [exact He | now apply IH].
Qed.

Lemma ValidString_wellformed (s : string) :
  utf8.ValidString s = true -> wellformed s.
Proof. apply ValidString_loop_wellformed. Qed.

(** ** The encoder read by the store *)

Import jsontext.

Lemma prepend_prepend (a b : string) (r : res (string * string)) :
  prepend a (prepend b r) = prepend (a +++ b) r.
Proof. destruct r as [[s t]| |]; cbn; [now rewrite append_assoc | reflexivity..]. Qed.

(** One ASCII byte as [appendString] writes it, read by the lexer of the
    store: the byte, or the refusal of the byte 0. *)
Lemma lex_string_escape_ascii (c : ascii) (X : string) :
  byte c < 0x80 ->
  jsonb.lex_string_from
    ((if json.htmlSafeSet (byte c) then str1 c else json.escape_byte c) +++ X) None =
  if byte c =? 0 then Fail CodePointZero
  else prepend (str1 c) (jsonb.lex_string_from X None).
Proof.
  destruct c as [[] [] [] [] [] [] [] []]; intros H;
    try (exfalso; vm_compute in H; discriminate); reflexivity.
Qed.

Lemma high_byte_plain (c : ascii) : 0x80 <= byte c -> plain_byte c = true.
Proof.
  intros H. unfold plain_byte.
  assert (Hq : Ascii.eqb c dquote = false).
  { apply Ascii.eqb_neq. intros ->. vm_compute in H. now apply H. }
  assert (Hb : Ascii.eqb c backslash = false).
  { apply Ascii.eqb_neq. intros ->. vm_compute in H. now apply H. }
  rewrite Hq, Hb. cbn [negb andb]. rewrite !andb_true_r. apply Z.leb_le. lia.
Qed.

(** Plain bytes are read as they are. *)
Lemma lex_string_plain (e X : string) :
  plain e = true ->
  jsonb.lex_string_from (e +++ X) None = prepend e (jsonb.lex_string_from X None).
Proof.
  induction e as [|c e IH]; intros H.
  - cbn. now destruct (jsonb.lex_string_from X None) as [[s t]| |].
  - cbn [plain all_bytes] in H. apply andb_prop in H. destruct H as [Hc He].
    unfold plain_byte in Hc. apply andb_prop in Hc. destruct Hc as [Hc Hb].
    apply andb_prop in Hc. destruct Hc as [Hc Hq].
    apply negb_true_iff in Hq, Hb. apply Z.leb_le in Hc.
    cbn [String.append jsonb.lex_string_from]. rewrite Hq, Hb.
    assert (E : (byte c <? 32) = false) by (apply Z.ltb_ge; lia).
    rewrite E, (IH He). apply prepend_prepend.
Qed.

Lemma encodes_plain (e : string) (r : Z) : encodes e r -> plain e = true.
Proof.
  intros []; unfold continuation in *; cbn [plain all_bytes str1];
    rewrite ?high_byte_plain by lia; reflexivity.
Qed.

Lemma encodes_no_nul (e : string) (r : Z) : encodes e r -> no_nul e = true.
Proof.
  intros []; unfold continuation in *; cbn [no_nul all_bytes str1];
    repeat match goal with
           | |- context [byte ?c =? 0] =>
             replace (byte c =? 0) with false by (symmetry; apply Z.eqb_neq; lia)
           end; reflexivity.
Qed.

(** The line and the paragraph separator have one encoding each. *)
Lemma encodes_separator (e : string) (r : Z) :
  encodes e r -> r = 0x2028 \/ r = 0x2029 ->
  e = jsonb.unicode_to_utf8 r.
Proof.
  intros [c0 c1 H0 H1 | c0 c1 c2 H0 H1 H2 Hlo Hhi
          | c0 c1 c2 c3 H0 H1 H2 H3 Hlo Hhi] Hr;
    unfold continuation in *; try (exfalso; lia).
  assert (E0 : c0 = chr 0xE2) by (apply byte_inj; rewrite byte_chr; lia).
  assert (E1 : c1 = chr 0x80) by (apply byte_inj; rewrite byte_chr; lia).
  destruct Hr as [Hr|Hr]; rewrite Hr.
  - assert (E2 : c2 = chr 0xA8) by (apply byte_inj; rewrite byte_chr; lia).
    subst. reflexivity.
  - assert (E2 : c2 = chr 0xA9) by (apply byte_inj; rewrite byte_chr; lia).
    subst. reflexivity.
Qed.

Lemma all_bytes_app (p : ascii -> bool) (a b : string) :
  all_bytes p (a +++ b) = all_bytes p a && all_bytes p b.
Proof.
  induction a as [|c a IH]; cbn; [reflexivity|]. now rewrite IH, andb_assoc.
Qed.

Lemma take_short (n : nat) (e s : string) :
  (String.length e <= n)%nat ->
  take n (e +++ s) = e +++ take (n - String.length e) s.
Proof.
  revert n. induction e as [|c e IH]; intros n H; cbn [String.length String.append].
  - now rewrite Nat.sub_0_r.
  - destruct n as [|n]; [cbn in H; lia|]. cbn [take Nat.sub String.length].
    rewrite IH; [reflexivity | cbn in H; lia].
Qed.

(** The body of a string as [appendString] writes it, read by the lexer
    of the store up to the closing quote: the string itself, unless it
    holds the byte 0, whose escape the store refuses. *)
Lemma lex_string_appendString (s : string) :
  wellformed s ->
  forall (fuel : nat) (X : string),
    (String.length s <= fuel)%nat ->
    jsonb.lex_string_from (json.appendString_loop fuel s +++ String dquote X) None =
    if no_nul s then Ok (s, X) else Fail CodePointZero.
Proof.
  induction 1 as [|c s Hc Hs IH|e r s He Hs IH]; intros fuel X Hf.
  - destruct fuel; reflexivity.
  - destruct fuel as [|fuel]; [cbn in Hf; lia|].
    cbn [json.appendString_loop].
    assert (E : (byte c <? utf8.RuneSelf) = true) by now apply Z.ltb_lt.
    rewrite E, append_assoc, lex_string_escape_ascii by exact Hc.
    cbn [no_nul all_bytes]. fold (no_nul s).
    destruct (byte c =? 0); [reflexivity|]. cbn [negb andb].
    rewrite IH by (cbn in Hf; lia).
    now destruct (no_nul s).
  - pose proof (encodes_length _ _ He) as Hl.
    rewrite length_append in Hf.
    destruct fuel as [|fuel]; [lia|].
    destruct e as [|c e']; [cbn in Hl; lia|].
    cbn [String.append json.appendString_loop].
    assert (Hhigh : 0x80 <= byte c).
    { pose proof (encodes_high _ _ He) as Hh. cbn [all_bytes] in Hh.
      apply andb_prop in Hh. destruct Hh as [Hh _]. now apply Z.leb_le. }
    assert (E : (byte c <? utf8.RuneSelf) = false) by (apply Z.ltb_ge; exact Hhigh).
    rewrite E.
    change (String c (e' +++ s)) with (String c e' +++ s).
    rewrite take_short by (unfold utf8.UTFMax; lia).
    rewrite (encodes_DecodeRune _ _ He).
    assert (E1 : Nat.eqb (String.length (String c e')) 1 = false)
      by (apply Nat.eqb_neq; lia).
    rewrite E1, andb_false_r, drop_app_length, take_app_length.
    unfold no_nul. rewrite all_bytes_app. fold (no_nul (String c e')) (no_nul s).
    rewrite (encodes_no_nul _ _ He). cbn [andb].
    destruct ((r =? 8232) || (r =? 8233)) eqn:Esep.
    + assert (Hr : r = 0x2028 \/ r = 0x2029).
      { apply orb_prop in Esep. destruct Esep as [Er|Er]; apply Z.eqb_eq in Er; auto. }
      rewrite (encodes_separator _ _ He Hr).
      destruct Hr as [-> | ->];
        cbn [String.append jsonb.lex_string_from];
        (rewrite IH by lia); destruct (no_nul s); reflexivity.
    + rewrite append_assoc, lex_string_plain by (eapply encodes_plain; exact He).
      rewrite IH by lia. destruct (no_nul s); reflexivity.
Qed.

Lemma appendString_unfold (x X : string) :
  json.appendString x +++ X =
  String dquote (json.appendString_loop (String.length x) x +++ String dquote X).
Proof. unfold json.appendString. cbn [String.append]. now rewrite append_assoc. Qed.

Lemma parse_elements_S (lex : string -> res (string * string)) (f : nat) (s : string) :
  parse_elements lex (S f) s =
  match parse_value lex f s with
  | Ok (v, r) =>
    match after "," (skip_ws r) with
    | Some r' =>
      match parse_elements lex f r' with
      | Ok (l, r'') => Ok (v :: l, r'')
      | other => other
      end
    | None =>
      match after "]" (skip_ws r) with
      | Some r' => Ok ([v], r')
      | None => Fail Malformed
      end
    end
  | Fail e => Fail e
  | OutOfFuel => OutOfFuel
  end.
Proof. reflexivity. Qed.

Lemma parse_value_string (lex : string -> res (string * string)) (f : nat) (X : string) :
  parse_value lex (S f) (String dquote X) =
  match lex X with
  | Ok (v, r') => Ok (JString v, r')
  | Fail e => Fail e
  | OutOfFuel => OutOfFuel
  end.
Proof. reflexivity. Qed.

Lemma parse_value_array (lex : string -> res (string * string)) (f : nat) (X : string) :
  parse_value lex (S f) (String "[" (String dquote X)) =
  match parse_elements lex f (String dquote X) with
  | Ok (l, r') => Ok (JArray l, r')
  | Fail e => Fail e
  | OutOfFuel => OutOfFuel
  end.
Proof. reflexivity. Qed.

Lemma skip_ws_comma (X : string) : skip_ws ("," +++ X) = String "," X.
Proof. reflexivity. Qed.

Lemma after_same (c : ascii) (X : string) : after c (String c X) = Some X.
Proof. unfold after. now rewrite Ascii.eqb_refl. Qed.

Lemma lex_string_appendString' (s : string) :
  wellformed s ->
  forall (fuel : nat) (X : string),
    (String.length s <= fuel)%nat ->
    jsonb.lex_string (json.appendString_loop fuel s +++ String dquote X) =
    if no_nul s then Ok (s, X) else Fail CodePointZero.
Proof. exact (lex_string_appendString s). Qed.

(** The elements of an array as [json.Marshal] writes them, read by the
    parser of the store up to the closing bracket. *)
Lemma parse_elements_encode (l : list string) :
  l <> [] -> Forall wellformed l ->
  forall (fuel : nat) (tail : string),
    (List.length l < fuel)%nat ->
    parse_elements jsonb.lex_string fuel (json.encode_elements l +++ String "]" tail) =
    if forallb no_nul l then Ok (map JString l, tail) else Fail CodePointZero.
Proof.
  induction l as [|x rest IH]; [congruence|]. intros _ Hwf fuel tail Hf.
  inversion Hwf as [|? ? Hx Hrest]; subst.
  destruct fuel as [|f1]; [cbn [List.length] in Hf; lia|].
  destruct f1 as [|f2] eqn:Ef1; [cbn [List.length] in Hf; lia|].
  rewrite parse_elements_S. cbn [forallb map].
  destruct rest as [|y rest'].
  - cbn [json.encode_elements]. rewrite appendString_unfold, parse_value_string.
    rewrite (lex_string_appendString' _ Hx) by lia.
    destruct (no_nul x); reflexivity.
  - change (json.encode_elements (x :: y :: rest'))
      with (json.appendString x +++ "," +++ json.encode_elements (y :: rest')).
    rewrite append_assoc, appendString_unfold, parse_value_string.
    rewrite (lex_string_appendString' _ Hx) by lia.
    destruct (no_nul x); [|reflexivity].
    rewrite append_assoc.
    rewrite skip_ws_comma, after_same.
    rewrite (IH ltac:(discriminate) Hrest) by (cbn [List.length] in *; lia).
    cbn [andb]. destruct (forallb no_nul (y :: rest')); reflexivity.
Qed.

Lemma encode_elements_length (l : list string) :
  (2 * List.length l <= String.length (json.encode_elements l) + 1)%nat.
Proof.
  induction l as [|x [|y rest] IH].
  - cbn. lia.
  - cbn [json.encode_elements List.length]. unfold json.appendString.
    cbn [String.length]. lia.
  - change (json.encode_elements (x :: y :: rest))
      with (json.appendString x +++ "," +++ json.encode_elements (y :: rest)).
    rewrite !length_append. unfold json.appendString.
    cbn [String.length List.length] in *. lia.
Qed.

(** What the store makes of the document that [json.Marshal] writes for
    a list of well-formed strings: the array of these strings, or the
    refusal of the byte 0. *)
Lemma jsonb_in_Marshal (l : list string) :
  Forall wellformed l ->
  jsonb.jsonb_in (json.Marshal_strings (Some l)) =
  if forallb no_nul l then inl (JArray (map JString l))
  else inr untranslatable_character.
Proof.
  intros Hwf. unfold jsonb.jsonb_in, parse_document, json.Marshal_strings.
  destruct l as [|x rest]; [reflexivity|].
  set (text := "[" +++ json.encode_elements (x :: rest) +++ "]").
  assert (Hlen : (2 * List.length (x :: rest) + 1 <= String.length text)%nat).
  { subst text. cbn [String.append String.length]. rewrite length_append.
    pose proof (encode_elements_length (x :: rest)). cbn [String.length]. lia. }
  destruct (2 * String.length text + 1)%nat as [|fuel] eqn:Ef; [lia|].
  assert (Hq : exists body, json.encode_elements (x :: rest) +++ "]" = String dquote body).
  { destruct rest; cbn [json.encode_elements]; unfold json.appendString;
      cbn [String.append]; eexists; reflexivity. }
  destruct Hq as [body Hq].
  subst text. cbn [String.append]. rewrite Hq, parse_value_array, <- Hq.
  rewrite (parse_elements_encode (x :: rest) ltac:(discriminate) Hwf) by lia.
  destruct (forallb no_nul (x :: rest)); reflexivity.
Qed.

Lemma jsonb_in_Marshal_nil : jsonb.jsonb_in (json.Marshal_strings None) = inl JNull.
Proof. reflexivity. Qed.

(** The text of a skill query for a plain skill is the array of that
    skill. *)
Lemma jsonb_in_fragment (skill : string) :
  plain skill = true ->
  jsonb.jsonb_in (String "[" (String dquote (skill +++ String dquote "]"))) =
  inl (JArray [JString skill]).
Proof.
  intros Hp. unfold jsonb.jsonb_in, parse_document.
  cbn [String.length]. rewrite Nat.mul_comm. cbn [Nat.mul Nat.add].
  rewrite parse_value_array.
  destruct (String.length (skill +++ String dquote "]") * 2)%nat as [|f] eqn:Ef.
  { rewrite length_append in Ef. cbn in Ef. lia. }
  cbn [Nat.add]. rewrite parse_elements_S, parse_value_string.
  unfold jsonb.lex_string. rewrite lex_string_plain by exact Hp.
  change (jsonb.lex_string_from (String dquote "]") None) with (Ok (EmptyString, "]")).
  cbn [prepend]. rewrite append_empty_r. reflexivity.
Qed.

(** ** The store read by the decoder *)

(** One ASCII byte as [escape_json] writes it, read by [unquote]. *)
Lemma unquote_escape_ascii (c : ascii) (f : nat) (X : string) :
  byte c < 0x80 ->
  json.unquote_loop (S f) (jsonb.escape_json_byte c +++ X) =
  prepend (str1 c) (json.unquote_loop f X).
Proof.
  destruct c as [[] [] [] [] [] [] [] []]; intros H;
    try (exfalso; vm_compute in H; discriminate); reflexivity.
Qed.

Lemma escape_json_byte_length (c : ascii) :
  (1 <= String.length (jsonb.escape_json_byte c))%nat.
Proof. destruct c as [[] [] [] [] [] [] [] []]; vm_compute; lia. Qed.

Lemma escape_json_byte_high (c : ascii) :
  0x80 <= byte c -> jsonb.escape_json_byte c = str1 c.
Proof.
  intros H. unfold jsonb.escape_json_byte.
  repeat match goal with
         | |- context [?a =? ?b] =>
           replace (a =? b) with false by (symmetry; apply Z.eqb_neq; lia)
         end.
  replace (byte c <? 32) with false by (symmetry; apply Z.ltb_ge; lia).
  reflexivity.
Qed.

Lemma escape_json_body_app (a b : string) :
  jsonb.escape_json_body (a +++ b) =
  jsonb.escape_json_body a +++ jsonb.escape_json_body b.
Proof.
  induction a as [|c a IH]; cbn [String.append jsonb.escape_json_body];
    [reflexivity|]. now rewrite IH, append_assoc.
Qed.

Lemma escape_json_body_encodes (e : string) (r : Z) :
  encodes e r -> jsonb.escape_json_body e = e.
Proof.
  intros []; unfold continuation in *; cbn [jsonb.escape_json_body str1];
    rewrite !escape_json_byte_high by lia; reflexivity.
Qed.

(** The body of a string as [escape_json] writes it, read by [unquote]
    up to the closing quote: the string itself. *)
Lemma unquote_escape_json (s : string) :
  wellformed s ->
  forall (f : nat) (X : string),
    (String.length (jsonb.escape_json_body s) <= f)%nat ->
    json.unquote_loop (S f) (jsonb.escape_json_body s +++ String dquote X) = Ok (s, X).
Proof.
  induction 1 as [|c s Hc Hs IH|e r s He Hs IH]; intros f X Hf.
  - reflexivity.
  - cbn [jsonb.escape_json_body] in *. rewrite length_append in Hf.
    pose proof (escape_json_byte_length c).
    rewrite append_assoc, unquote_escape_ascii by exact Hc.
    destruct f as [|f]; [lia|].
    rewrite IH by lia. reflexivity.
  - rewrite escape_json_body_app, (escape_json_body_encodes _ _ He) in *.
    rewrite length_append in Hf.
    pose proof (encodes_length _ _ He) as Hl.
    rewrite append_assoc.
    destruct e as [|c e']; [cbn in Hl; lia|].
    assert (Hhigh : 0x80 <= byte c).
    { pose proof (encodes_high _ _ He) as Hh. cbn [all_bytes] in Hh.
      apply andb_prop in Hh. destruct Hh as [Hh _]. now apply Z.leb_le. }
    pose proof (high_byte_plain c Hhigh) as Hp. unfold plain_byte in Hp.
    apply andb_prop in Hp. destruct Hp as [Hp Hb].
    apply andb_prop in Hp. destruct Hp as [_ Hq].
    apply negb_true_iff in Hq, Hb.
    cbn [String.append json.unquote_loop]. rewrite Hq, Hb.
    replace (byte c <? 32) with false by (symmetry; apply Z.ltb_ge; lia).
    replace (byte c <? utf8.RuneSelf) with false
      by (symmetry; apply Z.ltb_ge; unfold utf8.RuneSelf; lia).
    change (String c (e' +++ jsonb.escape_json_body s +++ String dquote X))
      with (String c e' +++ jsonb.escape_json_body s +++ String dquote X).
    rewrite (encodes_DecodeRune _ _ He), (encodes_EncodeRune _ _ He), drop_app_length.
    destruct f as [|f]; [lia|].
    rewrite IH by lia. reflexivity.
Qed.

Lemma escape_json_unfold (x X : string) :
  jsonb.escape_json x +++ X =
  String dquote (jsonb.escape_json_body x +++ String dquote X).
Proof. unfold jsonb.escape_json. cbn [String.append]. now rewrite append_assoc. Qed.

Lemma unquote_escape_json' (x X : string) :
  wellformed x ->
  json.unquote (jsonb.escape_json_body x +++ String dquote X) = Ok (x, X).
Proof.
  intros H. unfold json.unquote. apply unquote_escape_json; [exact H|].
  rewrite length_append. lia.
Qed.

Lemma parse_value_space_string (lex : string -> res (string * string)) (f : nat) (X : string) :
  parse_value lex (S f) (String " " (String dquote X)) =
  match lex X with
  | Ok (v, r') => Ok (JString v, r')
  | Fail e => Fail e
  | OutOfFuel => OutOfFuel
  end.
Proof. reflexivity. Qed.

Lemma skip_ws_comma_space (X : string) : skip_ws (", " +++ X) = String "," (String " " X).
Proof. reflexivity. Qed.

(** The elements of an array of strings as the store writes them, read
    by the parser of the decoder up to the closing bracket; [lead] is the
    space after a comma, or nothing at the first element. *)
Lemma parse_elements_out (l : list string) :
  l <> [] -> Forall wellformed l ->
  forall (fuel : nat) (tail : string),
    (List.length l < fuel)%nat ->
    parse_elements json.unquote fuel (out_strings l +++ String "]" tail) =
      Ok (map JString l, tail) /\
    parse_elements json.unquote fuel (String " " (out_strings l +++ String "]" tail)) =
      Ok (map JString l, tail).
Proof.
  induction l as [|x rest IH]; [congruence|]. intros _ Hwf fuel tail Hf.
  inversion Hwf as [|? ? Hx Hrest]; subst.
  destruct fuel as [|f1]; [cbn [List.length] in Hf; lia|].
  destruct f1 as [|f2] eqn:Ef1; [cbn [List.length] in Hf; lia|].
  rewrite !parse_elements_S. cbn [map].
  destruct rest as [|y rest'].
  - cbn [out_strings]. rewrite escape_json_unfold.
    rewrite parse_value_string, parse_value_space_string.
    rewrite (unquote_escape_json' _ _ Hx). split; reflexivity.
  - change (out_strings (x :: y :: rest'))
      with (jsonb.escape_json x +++ ", " +++ out_strings (y :: rest')).
    rewrite append_assoc, escape_json_unfold.
    rewrite parse_value_string, parse_value_space_string.
    rewrite (unquote_escape_json' _ _ Hx).
    rewrite append_assoc, skip_ws_comma_space, after_same.
    destruct (IH ltac:(discriminate) Hrest (S f2) tail ltac:(cbn [List.length] in *; lia))
      as [_ IH2].
    rewrite IH2. split; reflexivity.
Qed.

Lemma jsonb_out_strings (l : list string) :
  jsonb.jsonb_out (JArray (map JString l)) = "[" +++ out_strings l +++ "]".
Proof.
  cbn [jsonb.jsonb_out]. f_equal. f_equal.
  induction l as [|x l IH]; [reflexivity|].
  destruct l as [|y rest]; [reflexivity|].
  change (out_strings (x :: y :: rest))
    with (jsonb.escape_json x +++ ", " +++ out_strings (y :: rest)).
  rewrite <- IH. reflexivity.
Qed.

Lemma out_strings_length (l : list string) :
  (2 * List.length l <= String.length (out_strings l) + 1)%nat.
Proof.
  induction l as [|x [|y rest] IH].
  - cbn. lia.
  - cbn [out_strings List.length]. unfold jsonb.escape_json.
    cbn [String.length]. lia.
  - change (out_strings (x :: y :: rest))
      with (jsonb.escape_json x +++ ", " +++ out_strings (y :: rest)).
    rewrite !length_append. unfold jsonb.escape_json.
    cbn [String.length List.length] in *. lia.
Qed.

Lemma map_decode_element (l : list string) : map json.decode_element (map JString l) = l.
Proof. induction l as [|x l IH]; cbn; [reflexivity | now rewrite IH]. Qed.

Lemma forallb_element_fits (l : list string) :
  forallb json.element_fits (map JString l) = true.
Proof. induction l as [|x l IH]; cbn; [reflexivity | exact IH]. Qed.

(** Round trip of the reader: the text that the store gives for an array
    of well-formed strings is decoded into these strings. *)
Lemma Unmarshal_jsonb_out (l : list string) :
  Forall wellformed l ->
  json.Unmarshal_strings (jsonb.jsonb_out (JArray (map JString l))) = (Some l, None).
Proof.
  intros Hwf. rewrite jsonb_out_strings. unfold json.Unmarshal_strings, parse_document.
  destruct l as [|x rest]; [reflexivity|].
  set (text := "[" +++ out_strings (x :: rest) +++ "]").
  assert (Hlen : (2 * List.length (x :: rest) + 1 <= String.length text)%nat).
  { subst text. cbn [String.append String.length]. rewrite length_append.
    pose proof (out_strings_length (x :: rest)). cbn [String.length]. lia. }
  destruct (2 * String.length text + 1)%nat as [|fuel] eqn:Ef; [lia|].
  assert (Hq : exists body, out_strings (x :: rest) +++ "]" = String dquote body).
  { destruct rest; cbn [out_strings]; unfold jsonb.escape_json;
      cbn [String.append]; eexists; reflexivity. }
  destruct Hq as [body Hq].
  subst text. cbn [String.append]. rewrite Hq, parse_value_array, <- Hq.
  destruct (parse_elements_out (x :: rest) ltac:(discriminate) Hwf fuel ""
              ltac:(lia)) as [E _].
  rewrite E. cbn [skip_ws].
  now rewrite map_decode_element, forallb_element_fits.
Qed.

(** ** Candidates and job openings: insert and search *)

Lemma scan_candidate_row (r : pg.candidates_row) :
  pg.candidates_experience r <> None ->
  scan_candidate (pg.candidate_columns r) = inl (candidate_of_row r).
Proof.
  intros H. unfold scan_candidate, pg.candidate_columns, candidate_of_row.
  destruct (pg.candidates_experience r) as [e|]; [|congruence].
  destruct (pg.candidates_skills r); reflexivity.
Qed.

Lemma candidates_loop_rows (rs : list pg.candidates_row) :
  Forall (fun r => pg.candidates_experience r <> None) rs ->
  forall acc,
    candidates_loop (map pg.candidate_columns rs) acc =
    inl (match rs with
         | [] => acc
         | _ => Some (elems acc ++ map candidate_of_row rs)
         end).
Proof.
  induction 1 as [|r rs Hr Hrs IH]; intros acc; [reflexivity|].
  cbn [map candidates_loop]. rewrite (scan_candidate_row _ Hr), IH.
  unfold append1. destruct rs; cbn [elems map]; [reflexivity|].
  now rewrite <- app_assoc.
Qed.

Lemma scan_job_opening_row (r : pg.job_openings_row) :
  pg.job_openings_company_id r <> None /\ pg.job_openings_experience r <> None ->
  scan_job_opening (pg.job_opening_columns r) = inl (job_opening_of_row r).
Proof.
  intros [Hc He]. unfold scan_job_opening, pg.job_opening_columns, job_opening_of_row.
  destruct (pg.job_openings_company_id r) as [c|]; [|congruence].
  destruct (pg.job_openings_experience r) as [e|]; [|congruence].
  destruct (pg.job_openings_required_skills r); reflexivity.
Qed.

Lemma job_openings_loop_rows (rs : list pg.job_openings_row) :
  Forall (fun r => pg.job_openings_company_id r <> None /\
                   pg.job_openings_experience r <> None) rs ->
  forall acc,
    job_openings_loop (map pg.job_opening_columns rs) acc =
    inl (match rs with
         | [] => acc
         | _ => Some (elems acc ++ map job_opening_of_row rs)
         end).
Proof.
  induction 1 as [|r rs Hr Hrs IH]; intros acc; [reflexivity|].
  cbn [map job_openings_loop]. rewrite (scan_job_opening_row _ Hr), IH.
  unfold append1. destruct rs; cbn [elems map]; [reflexivity|].
  now rewrite <- app_assoc.
Qed.

(** A successful [addCandidate]: the store has accepted the document of
    the skills, and the new row is the last of the table, under the next
    key of the sequence. *)
Lemma addCandidate_success (candidate : Candidate) (w w1 : World) :
  addCandidate candidate w = (None, w1) ->
  exists doc,
    jsonb.jsonb_in (json.Marshal_strings (Candidate_Skills candidate)) = inl doc /\
    pg.candidates (store w1) =
      pg.candidates (store w) ++
      [pg.mk_candidate (pg.candidates_id_seq (store w))
         (Candidate_FullName candidate) (Candidate_Age candidate)
         (Candidate_Email candidate) (Some (Candidate_Experience candidate))
         (Some doc)].
Proof.
  unfold addCandidate.
  destruct (String.eqb (Candidate_FullName candidate) "" || (Candidate_Age candidate <=? 0));
    [discriminate|].
  unfold json_Marshal. go_run. cbn [pg.execute].
  destruct (jsonb.jsonb_in (json.Marshal_strings (Candidate_Skills candidate)))
    as [doc|e]; go_world; [|discriminate].
  destruct (existsb _ (pg.candidates (store w))); go_world; [discriminate|].
  intros H. injection H as <-. exists doc. split; reflexivity.
Qed.

Lemma addJobOpening_success (jobOpening : JobOpening) (w w1 : World) :
  addJobOpening jobOpening w = (None, w1) ->
  exists doc,
    jsonb.jsonb_in (json.Marshal_strings (JobOpening_RequiredSkills jobOpening)) = inl doc /\
    pg.job_openings (store w1) =
      pg.job_openings (store w) ++
      [pg.mk_job_opening (pg.job_openings_id_seq (store w))
         (Some (JobOpening_CompanyID jobOpening)) (JobOpening_Title jobOpening)
         (Some (JobOpening_Experience jobOpening)) (JobOpening_Salary jobOpening)
         (Some doc)].
Proof.
  unfold addJobOpening.
  destruct (String.eqb (JobOpening_Title jobOpening) ""
            || (JobOpening_CompanyID jobOpening <=? 0)
            || SFleb (JobOpening_Salary jobOpening) float64_zero);
    [discriminate|].
  unfold json_Marshal. go_run. cbn [pg.execute].
  destruct (jsonb.jsonb_in (json.Marshal_strings (JobOpening_RequiredSkills jobOpening)))
    as [doc|e]; go_world; [|discriminate].
  destruct (existsb _ (pg.job_openings (store w))); go_world; [discriminate|].
  destruct (negb _); go_world; [discriminate|].
  intros H. injection H as <-. exists doc. split; reflexivity.
Qed.

(** The document stored for a slice of valid strings, and what the
    decoder makes of its text: the slice. *)
Lemma stored_skills (skills : slice string) (doc : json) :
  Forall (fun x => utf8.ValidString x = true) (elems skills) ->
  jsonb.jsonb_in (json.Marshal_strings skills) = inl doc ->
  doc = match skills with
        | None => JNull
        | Some l => JArray (map JString l)
        end /\
  fst (json.Unmarshal_strings (jsonb.jsonb_out doc)) = skills.
Proof.
  intros Hv. destruct skills as [l|].
  - cbn [elems] in Hv.
    assert (Hwf : Forall wellformed l).
    { eapply Forall_impl; [|exact Hv]. intros x. apply ValidString_wellformed. }
    rewrite (jsonb_in_Marshal _ Hwf).
    destruct (forallb no_nul l); [|discriminate].
    intros H. injection H as <-. split; [reflexivity|].
    now rewrite (Unmarshal_jsonb_out _ Hwf).
  - rewrite jsonb_in_Marshal_nil. intros H. injection H as <-. split; reflexivity.
Qed.

Lemma existsb_string (s : string) (l : list string) :
  existsb (fun v => jsonb.scalar_eqb v (JString s)) (map JString l) = true <-> In s l.
Proof.
  induction l as [|x l IH]; cbn [map existsb jsonb.scalar_eqb In].
  - split; [discriminate | tauto].
  - rewrite orb_true_iff, IH, String.eqb_eq. tauto.
Qed.

(** Containment of the array of one plain skill in a stored document of
    skills. *)
Lemma contains_skill (skills : slice string) (s : string) :
  pg.contains
    (Some match skills with None => JNull | Some l => JArray (map JString l) end)
    (JArray [JString s]) = true <-> In s (elems skills).
Proof.
  destruct skills as [l|]; cbn [pg.contains jsonb.jsonb_contains elems].
  - cbn [jsonb.deep_contains forallb jsonb.is_scalar]. rewrite andb_true_r.
    apply existsb_string.
  - split; [discriminate | intros []].
Qed.

(** What [findCandidatesBySkill] returns on a table whose rows can all
    be read, by the fate of the text of the parameter. *)
Lemma findCandidatesBySkill_result (skill : string) (w : World) :
  Forall (fun r => pg.candidates_experience r <> None) (pg.candidates (store w)) ->
  fst (findCandidatesBySkill skill w) =
  match jsonb.jsonb_in (String "[" (String dquote (skill +++ String dquote "]"))) with
  | inr e => (None, Some (fmt_Errorf MsgQuery (pq_Error e)))
  | inl t =>
    (slice_of (map candidate_of_row
                 (filter (fun r => pg.contains (pg.candidates_skills r) t) (pg.candidates (store w)))),
     None)
  end.
Proof.
  intros Hread. unfold findCandidatesBySkill. go_run.
  cbn [String.append str1 pg.execute].
  destruct (jsonb.jsonb_in _) as [t|e]; go_world; [|reflexivity].
  rewrite candidates_loop_rows.
  - unfold sql.Rows_Err. cbn [fst].
    destruct (filter _ _); reflexivity.
  - rewrite Forall_forall in *. intros r Hr. apply filter_In in Hr. now apply Hread.
Qed.

Lemma findJobOpeningsBySkill_result (skill : string) (w : World) :
  Forall (fun r => pg.job_openings_company_id r <> None /\
                   pg.job_openings_experience r <> None) (pg.job_openings (store w)) ->
  fst (findJobOpeningsBySkill skill w) =
  match jsonb.jsonb_in (String "[" (String dquote (skill +++ String dquote "]"))) with
  | inr e => (None, Some (fmt_Errorf MsgQuery (pq_Error e)))
  | inl t =>
    (slice_of (map job_opening_of_row
                 (filter (fun r => pg.contains (pg.job_openings_required_skills r) t) (pg.job_openings (store w)))),
     None)
  end.
Proof.
  intros Hread. unfold findJobOpeningsBySkill. go_run.
  cbn [String.append str1 pg.execute].
  destruct (jsonb.jsonb_in _) as [t|e]; go_world; [|reflexivity].
  rewrite job_openings_loop_rows.
  - unfold sql.Rows_Err. cbn [fst].
    destruct (filter _ _); reflexivity.
  - rewrite Forall_forall in *. intros r Hr. apply filter_In in Hr. now apply Hread.
Qed.

Lemma elems_slice_of {A} (l : list A) : elems (slice_of l) = l.
Proof. destruct l; reflexivity. Qed.


(** C6, as the code has it.  A record that a skill query returns for a
    candidate or a job opening that was inserted with skills that are
    valid UTF-8 has these skills, in the same order. *)
Theorem skills_round_trip :
  (forall (candidate : Candidate) (skill : string) (w w1 w2 : World)
          (found : slice Candidate) (c : Candidate),
      pg.consistent (store w) ->
      addCandidate candidate w = (None, w1) ->
      Forall (fun x => utf8.ValidString x = true) (elems (Candidate_Skills candidate)) ->
      findCandidatesBySkill skill w1 = ((found, None), w2) ->
      In c (elems found) ->
      Candidate_ID c = pg.candidates_id_seq (store w) ->
      Candidate_Skills c = Candidate_Skills candidate) /\
  (forall (jobOpening : JobOpening) (skill : string) (w w1 w2 : World)
          (found : slice JobOpening) (j : JobOpening),
      pg.consistent (store w) ->
      addJobOpening jobOpening w = (None, w1) ->
      Forall (fun x => utf8.ValidString x = true)
             (elems (JobOpening_RequiredSkills jobOpening)) ->
      findJobOpeningsBySkill skill w1 = ((found, None), w2) ->
      In j (elems found) ->
      JobOpening_ID j = pg.job_openings_id_seq (store w) ->
      JobOpening_RequiredSkills j = JobOpening_RequiredSkills jobOpening).
Proof.
  split.
  - intros candidate skill w w1 w2 found c [[_ [_ [Hkeys _]]] [Hread _]]
      Hadd Hvalid Hfind Hin Hid.
    destruct (addCandidate_success _ _ _ Hadd) as [doc [Hdoc Hrows]].
    destruct (stored_skills _ _ Hvalid Hdoc) as [_ Eback].
    assert (R : fst (findCandidatesBySkill skill w1) = (found, None))
      by now rewrite Hfind.
    rewrite findCandidatesBySkill_result in R.
    2:{ rewrite Hrows. apply Forall_app. split; [exact Hread|].
        constructor; [discriminate | constructor]. }
    destruct (jsonb.jsonb_in (String "[" _)) as [t|e]; [|discriminate].
    injection R as <-. rewrite elems_slice_of in Hin.
    apply in_map_iff in Hin. destruct Hin as [r [<- Hr]].
    apply filter_In in Hr. destruct Hr as [Hr _].
    rewrite Hrows in Hr. apply in_app_or in Hr. destruct Hr as [Hr|[<-|[]]].
    + rewrite Forall_forall in Hkeys. specialize (Hkeys r Hr).
      cbn [candidate_of_row Candidate_ID] in Hid. lia.
    + cbn [candidate_of_row Candidate_Skills pg.candidates_skills column_text].
      exact Eback.
  - intros jobOpening skill w w1 w2 found j [[_ [_ [_ Hkeys]]] [_ Hread]]
      Hadd Hvalid Hfind Hin Hid.
    destruct (addJobOpening_success _ _ _ Hadd) as [doc [Hdoc Hrows]].
    destruct (stored_skills _ _ Hvalid Hdoc) as [_ Eback].
    assert (R : fst (findJobOpeningsBySkill skill w1) = (found, None))
      by now rewrite Hfind.
    rewrite findJobOpeningsBySkill_result in R.
    2:{ rewrite Hrows. apply Forall_app. split; [exact Hread|].
        constructor; [split; discriminate | constructor]. }
    destruct (jsonb.jsonb_in (String "[" _)) as [t|e]; [|discriminate].
    injection R as <-. rewrite elems_slice_of in Hin.
    apply in_map_iff in Hin. destruct Hin as [r [<- Hr]].
    apply filter_In in Hr. destruct Hr as [Hr _].
    rewrite Hrows in Hr. apply in_app_or in Hr. destruct Hr as [Hr|[<-|[]]].
    + rewrite Forall_forall in Hkeys. specialize (Hkeys r Hr).
      cbn [job_opening_of_row JobOpening_ID] in Hid. lia.
    + cbn [job_opening_of_row JobOpening_RequiredSkills
           pg.job_openings_required_skills column_text].
      exact Eback.
Qed.

Lemma alice_world_consistent : pg.consistent (store alice_world).
Proof.
  unfold pg.consistent, pg.keys_below_sequences, pg.readable.
  cbn. repeat split; repeat constructor.
Qed.

Lemma acme_world_consistent : pg.consistent (store acme_world).
Proof.
  unfold pg.consistent, pg.keys_below_sequences, pg.readable.
  cbn. repeat split; repeat constructor.
Qed.



(** Witness of C6: Ann and the engineer of Acme, read back. *)
Lemma skills_round_trip_witness :
  Candidate_Skills (mk_Candidate 1 "Ann" 30 "ann@example.org" "5 years" (Some ["go"; "sql"])) =
    Candidate_Skills ann /\
  JobOpening_RequiredSkills
    (mk_JobOpening 1 1 "Engineer" "" (S754_finite false 1000 0) (Some ["go"])) =
    JobOpening_RequiredSkills engineer.
Proof.
  split.
  - apply (proj1 skills_round_trip ann "go" alice_world ann_world
             (snd (findCandidatesBySkill "go" ann_world))
             (Some [mk_Candidate 1 "Ann" 30 "ann@example.org" "5 years" (Some ["go"; "sql"])])).
    + exact alice_world_consistent.
    + reflexivity.
    + repeat constructor.
    + reflexivity.
    + left. reflexivity.
    + reflexivity.
  - apply (proj2 skills_round_trip engineer "go" acme_world engineer_world
             (snd (findJobOpeningsBySkill "go" engineer_world))
             (Some [mk_JobOpening 1 1 "Engineer" "" (S754_finite false 1000 0) (Some ["go"])])).
    + exact acme_world_consistent.
    + reflexivity.
    + repeat constructor.
    + reflexivity.
    + left. reflexivity.
    + reflexivity.
Defined.

(** C6 as stated fails for a skill that is not valid UTF-8: Bob is
    inserted with the byte 255 among his skills and read back with the
    replacement rune in its place. *)
Lemma skills_round_trip_invalid_utf8 :
  addCandidate bob alice_world = (None, bob_world) /\
  exists back,
    fst (findCandidatesBySkill "go" bob_world) =
      (Some [mk_Candidate 1 "Bob" 41 "bob@example.org" "" (Some back)], None) /\
    back = [quoted_skill; backslash_skill; tab_skill;
            String (chr 0xEF) (String (chr 0xBF) (str1 (chr 0xBD))); "go"] /\
    Some back <> Candidate_Skills bob.
Proof.
  split; [reflexivity|]. eexists. split; [reflexivity|]. split; [reflexivity|].
  discriminate.
Qed.

(** ** The store stays consistent *)

Lemma Forall_lt_S {A} (f : A -> Z) (n : Z) (l : list A) :
  Forall (fun r => f r < n) l -> Forall (fun r => f r < n + 1) l.
Proof. apply Forall_impl. intros r H. lia. Qed.

Lemma empty_consistent : pg.consistent pg.empty.
Proof. repeat split; constructor. Qed.

(** Every statement of the program keeps the store consistent, whether
    the store accepts it or not. *)
Lemma execute_consistent (q : pg.statement) (args : list pg.arg) (st : pg.Store) :
  pg.consistent st -> pg.consistent (snd (pg.execute q args st)).
Proof.
  intros H.
  destruct q;
    repeat (match goal with
            | a : list pg.arg |- _ => destruct a as [|[?|?|?|?] ?]
            end; cbn [pg.execute snd]; try assumption).
  all: destruct H as [[Hu [Hc [Hd Hj]]] [Rd Rj]].
  all: repeat match goal with
              | |- context [match jsonb.jsonb_in ?t with _ => _ end] =>
                destruct (jsonb.jsonb_in t)
              | |- context [if ?b then _ else _] => destruct b
              end; cbn [snd].
  all: unfold pg.consistent, pg.keys_below_sequences, pg.readable;
    cbn [pg.users pg.users_id_seq pg.companies pg.companies_id_seq
         pg.candidates pg.candidates_id_seq pg.job_openings pg.job_openings_id_seq].
  all: repeat split; try assumption; try (now apply Forall_lt_S).
  all: apply Forall_app; split; try assumption; try (now apply Forall_lt_S).
  all: constructor; [|constructor]; cbn; try lia; try discriminate;
    try (split; discriminate).
Qed.

Section Keeps.

Variable P : pg.Store -> Prop.

Lemma keeps_ret {A} (a : A) : keeps P (ret a).
Proof. intros w H. exact H. Qed.

Lemma keeps_bind {A B} (m : M A) (k : A -> M B) :
  keeps P m -> (forall a, keeps P (k a)) -> keeps P (bind m k).
Proof.
  intros Hm Hk w H. unfold bind. specialize (Hm w H).
  destruct (m w) as [a w']. now apply Hk.
Qed.

Lemma keeps_send (r : request) : keeps P (send r).
Proof. intros w H. exact H. Qed.

Lemma keeps_draw : keeps P draw.
Proof. intros w H. exact H. Qed.

Lemma keeps_fmt_Print (s : string) : keeps P (fmt_Print s).
Proof. intros w H. exact H. Qed.

Lemma keeps_ReadString : keeps P ReadString.
Proof. intros w H. unfold ReadString. now destruct (stdin w). Qed.

Hypothesis execute_keeps : forall q args st, P st -> P (snd (pg.execute q args st)).

Lemma keeps_run (q : pg.statement) (args : list pg.arg) : keeps P (run q args).
Proof.
  intros w H. unfold run. specialize (execute_keeps q args _ H).
  now destruct (pg.execute q args (store w)).
Qed.

End Keeps.

Ltac keeps_step :=
  first
    [ apply keeps_ret | apply keeps_send | apply keeps_draw | apply keeps_fmt_Print
    | apply keeps_ReadString
    | apply keeps_run; apply execute_consistent
    | apply keeps_bind; [|intros ?]
    | match goal with
      | |- keeps _ (match ?x with _ => _ end) => destruct x
      | |- keeps _ (let '(_, _) := ?x in _) => destruct x
      end ].

Ltac keeps_all :=
  unfold sql.QueryRow_Scan, sql.Query, sql.Prepare, sql.Exec, sql.Close, json_Marshal;
  repeat keeps_step.

(** The functions of the program keep the store consistent: every store
    that only this program has written, from the empty one on, is
    consistent. *)
Lemma program_keeps_consistent
    (generate : string -> Z -> nat -> string * option error)
    (compare : string -> string -> option error) :
  (forall username password, keeps pg.consistent (registerUser generate username password)) /\
  (forall username password, keeps pg.consistent (loginUser compare username password)) /\
  (forall name, keeps pg.consistent (addCompany name)) /\
  (forall candidate, keeps pg.consistent (addCandidate candidate)) /\
  (forall jobOpening, keeps pg.consistent (addJobOpening jobOpening)) /\
  (forall skill, keeps pg.consistent (findCandidatesBySkill skill)) /\
  (forall skill, keeps pg.consistent (findJobOpeningsBySkill skill)) /\
  keeps pg.consistent createTables.
Proof.
  repeat match goal with |- _ /\ _ => split end; intros.
  - unfold registerUser, hashPassword. keeps_all.
  - unfold loginUser. keeps_all.
  - unfold addCompany. keeps_all.
  - unfold addCandidate. keeps_all.
  - unfold addJobOpening. keeps_all.
  - unfold findCandidatesBySkill. keeps_all.
  - unfold findJobOpeningsBySkill. keeps_all.
  - unfold createTables. keeps_all.
Qed.

(** ** The readers do not run out of fuel *)

Lemma went_on_mono {A} (n m : nat) (x : res (A * string)) :
  (n <= m)%nat -> went_on n x -> went_on m x.
Proof. destruct x as [[a r]| |]; cbn; intros; try lia; assumption. Qed.

Lemma went_on_prepend (n : nat) (p : string) (x : res (string * string)) :
  went_on n x -> went_on n (prepend p x).
Proof. destruct x as [[a r]| |]; cbn; intros; assumption. Qed.

Lemma skip_ws_length (s : string) : (String.length (skip_ws s) <= String.length s)%nat.
Proof.
  induction s as [|c s IH]; cbn [skip_ws String.length]; [lia|].
  destruct (is_ws c); cbn [String.length]; lia.
Qed.

Lemma after_length (c : ascii) (s r : string) :
  after c s = Some r -> String.length s = S (String.length r).
Proof.
  destruct s as [|c' s]; cbn [after]; [discriminate|].
  destruct (Ascii.eqb c' c); [|discriminate]. intros H. injection H as <-. reflexivity.
Qed.

Lemma after_skip_length (c : ascii) (s r : string) :
  after c (skip_ws s) = Some r -> (String.length r < String.length s)%nat.
Proof.
  intros H. apply after_length in H. pose proof (skip_ws_length s). lia.
Qed.

Lemma span_length (p : ascii -> bool) (s a r : string) :
  span p s = (a, r) ->
  (String.length a + String.length r = String.length s)%nat.
Proof.
  revert a r. induction s as [|c s IH]; intros a r; cbn [span].
  - intros H. injection H as <- <-. reflexivity.
  - destruct (p c).
    + destruct (span p s) as [a' r'] eqn:E. intros H. injection H as <- <-.
      specialize (IH _ _ eq_refl). cbn [String.length]. lia.
    + intros H. injection H as <- <-. reflexivity.
Qed.

Lemma lex_number_went_on (s : string) : went_on (String.length s) (lex_number s).
Proof.
  unfold lex_number.
  destruct (after "-" s) as [s0|] eqn:Esign.
  1: apply after_length in Esign.
  1-2: (destruct s0 as [|c r] || destruct s as [|c r]); [exact I|];
    destruct (Ascii.eqb c "0"); [|destruct (is_digit c); [|exact I]];
    try (destruct (span is_digit r) as [ds r1] eqn:Eint; apply span_length in Eint);
    match goal with
    | |- context [after "." ?x] =>
      destruct (after "." x) as [rf|] eqn:Edot;
        [ apply after_length in Edot;
          destruct (span is_digit rf) as [fs r2] eqn:Efrac; apply span_length in Efrac;
          destruct fs as [|f0 fs]; [exact I|]
        | ]
    end;
    match goal with
    | |- context [match ?r2 with EmptyString => Some (EmptyString, ?r2) | String _ _ => _ end] =>
      destruct r2 as [|e re]; [cbn in *; lia|];
      destruct ((byte e =? 101) || (byte e =? 69));
        [ destruct (after "+" re) as [rp|] eqn:Ep;
          [ apply after_length in Ep
          | destruct (after "-" re) as [rm|] eqn:Em; [apply after_length in Em|] ];
          match goal with
          | |- context [span is_digit ?x] =>
            destruct (span is_digit x) as [es r3] eqn:Eexp; apply span_length in Eexp;
            destruct es as [|e0 es]; [exact I|];
            destruct r3 as [|c3 r3]; [|destruct (is_alnum c3); [exact I|]];
            cbn [went_on String.length] in *; lia
          end
        | destruct (is_alnum e); [exact I|]; cbn [went_on String.length] in *; lia ]
    end.
Qed.

Lemma lex_word_went_on (s : string) : went_on (String.length s) (lex_word s).
Proof.
  unfold lex_word. destruct (span is_alnum s) as [w r] eqn:E.
  apply span_length in E.
  destruct (String.eqb_spec w "true") as [->|_];
    [cbn [went_on String.length] in *; lia|].
  destruct (String.eqb_spec w "false") as [->|_];
    [cbn [went_on String.length] in *; lia|].
  destruct (String.eqb_spec w "null") as [->|_];
    [cbn [went_on String.length] in *; lia | exact I].
Qed.

(** The lexer of the store leaves less than it was given. *)
Lemma lex_string_from_went_on (n : nat) :
  forall (s : string) (hi : option Z),
    (String.length s <= n)%nat ->
    went_on (String.length s) (jsonb.lex_string_from s hi).
Proof.
  induction n as [|n IH]; intros s hi Hn.
  - destruct s; [exact I | cbn in Hn; lia].
  - destruct s as [|c r]; [exact I|]. cbn [jsonb.lex_string_from].
    destruct (Ascii.eqb c dquote).
    { destruct hi; [exact I | cbn; lia]. }
    destruct (Ascii.eqb c backslash).
    + destruct r as [|e r1]; [exact I|].
      destruct (Ascii.eqb e "u").
      * destruct r1 as [|h1 [|h2 [|h3 [|h4 r']]]]; try exact I.
        destruct (hex4 h1 h2 h3 h4) as [ch|]; [|exact I].
        assert (Hr : went_on (String.length (String c (String e
                       (String h1 (String h2 (String h3 (String h4 r')))))))
                       (jsonb.lex_string_from r' None) /\
                     went_on (String.length (String c (String e
                       (String h1 (String h2 (String h3 (String h4 r')))))))
                       (jsonb.lex_string_from r' (Some ch))).
        { split; (eapply went_on_mono; [|apply IH]); cbn [String.length] in *; lia. }
        destruct Hr as [Hr1 Hr2].
        destruct (jsonb.is_utf16_surrogate_first ch).
        { destruct hi; [exact I | exact Hr2]. }
        destruct (jsonb.is_utf16_surrogate_second ch); destruct hi; try exact I;
          match goal with
          | |- context [if ?b then _ else _] => destruct b; [exact I|]
          end; now apply went_on_prepend.
      * destruct hi; [exact I|]. destruct (unescape e); [|exact I].
        apply went_on_prepend. eapply went_on_mono; [|apply IH];
          cbn [String.length] in *; lia.
    + destruct hi; [exact I|]. destruct (byte c <? 32); [exact I|].
      apply went_on_prepend. eapply went_on_mono; [|apply IH];
        cbn [String.length] in *; lia.
Qed.

Lemma lex_string_went_on (s : string) : went_on (String.length s) (jsonb.lex_string s).
Proof. unfold jsonb.lex_string. now apply (lex_string_from_went_on (String.length s)). Qed.

Lemma DecodeRune_width (c : ascii) (t : string) :
  (1 <= snd (utf8.DecodeRuneInString (String c t)) <= String.length (String c t))%nat.
Proof.
  destruct (utf8.DecodeRuneInString (String c t)) as [r size] eqn:E.
  destruct (DecodeRune_cases _ _ _ _ E) as [[-> _] | [_ [He Hl]]]; cbn [snd].
  - cbn [String.length]. lia.
  - pose proof (encodes_length _ _ He) as H.
    assert (String.length (take size (String c t)) <= size)%nat.
    { clear. generalize (String c t). induction size as [|n IH]; intros [|a s]; cbn; try lia.
      specialize (IH s). lia. }
    lia.
Qed.

(** [unquote] with more fuel than bytes leaves less than it was given. *)
Lemma unquote_loop_went_on (f : nat) :
  forall s : string,
    (String.length s < f)%nat ->
    went_on (String.length s) (json.unquote_loop f s).
Proof.
  induction f as [|f IH]; intros s Hf; [lia|].
  destruct s as [|c r]; [exact I|]. cbn [json.unquote_loop].
  assert (Step : forall t p, (String.length t < String.length (String c r))%nat ->
                   went_on (String.length (String c r)) (prepend p (json.unquote_loop f t))).
  { intros t p Ht. apply went_on_prepend. eapply went_on_mono; [|apply IH]; lia. }
  destruct (Ascii.eqb c dquote); [cbn; lia|].
  destruct (Ascii.eqb c backslash).
  - destruct r as [|e r1]; [exact I|].
    destruct (Ascii.eqb e "u").
    + destruct r1 as [|h1 [|h2 [|h3 [|h4 r']]]]; try exact I.
      destruct (hex4 h1 h2 h3 h4) as [rr|]; [|exact I].
      destruct (utf16.IsSurrogate rr); [|apply Step; cbn; lia].
      destruct r' as [|b [|u [|g1 [|g2 [|g3 [|g4 r'']]]]]];
        try (apply Step; cbn; lia).
      destruct (Ascii.eqb b backslash && Ascii.eqb u "u"); [|apply Step; cbn; lia].
      destruct (hex4 g1 g2 g3 g4) as [rr1|]; [|apply Step; cbn; lia].
      destruct (utf16.DecodeRune rr rr1 =? utf16.replacementChar);
        apply Step; cbn; lia.
    + destruct (unescape e); [|exact I]. apply Step. cbn. lia.
  - destruct (byte c <? 32); [exact I|].
    destruct (byte c <? utf8.RuneSelf); [apply Step; cbn; lia|].
    pose proof (DecodeRune_width c r) as Hw.
    destruct (utf8.DecodeRuneInString (String c r)) as [rr size]. cbn [snd] in Hw.
    apply Step. rewrite length_drop. lia.
Qed.

Lemma unquote_went_on (s : string) : went_on (String.length s) (json.unquote s).
Proof. unfold json.unquote. apply unquote_loop_went_on. lia. Qed.

Section ParserFuel.

Variable lex : string -> res (string * string).
Hypothesis lex_went_on : forall s, went_on (String.length s) (lex s).

(** With the fuel that [parse_document] gives, the descent ends before
    the fuel does. *)
Lemma parse_went_on (f : nat) :
  (forall s, (2 * String.length s < f)%nat ->
             went_on (String.length s) (parse_value lex f s)) /\
  (forall s, (2 * String.length s + 1 < f)%nat ->
             went_on (String.length s) (parse_elements lex f s)) /\
  (forall s, (2 * String.length s + 1 < f)%nat ->
             went_on (String.length s) (parse_members lex f s)).
Proof.
  induction f as [|f [IHv [IHe IHm]]]; [repeat split; intros; lia|].
  repeat split; intros s Hf.
  - cbn [parse_value]. pose proof (skip_ws_length s) as Hs.
    destruct (skip_ws s) as [|c r]; [exact I|]. cbn [String.length] in Hs.
    destruct (Ascii.eqb c "[").
    { destruct (after "]" (skip_ws r)) as [r'|] eqn:E.
      - apply after_skip_length in E. cbn. lia.
      - specialize (IHe r ltac:(lia)).
        destruct (parse_elements lex f r) as [[l r']| |]; cbn in *; try lia; exact I. }
    destruct (Ascii.eqb c "{").
    { destruct (after "}" (skip_ws r)) as [r'|] eqn:E.
      - apply after_skip_length in E. cbn. lia.
      - specialize (IHm r ltac:(lia)).
        destruct (parse_members lex f r) as [[l r']| |]; cbn in *; try lia; exact I. }
    destruct (Ascii.eqb c dquote).
    { specialize (lex_went_on r).
      destruct (lex r) as [[v r']| |]; cbn in *; try lia; exact I. }
    destruct (Ascii.eqb c "-" || is_digit c).
    { pose proof (lex_number_went_on (String c r)) as H.
      destruct (lex_number (String c r)) as [[v r']| |]; cbn in *; try lia; exact I. }
    eapply went_on_mono; [|apply lex_word_went_on]. cbn. lia.
  - cbn [parse_elements]. specialize (IHv s ltac:(lia)).
    destruct (parse_value lex f s) as [[v r]| |]; cbn [went_on] in *; try lia; try exact I.
    destruct (after "," (skip_ws r)) as [r'|] eqn:E.
    + apply after_skip_length in E. specialize (IHe r' ltac:(lia)).
      destruct (parse_elements lex f r') as [[l r'']| |]; cbn in *; try lia; exact I.
    + destruct (after "]" (skip_ws r)) as [r'|] eqn:E'; [|exact I].
      apply after_skip_length in E'. cbn. lia.
  - cbn [parse_members].
    destruct (after dquote (skip_ws s)) as [r|] eqn:E; [|exact I].
    apply after_skip_length in E. specialize (lex_went_on r).
    destruct (lex r) as [[k r0]| |]; cbn [went_on] in *; try lia; try exact I.
    destruct (after ":" (skip_ws r0)) as [r1|] eqn:E1; [|exact I].
    apply after_skip_length in E1. specialize (IHv r1 ltac:(lia)).
    destruct (parse_value lex f r1) as [[v r2]| |]; cbn [went_on] in *; try lia; try exact I.
    destruct (after "," (skip_ws r2)) as [r3|] eqn:E3.
    + apply after_skip_length in E3. specialize (IHm r3 ltac:(lia)).
      destruct (parse_members lex f r3) as [[l r4]| |]; cbn in *; try lia; exact I.
    + destruct (after "}" (skip_ws r2)) as [r3|] eqn:E3'; [|exact I].
      apply after_skip_length in E3'. cbn. lia.
Qed.

Lemma parse_document_fuel (text : string) : parse_document lex text <> OutOfFuel.
Proof.
  unfold parse_document.
  pose proof (proj1 (parse_went_on (2 * String.length text + 1)) text ltac:(lia)) as H.
  destruct (parse_value lex _ text) as [[v r]| |]; cbn in H; try contradiction.
  - destruct (skip_ws r); discriminate.
  - discriminate.
Qed.

End ParserFuel.

(** The store parses every text within the fuel of [parse_document]; the
    last error of [jsonb_in] is for the record only. *)
Lemma jsonb_in_fuel (text : string) :
  jsonb.jsonb_in text <> inr statement_too_complex.
Proof.
  unfold jsonb.jsonb_in.
  pose proof (parse_document_fuel jsonb.lex_string lex_string_went_on text) as H.
  destruct (parse_document jsonb.lex_string text) as [v|[]|]; try discriminate.
  contradiction.
Qed.

Lemma Unmarshal_fuel (data : string) :
  parse_document json.unquote data <> OutOfFuel.
Proof. apply parse_document_fuel, unquote_went_on. Qed.

(* ================================================================= *)
(** * Further properties of the repository functions *)

(** ** Companies *)

Lemma existsb_some {A} (f : A -> bool) (l : list A) (x : A) :
  In x l -> f x = true -> existsb f l = true.
Proof. intros Hin Hf. apply existsb_exists. now exists x. Qed.

Lemma keys_fresh {A} (key : A -> Z) (seq : Z) (l : list A) :
  Forall (fun r => key r < seq) l ->
  existsb (fun r => key r =? seq) l = false.
Proof.
  intros H. apply existsb_none. intros r Hr. rewrite Forall_forall in H.
  specialize (H r Hr). apply Z.eqb_neq. lia.
Qed.



(** ** Candidates *)

(** What the store makes of the skills that [json.Marshal] wrote. *)
Lemma jsonb_in_skills (skills : slice string) :
  Forall (fun x => utf8.ValidString x = true) (elems skills) ->
  jsonb.jsonb_in (json.Marshal_strings skills) =
  if forallb no_nul (elems skills) then inl (skills_document skills)
  else inr untranslatable_character.
Proof.
  intros Hv. destruct skills as [l|]; cbn [elems skills_document forallb].
  - apply jsonb_in_Marshal. eapply Forall_impl; [|exact Hv].
    intros x. apply ValidString_wellformed.
  - apply jsonb_in_Marshal_nil.
Qed.


Lemma initial_world_consistent : pg.consistent (store initial_world).
Proof. exact empty_consistent. Qed.


(** ** Job openings *)



(** For a job opening inserted with skills that are valid UTF-8, and a
    skill that holds no quote, no backslash and no control byte,
    [findJobOpeningsBySkill] returns the job opening exactly when the
    skill is one of those it requires. *)
Theorem findJobOpeningsBySkill_membership :
  forall (jobOpening : JobOpening) (skill : string) (w w1 : World),
    pg.consistent (store w) ->
    addJobOpening jobOpening w = (None, w1) ->
    Forall (fun x => utf8.ValidString x = true)
           (elems (JobOpening_RequiredSkills jobOpening)) ->
    plain skill = true ->
    returns_job_opening (pg.job_openings_id_seq (store w))
      (fst (findJobOpeningsBySkill skill w1))
    <-> In skill (elems (JobOpening_RequiredSkills jobOpening)).
Proof.
  intros jobOpening skill w w1 [[_ [_ [_ Hkeys]]] [_ Hread]] Hadd Hvalid Hplain.
  destruct (addJobOpening_success _ _ _ Hadd) as [doc [Hdoc Hrows]].
  destruct (stored_skills _ _ Hvalid Hdoc) as [Edoc _].
  rewrite findJobOpeningsBySkill_result.
  2:{ rewrite Hrows. apply Forall_app. split; [exact Hread|].
      constructor; [split; discriminate | constructor]. }
  rewrite (jsonb_in_fragment _ Hplain).
  unfold returns_job_opening. cbn [fst snd]. rewrite elems_slice_of.
  rewrite Hrows, filter_app. cbn [filter pg.job_openings_required_skills].
  rewrite <- (contains_skill (JobOpening_RequiredSkills jobOpening) skill), <- Edoc.
  set (new := pg.mk_job_opening _ _ _ _ _ _).
  split.
  - intros [_ [j [Hin Hid]]].
    apply in_map_iff in Hin. destruct Hin as [r [<- Hr]].
    apply in_app_or in Hr. destruct Hr as [Hr|Hr].
    + apply filter_In in Hr. destruct Hr as [Hr _].
      rewrite Forall_forall in Hkeys. specialize (Hkeys r Hr).
      cbn [job_opening_of_row JobOpening_ID] in Hid. lia.
    + destruct (pg.contains (Some doc) (JArray [JString skill])); [reflexivity|].
      destruct Hr.
  - intros Hc. split; [reflexivity|]. rewrite Hc.
    exists (job_opening_of_row new). split; [|reflexivity].
    apply in_map. apply in_or_app. right. now left.
Qed.

(** Witness: the engineer of Acme, found by the skill go. *)
Lemma findJobOpeningsBySkill_membership_witness :
  returns_job_opening 1 (fst (findJobOpeningsBySkill "go" engineer_world))
  <-> In "go" ["go"].
Proof.
  apply (findJobOpeningsBySkill_membership engineer "go" acme_world engineer_world).
  - exact acme_world_consistent.
  - reflexivity.
  - repeat constructor.
  - reflexivity.
Defined.

(** ** Queries *)

(** The functions that only ask leave the store as it was, whatever the
    skill or the name: the text that a skill query builds is a parameter
    of its statement, not a part of it. *)
Theorem queries_leave_store :
  forall (compare : string -> string -> option error)
         (skill username password : string) (w : World),
    store (snd (findCandidatesBySkill skill w)) = store w /\
    store (snd (findJobOpeningsBySkill skill w)) = store w /\
    store (snd (loginUser compare username password w)) = store w.
Proof.
  intros compare skill username password w. repeat split.
  - unfold findCandidatesBySkill. go_run. cbn [String.append str1 pg.execute].
    destruct (jsonb.jsonb_in _) as [t|e]; go_world; [|reflexivity].
    destruct (candidates_loop _ _); reflexivity.
  - unfold findJobOpeningsBySkill. go_run. cbn [String.append str1 pg.execute].
    destruct (jsonb.jsonb_in _) as [t|e]; go_world; [|reflexivity].
    destruct (job_openings_loop _ _); reflexivity.
  - unfold loginUser. go_run. cbn [pg.execute].
    destruct (map _ (filter _ (pg.users (store w)))) as [|row rows]; go_world;
      [reflexivity|].
    destruct (match row with [] => _ | _ => _ end) as [user|e]; go_world.
    + destruct (negb _); reflexivity.
    + destruct (is_ErrNoRows e); reflexivity.
Qed.

(** What [addCandidate] does to the table, whatever it returns: rows are
    added at the end, none is changed or removed. *)
Lemma addCandidate_grows (candidate : Candidate) (w : World) :
  exists more,
    pg.candidates (store (snd (addCandidate candidate w))) =
    pg.candidates (store w) ++ more.
Proof.
  unfold addCandidate.
  destruct (String.eqb (Candidate_FullName candidate) "" || (Candidate_Age candidate <=? 0)).
  { exists []. now rewrite app_nil_r. }
  unfold json_Marshal. go_run. cbn [pg.execute].
  destruct (jsonb.jsonb_in (json.Marshal_strings (Candidate_Skills candidate)))
    as [doc|e]; go_world.
  - destruct (existsb _ (pg.candidates (store w))); go_world.
    + exists []. now rewrite app_nil_r.
    + eexists. reflexivity.
  - exists []. now rewrite app_nil_r.
Qed.

(** A candidate that a skill query returns is returned by the same query
    after any further [addCandidate], whether that one succeeds or not. *)
Theorem findCandidatesBySkill_stable :
  forall (skill : string) (other : Candidate) (id : Z) (w : World),
    pg.consistent (store w) ->
    returns_candidate id (fst (findCandidatesBySkill skill w)) ->
    returns_candidate id
      (fst (findCandidatesBySkill skill (snd (addCandidate other w)))).
Proof.
  intros skill other id w Hc.
  assert (Hc1 : pg.consistent (store (snd (addCandidate other w)))).
  { assert (K : keeps pg.consistent (addCandidate other))
      by (unfold addCandidate; keeps_all).
    now apply K. }
  destruct (addCandidate_grows other w) as [more Hrows].
  rewrite !findCandidatesBySkill_result
    by (first [apply Hc | apply Hc1]).
  destruct (jsonb.jsonb_in (String "[" _)) as [t|e].
  - unfold returns_candidate. cbn [fst snd]. rewrite !elems_slice_of.
    intros [_ [c [Hin Hid]]]. split; [reflexivity|]. exists c. split; [|exact Hid].
    rewrite Hrows, filter_app, map_app. apply in_or_app. now left.
  - intros [H _]. discriminate.
Qed.

(** Witness: Ann stays found by the skill go when Bob is added. *)
Lemma findCandidatesBySkill_stable_witness :
  returns_candidate 1 (fst (findCandidatesBySkill "go" (snd (addCandidate bob ann_world)))).
Proof.
  apply (findCandidatesBySkill_stable "go" bob 1 ann_world).
  - unfold pg.consistent, pg.keys_below_sequences, pg.readable.
    cbn. repeat split; repeat constructor; discriminate.
  - split; [reflexivity|]. eexists. split; [left; reflexivity | reflexivity].
Defined.

(** ** The constraints of the schema *)

Lemma NoDup_map_snoc {A B} (f : A -> B) (l : list A) (x : A) :
  NoDup (map f l) -> ~ In (f x) (map f l) -> NoDup (map f (l ++ [x])).
Proof.
  induction l as [|a l IH]; cbn [map app]; intros Hnd Hx.
  - constructor; [intros [] | constructor].
  - inversion Hnd as [|? ? Ha Hl]; subst. constructor.
    + rewrite map_app, in_app_iff. cbn [map In]. intros [H|[H|[]]].
      * now apply Ha.
      * apply Hx. left. now symmetry.
    + apply IH; [exact Hl|]. intros H. apply Hx. now right.
Qed.

Lemma key_not_in {A} (key : A -> Z) (v : Z) (l : list A) :
  existsb (fun r => key r =? v) l = false -> ~ In v (map key l).
Proof.
  intros E H. apply in_map_iff in H. destruct H as [r [Hr Hin]].
  assert (T : existsb (fun r => key r =? v) l = true).
  { apply (existsb_some _ _ r Hin). now apply Z.eqb_eq. }
  congruence.
Qed.

Lemma name_not_in {A} (name : A -> string) (v : string) (l : list A) :
  existsb (fun r => String.eqb (name r) v) l = false -> ~ In v (map name l).
Proof.
  intros E H. apply in_map_iff in H. destruct H as [r [Hr Hin]].
  assert (T : existsb (fun r => String.eqb (name r) v) l = true).
  { apply (existsb_some _ _ r Hin). now apply String.eqb_eq. }
  congruence.
Qed.

Lemma empty_schema_holds : schema_holds pg.empty.
Proof. unfold schema_holds. cbn. repeat split; constructor. Qed.

(** Every statement of the program keeps the constraints, whether the
    store accepts it or not. *)
Lemma execute_schema_holds (q : pg.statement) (args : list pg.arg) (st : pg.Store) :
  schema_holds st -> schema_holds (snd (pg.execute q args st)).
Proof.
  intros H.
  destruct q;
    repeat (match goal with
            | a : list pg.arg |- _ => destruct a as [|[?|?|?|?] ?]
            end; cbn [pg.execute snd]; try assumption).
  all: destruct H as [Uk [Un [Ur [Ck [Cn [Dk [Jk Jc]]]]]]].
  all: repeat match goal with
              | |- context [match jsonb.jsonb_in ?t with _ => _ end] =>
                destruct (jsonb.jsonb_in t)
              | |- context [if ?a || ?b then _ else _] =>
                destruct a eqn:?; destruct b eqn:?; cbn [orb]
              | |- context [if negb ?a then _ else _] =>
                destruct a eqn:?; cbn [negb]
              | |- context [if ?a then _ else _] => destruct a eqn:?
              end; cbn [snd].
  all: unfold schema_holds;
    cbn [pg.users pg.users_id_seq pg.companies pg.companies_id_seq
         pg.candidates pg.candidates_id_seq pg.job_openings pg.job_openings_id_seq].
  all: repeat match goal with |- _ /\ _ => split end; try assumption.
  all: try (apply NoDup_map_snoc; [assumption|];
            first [now apply key_not_in | now apply name_not_in]).
  all: try (apply Forall_app; split; [assumption|]; constructor; [|constructor]).
  - reflexivity.
  - eapply Forall_impl; [|exact Jc]. intros j [c [Hin Hc]].
    exists c. split; [|exact Hc]. apply in_or_app. now left.
  - match goal with
    | E : existsb _ (pg.companies st) = true |- _ =>
      apply existsb_exists in E; destruct E as [c [Hin Hc]]
    end.
    exists c. split; [exact Hin|]. cbn. apply Z.eqb_eq in Hc. now rewrite Hc.
Qed.

(** A computation keeps what every statement keeps; [execute_keeps] is
    the lemma about the statements. *)
Ltac keeps_by execute_keeps :=
  unfold sql.QueryRow_Scan, sql.Query, sql.Prepare, sql.Exec, sql.Close, json_Marshal;
  repeat first
    [ apply keeps_ret | apply keeps_send | apply keeps_draw | apply keeps_fmt_Print
    | apply keeps_ReadString
    | apply keeps_run; apply execute_keeps
    | apply keeps_bind; [|intros ?]
    | match goal with
      | |- keeps _ (match ?x with _ => _ end) => destruct x
      | |- keeps _ (let '(_, _) := ?x in _) => destruct x
      end ].

Ltac keeps_schema := keeps_by execute_schema_holds.

Section Constraints.

Variable generate : string -> Z -> nat -> string * option error.
Variable compare : string -> string -> option error.

Lemma registerUser_schema username password :
  keeps schema_holds (registerUser generate username password).
Proof. unfold registerUser, hashPassword. keeps_schema. Qed.

Lemma loginUser_schema username password :
  keeps schema_holds (loginUser compare username password).
Proof. unfold loginUser. keeps_schema. Qed.

Lemma addCompany_schema name : keeps schema_holds (addCompany name).
Proof. unfold addCompany. keeps_schema. Qed.

Lemma addCandidate_schema candidate : keeps schema_holds (addCandidate candidate).
Proof. unfold addCandidate. keeps_schema. Qed.

Lemma addJobOpening_schema jobOpening : keeps schema_holds (addJobOpening jobOpening).
Proof. unfold addJobOpening. keeps_schema. Qed.

Lemma findCandidatesBySkill_schema skill : keeps schema_holds (findCandidatesBySkill skill).
Proof. unfold findCandidatesBySkill. keeps_schema. Qed.

Lemma findJobOpeningsBySkill_schema skill :
  keeps schema_holds (findJobOpeningsBySkill skill).
Proof. unfold findJobOpeningsBySkill. keeps_schema. Qed.

Lemma createTables_schema : keeps schema_holds createTables.
Proof. unfold createTables. keeps_schema. Qed.

(** The constraints hold of the empty store, and every function of the
    repository keeps them, whatever its arguments and whatever it
    returns: user names, company names and keys stay without
    duplicates, every user has the role [user], every job opening refers
    to a company of the table. *)
Theorem repository_keeps_schema :
  schema_holds pg.empty /\
  (forall username password w,
      schema_holds (store w) ->
      schema_holds (store (snd (registerUser generate username password w)))) /\
  (forall username password w,
      schema_holds (store w) ->
      schema_holds (store (snd (loginUser compare username password w)))) /\
  (forall name w,
      schema_holds (store w) -> schema_holds (store (snd (addCompany name w)))) /\
  (forall candidate w,
      schema_holds (store w) -> schema_holds (store (snd (addCandidate candidate w)))) /\
  (forall jobOpening w,
      schema_holds (store w) -> schema_holds (store (snd (addJobOpening jobOpening w)))) /\
  (forall skill w,
      schema_holds (store w) ->
      schema_holds (store (snd (findCandidatesBySkill skill w)))) /\
  (forall skill w,
      schema_holds (store w) ->
      schema_holds (store (snd (findJobOpeningsBySkill skill w)))) /\
  (forall w, schema_holds (store w) -> schema_holds (store (snd (createTables w)))).
Proof.
  split; [exact empty_schema_holds|].
  repeat match goal with |- _ /\ _ => split end; intros.
  - now apply registerUser_schema.
  - now apply loginUser_schema.
  - now apply addCompany_schema.
  - now apply addCandidate_schema.
  - now apply addJobOpening_schema.
  - now apply findCandidatesBySkill_schema.
  - now apply findJobOpeningsBySkill_schema.
  - now apply createTables_schema.
Qed.

End Constraints.

(** ** Accounts: more on registration and login *)

Lemma filter_unique {A} (name : A -> string) (v : string) (l : list A) (r : A) (rest : list A) :
  NoDup (map name l) ->
  filter (fun x => String.eqb (name x) v) l = r :: rest ->
  rest = [] /\ name r = v /\ In r l.
Proof.
  induction l as [|a l IH]; cbn [map filter]; intros Hnd Hf; [discriminate|].
  inversion Hnd as [|? ? Ha Hl]; subst.
  destruct (String.eqb_spec (name a) v) as [E|E].
  - injection Hf as <- Hrest. repeat split; [|exact E|now left].
    destruct rest as [|b rest]; [reflexivity|]. exfalso. apply Ha.
    assert (Hb : In b (filter (fun x => String.eqb (name x) v) l))
      by (rewrite Hrest; now left).
    apply filter_In in Hb. destruct Hb as [Hb Eb]. apply String.eqb_eq in Eb.
    rewrite E, <- Eb. now apply in_map.
  - destruct (IH Hl Hf) as [? [? ?]]. repeat split; try assumption. now right.
Qed.

(** No statement of the program changes or removes a row of users. *)
Lemma execute_users_extend (base : list pg.users_row)
    (q : pg.statement) (args : list pg.arg) (st : pg.Store) :
  extends base (pg.users st) -> extends base (pg.users (snd (pg.execute q args st))).
Proof.
  intros [more H].
  destruct q;
    repeat (match goal with
            | a : list pg.arg |- _ => destruct a as [|[?|?|?|?] ?]
            end; cbn [pg.execute snd]; try (now exists more)).
  all: repeat match goal with
              | |- context [match jsonb.jsonb_in ?t with _ => _ end] =>
                destruct (jsonb.jsonb_in t)
              | |- context [if ?b then _ else _] => destruct b
              end; cbn [snd pg.users]; try (now exists more).
  rewrite H, <- app_assoc. now eexists.
Qed.

Section AccountsMore.

Variable generate : string -> Z -> nat -> string * option error.
Variable compare : string -> string -> option error.

(** What [loginUser] returns, by the rows of that name: the first one
    decides. *)
Lemma loginUser_result (username password : string) (w : World) :
  fst (loginUser compare username password w) =
  match rows_named username (store w) with
  | [] => (0, "", Some (errors_New MsgUserNotFound))
  | r :: _ =>
    match compare (pg.users_password_hash r) password with
    | None => (pg.users_id r, pg.users_role r, None)
    | Some _ => (0, "", Some (errors_New MsgWrongPassword))
    end
  end.
Proof.
  unfold loginUser. go_run. cbn [pg.execute].
  fold (rows_named username (store w)).
  destruct (rows_named username (store w)) as [|r rest]; cbn [map]; go_world;
    [reflexivity|].
  cbn [sql.scan_int sql.scan_string or_else User_PasswordHash User_ID User_Role].
  unfold checkPasswordHash.
  destruct (compare (pg.users_password_hash r) password); reflexivity.
Qed.

(** A login that succeeds returns the key of the one row of that name,
    whose hash the password matches; the role it returns is [user],
    whoever logs in: no statement of the program gives another. *)
Theorem loginUser_success :
  forall (username password role : string) (id : Z) (w w' : World),
    schema_holds (store w) ->
    loginUser compare username password w = ((id, role, None), w') ->
    role = "user" /\
    exists hash,
      rows_named username (store w) = [pg.mk_user id username hash "user"] /\
      compare hash password = None.
Proof.
  intros username password role id w w' [_ [Hnames [Hroles _]]] Hlogin.
  assert (R : fst (loginUser compare username password w) = (id, role, None))
    by now rewrite Hlogin.
  rewrite loginUser_result in R.
  destruct (rows_named username (store w)) as [|r rest] eqn:Hrows; [discriminate|].
  destruct (filter_unique _ _ _ _ _ Hnames Hrows) as [-> [Hname Hin]].
  rewrite Forall_forall in Hroles. specialize (Hroles r Hin).
  destruct (compare (pg.users_password_hash r) password) eqn:Hc; [discriminate|].
  injection R as <- <-. split; [exact Hroles|].
  exists (pg.users_password_hash r). split; [|exact Hc].
  destruct r as [i n h ro]. cbn in *. now subst.
Qed.

(** What [registerUser] does to the table, whatever it returns: rows are
    added at the end, none is changed or removed. *)
Lemma registerUser_grows (username password : string) (w : World) :
  exists more,
    pg.users (store (snd (registerUser generate username password w))) =
    pg.users (store w) ++ more.
Proof.
  assert (K : keeps (fun st => extends (pg.users (store w)) (pg.users st))
                (registerUser generate username password)).
  { unfold registerUser, hashPassword. keeps_by execute_users_extend. }
  apply K. exists []. now rewrite app_nil_r.
Qed.

(** A login that succeeds keeps succeeding, with the same key and role,
    after any call of [registerUser], for whatever name and whether it
    succeeds or not. *)
Theorem loginUser_stable :
  forall (username password role other secret : string) (id : Z) (w w' : World),
    loginUser compare username password w = ((id, role, None), w') ->
    exists w2,
      loginUser compare username password
        (snd (registerUser generate other secret w)) = ((id, role, None), w2).
Proof.
  intros username password role other secret id w w' Hlogin.
  assert (R : fst (loginUser compare username password w) = (id, role, None))
    by now rewrite Hlogin.
  rewrite loginUser_result in R.
  destruct (registerUser_grows other secret w) as [more Hrows].
  set (w1 := snd (registerUser generate other secret w)) in *.
  exists (snd (loginUser compare username password w1)).
  rewrite (surjective_pairing (loginUser compare username password w1)).
  f_equal. rewrite loginUser_result.
  unfold rows_named in *. rewrite Hrows, filter_app.
  destruct (filter _ (pg.users (store w))) as [|r rest]; [discriminate|].
  exact R.
Qed.


End AccountsMore.

Lemma alice_world_schema : schema_holds (store alice_world).
Proof.
  unfold schema_holds. cbn.
  repeat split; repeat constructor; cbn; tauto.
Qed.

(** Witness: the constraints after Acme is added to the empty store. *)
Lemma repository_keeps_schema_witness :
  schema_holds (store (snd (addCompany "Acme" initial_world))).
Proof.
  apply (proj1 (proj2 (proj2 (proj2
           (repository_keeps_schema plainhash.GenerateFromPassword
              plainhash.CompareHashAndPassword))))).
  exact empty_schema_holds.
Defined.

(** Witness: alice logs in. *)
Lemma loginUser_success_witness :
  "user" = "user" /\
  exists hash,
    rows_named "alice" (store alice_world) = [pg.mk_user 1 "alice" hash "user"] /\
    plainhash.CompareHashAndPassword hash "secret1" = None.
Proof.
  apply (loginUser_success plainhash.CompareHashAndPassword
           "alice" "secret1" "user" 1 alice_world
           (snd (loginUser plainhash.CompareHashAndPassword "alice" "secret1" alice_world))).
  - exact alice_world_schema.
  - reflexivity.
Defined.

(** Witness: alice logs in after bob has registered. *)
Lemma loginUser_stable_witness :
  exists w2,
    loginUser plainhash.CompareHashAndPassword "alice" "secret1"
      (snd (registerUser plainhash.GenerateFromPassword "bob" "secret2" alice_world)) =
    ((1, "user", None), w2).
Proof.
  apply (loginUser_stable plainhash.GenerateFromPassword plainhash.CompareHashAndPassword
           "alice" "secret1" "user" "bob" "secret2" 1 alice_world
           (snd (loginUser plainhash.CompareHashAndPassword "alice" "secret1" alice_world))).
  reflexivity.
Defined.


(* ================================================================= *)
(** * The console: numbers *)

Lemma is_digit_byte (c : ascii) :
  jsontext.is_digit c = true <-> 48 <= byte c <= 57.
Proof. unfold jsontext.is_digit. rewrite andb_true_iff, !Z.leb_le. tauto. Qed.

Lemma digit_wraps (c : ascii) :
  (9 <? (byte c - 48) mod 256) = negb (jsontext.is_digit c) /\
  (jsontext.is_digit c = true -> (byte c - 48) mod 256 = byte c - 48).
Proof.
  pose proof (byte_range c) as Hb. unfold jsontext.is_digit.
  destruct (48 <=? byte c) eqn:E1; destruct (byte c <=? 57) eqn:E2;
    cbn [andb negb]; rewrite ?Z.leb_le, ?Z.leb_gt in *.
  - split; [apply Z.ltb_ge | intros _]; rewrite Z.mod_small; lia.
  - split; [apply Z.ltb_lt | discriminate]. rewrite Z.mod_small; lia.
  - split; [apply Z.ltb_lt | discriminate].
    replace (byte c - 48) with (byte c + 208 + (-1) * 256) by lia.
    rewrite Z.mod_add by lia. rewrite Z.mod_small; lia.
  - lia.
Qed.

Lemma Atoi_loop_spec (s : string) :
  forall n, strconv.Atoi_loop s n =
            if all_bytes jsontext.is_digit s then Some (digits_value s n) else None.
Proof.
  induction s as [|c t IH]; intros n; cbn [strconv.Atoi_loop all_bytes digits_value];
    [reflexivity|].
  destruct (digit_wraps c) as [E V]. rewrite E.
  destruct (jsontext.is_digit c); cbn [negb andb]; [|reflexivity].
  rewrite (V eq_refl). apply IH.
Qed.

Lemma digits_value_bounds (s : string) :
  all_bytes jsontext.is_digit s = true ->
  forall n, 0 <= n ->
    n <= digits_value s n < (n + 1) * 10 ^ Z.of_nat (String.length s).
Proof.
  induction s as [|c t IH]; cbn [all_bytes digits_value String.length]; intros Hd n Hn.
  - cbn. lia.
  - apply andb_true_iff in Hd. destruct Hd as [Hc Ht].
    apply is_digit_byte in Hc.
    specialize (IH Ht (n * 10 + (byte c - 48)) ltac:(lia)).
    rewrite Nat2Z.inj_succ, Z.pow_succ_r by lia.
    assert (0 < 10 ^ Z.of_nat (String.length t)) by (apply Z.pow_pos_nonneg; lia).
    nia.
Qed.

(** [ParseUint] on digits: the value, or the range error when the value
    does not fit 64 bits. *)
Lemma ParseUint_loop_digits (s : string) :
  all_bytes jsontext.is_digit s = true ->
  forall n, 0 <= n <= strconv.maxUint64 ->
    strconv.ParseUint_loop s n =
    if digits_value s n <=? strconv.maxUint64 then (digits_value s n, None)
    else (strconv.maxUint64, Some strconv.ErrRange).
Proof.
  induction s as [|c t IH]; cbn [all_bytes digits_value strconv.ParseUint_loop];
    intros Hd n Hn.
  - destruct (Z.leb_spec n strconv.maxUint64); [reflexivity | lia].
  - apply andb_true_iff in Hd. destruct Hd as [Hc Ht].
    pose proof (proj1 (is_digit_byte c) Hc) as Hb.
    assert (E1 : (48 <=? byte c) && (byte c <=? 57) = true)
      by (apply andb_true_iff; rewrite !Z.leb_le; lia).
    rewrite E1.
    assert (E2 : (10 <=? byte c - 48) = false) by (apply Z.leb_gt; lia).
    rewrite E2.
    pose proof (digits_value_bounds t Ht (n * 10 + (byte c - 48)) ltac:(lia)) as Hv.
    unfold strconv.maxUint64 in *.
    change (2 ^ 64 - 1) with 18446744073709551615 in *.
    change (18446744073709551615 / 10 + 1) with 1844674407370955162.
    destruct (Z.leb_spec 1844674407370955162 n) as [Hcut|Hcut].
    { destruct (Z.leb_spec (digits_value t (n * 10 + (byte c - 48)))
                  18446744073709551615); [lia | reflexivity]. }
    unfold strconv.uint64. change (2 ^ 64) with 18446744073709551616.
    rewrite (Z.mod_small (n * 10)) by lia.
    destruct (Z_lt_le_dec (n * 10 + (byte c - 48)) 18446744073709551616) as [Hfit|Hover].
    + rewrite (Z.mod_small (n * 10 + (byte c - 48))) by lia.
      assert (E3 : (n * 10 + (byte c - 48) <? n * 10) = false) by (apply Z.ltb_ge; lia).
      assert (E4 : (18446744073709551615 <? n * 10 + (byte c - 48)) = false)
        by (apply Z.ltb_ge; lia).
      rewrite E3, E4. cbn [orb]. apply IH; [exact Ht | lia].
    + assert (E3 : ((n * 10 + (byte c - 48)) mod 18446744073709551616 <? n * 10) = true).
      { apply Z.ltb_lt.
        replace (n * 10 + (byte c - 48))
          with (n * 10 + (byte c - 48) - 18446744073709551616 + 1 * 18446744073709551616)
          by lia.
        rewrite Z.mod_add by lia. rewrite Z.mod_small; lia. }
      rewrite E3. cbn [orb].
      destruct (Z.leb_spec (digits_value t (n * 10 + (byte c - 48)))
                  18446744073709551615); [lia | reflexivity].
Qed.

(** [ParseUint] on a text with a byte that is no digit: an error, the
    syntax error or, when the digits before that byte are already too
    many, the range error. *)
Lemma ParseUint_loop_other (s : string) :
  all_bytes jsontext.is_digit s = false ->
  forall n,
    strconv.ParseUint_loop s n = (0, Some strconv.ErrSyntax) \/
    strconv.ParseUint_loop s n = (strconv.maxUint64, Some strconv.ErrRange).
Proof.
  induction s as [|c t IH]; cbn [all_bytes strconv.ParseUint_loop]; intros Hd n;
    [discriminate|].
  unfold jsontext.is_digit in Hd.
  destruct ((48 <=? byte c) && (byte c <=? 57)) eqn:E1; cbn [andb] in Hd.
  - destruct (10 <=? byte c - 48); [now left|].
    destruct (_ <=? n); [now right|].
    destruct (_ || _); [now right|]. now apply IH.
  - destruct ((97 <=? strconv.lower (byte c)) && (strconv.lower (byte c) <=? 122)) eqn:E2;
      [|now left].
    apply andb_true_iff in E2. destruct E2 as [E2 _]. apply Z.leb_le in E2.
    assert (E3 : (10 <=? strconv.lower (byte c) - 97 + 10) = true) by (apply Z.leb_le; lia).
    rewrite E3. now left.
Qed.

Lemma int64_small (z : Z) : - 2 ^ 63 <= z < 2 ^ 63 -> strconv.int64 z = z.
Proof.
  intros H. unfold strconv.int64.
  change (2 ^ 63) with 9223372036854775808 in *.
  change (2 ^ 64) with 18446744073709551616.
  rewrite Z.mod_small; lia.
Qed.

Lemma int64_min : strconv.int64 (2 ^ 63) = - 2 ^ 63.
Proof. reflexivity. Qed.


Lemma ParseUint_spec (s : string) :
  match digits_of s with
  | Some v =>
    strconv.ParseUint s =
    if v <=? strconv.maxUint64 then (v, None)
    else (strconv.maxUint64, Some (strconv.rangeError "ParseUint" s))
  | None =>
    strconv.ParseUint s = (0, Some (strconv.syntaxError "ParseUint" s)) \/
    strconv.ParseUint s = (strconv.maxUint64, Some (strconv.rangeError "ParseUint" s))
  end.
Proof.
  destruct s as [|c t]; [now left|].
  unfold digits_of, strconv.ParseUint.
  destruct (all_bytes jsontext.is_digit (String c t)) eqn:Hd.
  - rewrite (ParseUint_loop_digits _ Hd 0) by (unfold strconv.maxUint64; lia).
    destruct (_ <=? _); reflexivity.
  - destruct (ParseUint_loop_other _ Hd 0) as [-> | ->]; [now left | now right].
Qed.

Lemma digits_of_nonneg (s : string) (v : Z) : digits_of s = Some v -> 0 <= v.
Proof.
  destruct s as [|c t]; [discriminate|]. unfold digits_of.
  destruct (all_bytes jsontext.is_digit (String c t)) eqn:Hd; [|discriminate].
  intros H. assert (E : v = digits_value (String c t) 0) by congruence.
  pose proof (digits_value_bounds _ Hd 0 ltac:(lia)). lia.
Qed.

(** [ParseInt] after the sign: the value when it is that of an [int],
    the range error when it is not, an error when the text is not made
    of digits. *)
Lemma ParseInt_unsigned_spec (s0 : string) (neg : bool) (s : string) :
  match (if neg then option_map Z.opp (digits_of s) else digits_of s) with
  | Some z =>
    if is_int z then strconv.ParseInt_unsigned s0 neg s = (z, None)
    else exists v,
        strconv.ParseInt_unsigned s0 neg s = (v, Some (strconv.rangeError "ParseInt" s0))
  | None =>
    exists v kind,
      strconv.ParseInt_unsigned s0 neg s =
      (v, Some (strconv.mk_NumError "ParseInt" s0 kind))
  end.
Proof.
  pose proof (ParseUint_spec s) as P. pose proof (digits_of_nonneg s) as N.
  unfold strconv.ParseInt_unsigned.
  destruct (digits_of s) as [v|].
  - specialize (N v eq_refl). rewrite P. clear P.
    unfold strconv.maxUint64, strconv.IntSize, is_int.
    change (2 ^ (64 - 1)) with 9223372036854775808.
    change (2 ^ 64 - 1) with 18446744073709551615.
    change (2 ^ 63) with 9223372036854775808.
    destruct neg; cbn [option_map negb andb].
    + destruct (Z.leb_spec v 18446744073709551615) as [Hfit|Hover];
        cbn [strconv.Err strconv.rangeError].
      * destruct (Z.ltb_spec 9223372036854775808 v) as [Hbig|Hok].
        { assert (E : (- (9223372036854775808) <=? - v) = false) by (apply Z.leb_gt; lia).
          rewrite E. cbn [andb]. now eexists. }
        assert (E : (- (9223372036854775808) <=? - v) && (- v <? 9223372036854775808) = true).
        { apply andb_true_iff. rewrite Z.leb_le, Z.ltb_lt. lia. }
        rewrite E. f_equal.
        destruct (Z.eq_dec v 9223372036854775808) as [->|Hne]; [reflexivity|].
        rewrite (int64_small v) by (change (2 ^ 63) with 9223372036854775808; lia).
        apply int64_small. change (2 ^ 63) with 9223372036854775808. lia.
      * assert (E : (- (9223372036854775808) <=? - v) = false) by (apply Z.leb_gt; lia).
        rewrite E. cbn [andb]. now eexists.
    + destruct (Z.leb_spec v 18446744073709551615) as [Hfit|Hover];
        cbn [strconv.Err strconv.rangeError].
      * destruct (Z.leb_spec 9223372036854775808 v) as [Hbig|Hok].
        { assert (E : (v <? 9223372036854775808) = false) by (apply Z.ltb_ge; lia).
          rewrite E, andb_false_r. now eexists. }
        assert (E : (- (9223372036854775808) <=? v) && (v <? 9223372036854775808) = true).
        { apply andb_true_iff. rewrite Z.leb_le, Z.ltb_lt. lia. }
        rewrite E. f_equal.
        apply int64_small. change (2 ^ 63) with 9223372036854775808. lia.
      * assert (E : (v <? 9223372036854775808) = false) by (apply Z.ltb_ge; lia).
        rewrite E, andb_false_r. now eexists.
  - assert (E : (if neg then option_map Z.opp (@None Z) else None) = None)
      by now destruct neg.
    rewrite E. destruct P as [-> | ->]; cbn [strconv.Err strconv.syntaxError strconv.rangeError].
    + now eexists; eexists.
    + destruct neg; cbn; now eexists; eexists.
Qed.

Lemma ParseInt_spec (s : string) :
  match numeral s with
  | Some z =>
    if is_int z then strconv.ParseInt s = (z, None)
    else exists v, strconv.ParseInt s = (v, Some (strconv.rangeError "ParseInt" s))
  | None =>
    exists v kind, strconv.ParseInt s = (v, Some (strconv.mk_NumError "ParseInt" s kind))
  end.
Proof.
  destruct s as [|c t]; [now eexists; eexists|].
  unfold numeral, strconv.ParseInt.
  destruct (Ascii.eqb c "+") eqn:Eplus.
  - apply Ascii.eqb_eq in Eplus. subst c. cbn [Ascii.eqb Bool.eqb andb].
    exact (ParseInt_unsigned_spec _ false t).
  - destruct (Ascii.eqb c "-") eqn:Eminus.
    + exact (ParseInt_unsigned_spec _ true t).
    + exact (ParseInt_unsigned_spec _ false (String c t)).
Qed.

Lemma pow10_18 (n : nat) : (n <= 18)%nat -> 10 ^ Z.of_nat n <= 10 ^ 18.
Proof. intros H. apply Z.pow_le_mono_r; lia. Qed.

(** The digits of a short text are those of an [int]. *)
Lemma digits_of_short (s : string) (v : Z) :
  (String.length s <= 18)%nat -> digits_of s = Some v ->
  is_int v = true /\ is_int (- v) = true.
Proof.
  intros Hlen H. destruct s as [|c t]; [discriminate|]. unfold digits_of in H.
  destruct (all_bytes jsontext.is_digit (String c t)) eqn:Hd; [|discriminate].
  assert (E : v = digits_value (String c t) 0) by congruence.
  pose proof (digits_value_bounds _ Hd 0 ltac:(lia)) as B.
  pose proof (pow10_18 _ Hlen) as P.
  change (10 ^ 18) with 1000000000000000000 in P.
  unfold is_int. change (2 ^ 63) with 9223372036854775808.
  rewrite !andb_true_iff, !Z.leb_le, !Z.ltb_lt. lia.
Qed.

Lemma Atoi_loop_digits_of (c : ascii) (t : string) :
  strconv.Atoi_loop (String c t) 0 = digits_of (String c t).
Proof. now rewrite Atoi_loop_spec. Qed.

(** [Atoi] reads the decimal numerals: it returns the value of a numeral
    that is the value of an [int], the range error for any other
    numeral, and an error for a text that is no numeral. *)
Lemma Atoi_spec (s : string) :
  match numeral s with
  | Some z =>
    if is_int z then strconv.Atoi s = (z, None)
    else exists v, strconv.Atoi s = (v, Some (strconv.rangeError "Atoi" s))
  | None =>
    exists v kind, strconv.Atoi s = (v, Some (strconv.mk_NumError "Atoi" s kind))
  end.
Proof.
  unfold strconv.Atoi.
  destruct ((0 <? String.length s) && (String.length s <? 19))%nat eqn:Epath.
  - apply andb_true_iff in Epath. destruct Epath as [_ Hlen].
    apply Nat.ltb_lt in Hlen.
    destruct s as [|c t]; [now eexists; eexists|].
    cbn [String.length] in Hlen. unfold numeral.
    destruct (Ascii.eqb c "-") eqn:Eminus; cbn [orb].
    + destruct t as [|c' t']; [now eexists; eexists|].
      cbn [String.length Nat.ltb Nat.leb andb].
      rewrite Atoi_loop_digits_of.
      pose proof (digits_of_short (String c' t')) as S.
      destruct (digits_of (String c' t')) as [v|]; cbn [option_map];
        [|now eexists; eexists].
      destruct (S v ltac:(cbn [String.length] in *; lia) eq_refl) as [_ ->].
      reflexivity.
    + destruct (Ascii.eqb c "+") eqn:Eplus; cbn [andb].
      * destruct t as [|c' t']; [now eexists; eexists|].
        cbn [String.length Nat.ltb Nat.leb].
        rewrite Atoi_loop_digits_of.
        pose proof (digits_of_short (String c' t')) as S.
        destruct (digits_of (String c' t')) as [v|]; [|now eexists; eexists].
        destruct (S v ltac:(cbn [String.length] in *; lia) eq_refl) as [-> _].
        reflexivity.
      * rewrite Atoi_loop_digits_of.
        pose proof (digits_of_short (String c t)) as S.
        destruct (digits_of (String c t)) as [v|]; [|now eexists; eexists].
        destruct (S v ltac:(cbn [String.length] in *; lia) eq_refl) as [-> _].
        reflexivity.
  - pose proof (ParseInt_spec s) as P.
    destruct (numeral s) as [z|].
    + destruct (is_int z).
      * now rewrite P.
      * destruct P as [v ->]. now eexists.
    + destruct P as [v [kind ->]]. now eexists; eexists.
Qed.

(** ** [getIntInput] *)

Lemma getInput_run (prompt : string) (w : World) :
  getInput prompt w =
  (strings.TrimSpace (hd "" (stdin w)),
   mk_world (store w) (wire w) (entropy w) (tl (stdin w)) (stdout w ++ [prompt])).
Proof.
  unfold getInput, fmt_Print, ReadString, bind, ret. go_world.
  destruct (stdin w); reflexivity.
Qed.

(** [getIntInput] prints the prompt, takes one line and reads it,
    trimmed, as a decimal numeral: an optional sign and digits.  It
    returns the value when that is the value of an [int]; for any other
    line it returns 0 and the error of [strconv.Atoi], wrapped: the range
    error for a numeral too large, the syntax error for the empty
    line. *)
Theorem getIntInput_numeral :
  forall (prompt : string) (w : World),
    let line := strings.TrimSpace (hd "" (stdin w)) in
    snd (getIntInput prompt w) =
      mk_world (store w) (wire w) (entropy w) (tl (stdin w)) (stdout w ++ [prompt]) /\
    (forall z, numeral line = Some z -> is_int z = true ->
               fst (getIntInput prompt w) = (z, None)) /\
    (forall z, numeral line = Some z -> is_int z = false ->
               fst (getIntInput prompt w) =
               (0, Some (invalid_integer (strconv.rangeError "Atoi" line)))) /\
    (numeral line = None ->
     exists kind,
       fst (getIntInput prompt w) =
       (0, Some (invalid_integer (strconv.mk_NumError "Atoi" line kind)))) /\
    (line = "" ->
     fst (getIntInput prompt w) =
     (0, Some (invalid_integer (strconv.syntaxError "Atoi" "")))).
Proof.
  intros prompt w line. unfold getIntInput, bind. rewrite getInput_run. fold line.
  pose proof (Atoi_spec line) as A.
  repeat match goal with |- _ /\ _ => split end.
  - destruct (strconv.Atoi line) as [num [e|]]; reflexivity.
  - intros z Hz Hi. rewrite Hz, Hi in A. now rewrite A.
  - intros z Hz Hi. rewrite Hz, Hi in A. destruct A as [v ->]. reflexivity.
  - intros Hz. rewrite Hz in A. destruct A as [v [kind ->]]. now exists kind.
  - intros ->. reflexivity.
Qed.

(** Witness: the lines 42, a numeral of 20 digits, and 4x. *)
Lemma getIntInput_numeral_witness :
  fst (getIntInput "> " (mk_world pg.empty [] 0 [" 42" +++ str1 (chr 10)] [])) = (42, None) /\
  fst (getIntInput "> " (mk_world pg.empty [] 0 ["99999999999999999999"] [])) =
    (0, Some (invalid_integer (strconv.rangeError "Atoi" "99999999999999999999"))) /\
  (exists kind,
     fst (getIntInput "> " (mk_world pg.empty [] 0 ["4x"] [])) =
     (0, Some (invalid_integer (strconv.mk_NumError "Atoi" "4x" kind)))) /\
  fst (getIntInput "> " (mk_world pg.empty [] 0 [] [])) =
    (0, Some (invalid_integer (strconv.syntaxError "Atoi" ""))).
Proof.
  repeat match goal with |- _ /\ _ => split end.
  - apply (proj1 (proj2 (getIntInput_numeral "> "
             (mk_world pg.empty [] 0 [" 42" +++ str1 (chr 10)] []))) 42);
      reflexivity.
  - apply (proj1 (proj2 (proj2 (getIntInput_numeral "> "
             (mk_world pg.empty [] 0 ["99999999999999999999"] []))))
             99999999999999999999);
      reflexivity.
  - apply (proj1 (proj2 (proj2 (proj2 (getIntInput_numeral "> "
             (mk_world pg.empty [] 0 ["4x"] [])))))).
    reflexivity.
  - apply (proj2 (proj2 (proj2 (proj2 (getIntInput_numeral "> "
             (mk_world pg.empty [] 0 [] [])))))).
    reflexivity.
Defined.

(** ** What [%d] prints, [getIntInput] reads *)

Lemma digits_value_app (a b : string) :
  forall n, digits_value (a +++ b) n = digits_value b (digits_value a n).
Proof. induction a as [|c a IH]; intros n; cbn; [reflexivity | apply IH]. Qed.

Lemma fmt_digits_S (f : nat) (u : Z) (buf : string) :
  fmt_digits (S f) u buf =
  if 10 <=? u then fmt_digits f (u / 10) (String (chr (48 + u - u / 10 * 10)) buf)
  else String (chr (48 + u)) buf.
Proof. reflexivity. Qed.

Lemma fmt_digits_spec (fuel : nat) :
  forall (u : Z) (buf : string),
    0 <= u < 10 ^ Z.of_nat (S fuel) ->
    exists c D,
      fmt_digits (S fuel) u buf = String c D +++ buf /\
      all_bytes jsontext.is_digit (String c D) = true /\
      digits_value (String c D) 0 = u.
Proof.
  assert (Last : forall u buf, 0 <= u < 10 ->
    exists c D,
      String (chr (48 + u)) buf = String c D +++ buf /\
      all_bytes jsontext.is_digit (String c D) = true /\
      digits_value (String c D) 0 = u).
  { intros u buf Hu. exists (chr (48 + u)), "". repeat split.
    - cbn [all_bytes andb]. rewrite andb_true_r. apply is_digit_byte.
      rewrite byte_chr; lia.
    - cbn [digits_value]. rewrite byte_chr; lia. }
  induction fuel as [|f IH]; intros u buf Hu.
  - change (10 ^ Z.of_nat 1) with 10 in Hu. cbn [fmt_digits].
    destruct (Z.leb_spec 10 u) as [Hbig|Hsmall]; [lia|]. apply Last. lia.
  - rewrite fmt_digits_S.
    destruct (Z.leb_spec 10 u) as [Hbig|Hsmall]; [|apply Last; lia].
    rewrite Nat2Z.inj_succ, Z.pow_succ_r in Hu by lia.
    assert (Hn : 0 <= u / 10 < 10 ^ Z.of_nat (S f)).
    { split; [apply Z.div_pos; lia|]. apply Z.div_lt_upper_bound; lia. }
    destruct (IH (u / 10) (String (chr (48 + u - u / 10 * 10)) buf) Hn)
      as [c [D [E [Hd Hv]]]].
    exists c, (D +++ str1 (chr (48 + u - u / 10 * 10))).
    assert (Hb : byte (chr (48 + u - u / 10 * 10)) = 48 + u - u / 10 * 10).
    { apply byte_chr. pose proof (Z.mod_pos_bound u 10 ltac:(lia)).
      pose proof (Z.div_mod u 10 ltac:(lia)). lia. }
    repeat split.
    + rewrite E. cbn [String.append]. f_equal. now rewrite append_assoc.
    + change (String c (D +++ str1 (chr (48 + u - u / 10 * 10))))
        with (String c D +++ str1 (chr (48 + u - u / 10 * 10))).
      rewrite all_bytes_app, Hd. cbn [all_bytes andb str1].
      rewrite andb_true_r. apply is_digit_byte. rewrite Hb.
      pose proof (Z.mod_pos_bound u 10 ltac:(lia)).
      pose proof (Z.div_mod u 10 ltac:(lia)). lia.
    + change (String c (D +++ str1 (chr (48 + u - u / 10 * 10))))
        with (String c D +++ str1 (chr (48 + u - u / 10 * 10))).
      rewrite digits_value_app, Hv. cbn [digits_value str1]. rewrite Hb. lia.
Qed.

Lemma digit_is_no_sign (c : ascii) :
  jsontext.is_digit c = true -> Ascii.eqb c "-" = false /\ Ascii.eqb c "+" = false.
Proof.
  intros H. apply is_digit_byte in H.
  split; apply Ascii.eqb_neq; intros ->; cbn in H; lia.
Qed.

Lemma numeral_fmt_d (z : Z) : is_int z = true -> numeral (fmt_d z) = Some z.
Proof.
  unfold is_int. rewrite andb_true_iff, Z.leb_le, Z.ltb_lt.
  change (2 ^ 63) with 9223372036854775808. intros Hz.
  unfold fmt_d, strconv.uint64, strconv.int64.
  change (2 ^ 63) with 9223372036854775808.
  change (2 ^ 64) with 18446744073709551616.
  destruct (Z_lt_le_dec z 0) as [Hneg|Hpos].
  - assert (E1 : z mod 18446744073709551616 = z + 18446744073709551616).
    { replace z with (z + 18446744073709551616 + (-1) * 18446744073709551616) at 1 by lia.
      rewrite Z.mod_add by lia. apply Z.mod_small. lia. }
    rewrite E1.
    assert (E2 : (z + 18446744073709551616 + 9223372036854775808) mod 18446744073709551616
                 = z + 9223372036854775808).
    { replace (z + 18446744073709551616 + 9223372036854775808)
        with (z + 9223372036854775808 + 1 * 18446744073709551616) by lia.
      rewrite Z.mod_add by lia. apply Z.mod_small. lia. }
    rewrite E2.
    assert (E3 : (z + 9223372036854775808 - 9223372036854775808 <? 0) = true)
      by (apply Z.ltb_lt; lia).
    rewrite E3.
    assert (E4 : (- (z + 18446744073709551616)) mod 18446744073709551616 = - z).
    { replace (- (z + 18446744073709551616))
        with (- z + (-1) * 18446744073709551616) by lia.
      rewrite Z.mod_add by lia. apply Z.mod_small. lia. }
    rewrite E4.
    destruct (fmt_digits_spec 19 (- z) "") as [c [D [E [Hd Hv]]]].
    { change (10 ^ Z.of_nat 20) with 100000000000000000000. lia. }
    rewrite E, append_empty_r. cbn [numeral Ascii.eqb Bool.eqb andb].
    unfold digits_of. rewrite Hd, Hv. cbn [option_map]. f_equal. lia.
  - rewrite (Z.mod_small z) by lia.
    rewrite (Z.mod_small (z + 9223372036854775808)) by lia.
    assert (E3 : (z + 9223372036854775808 - 9223372036854775808 <? 0) = false)
      by (apply Z.ltb_ge; lia).
    rewrite E3.
    destruct (fmt_digits_spec 19 z "") as [c [D [E [Hd Hv]]]].
    { change (10 ^ Z.of_nat 20) with 100000000000000000000. lia. }
    rewrite E, append_empty_r. unfold numeral.
    assert (Hc : jsontext.is_digit c = true).
    { cbn [all_bytes] in Hd. apply andb_true_iff in Hd. exact (proj1 Hd). }
    destruct (digit_is_no_sign c Hc) as [-> ->].
    unfold digits_of. now rewrite Hd, Hv.
Qed.

(** ** [strings.TrimSpace] on a tidy text between white space *)

Lemma asciiSpace_low (b : Z) : strings.asciiSpace b = true -> b < 0x80.
Proof.
  unfold strings.asciiSpace. rewrite !orb_true_iff, !Z.eqb_eq. lia.
Qed.

Lemma TrimSpace_spaces (p s : string) :
  spaces p = true -> strings.TrimSpace (p +++ s) = strings.TrimSpace s.
Proof.
  induction p as [|c p IH]; [reflexivity|]. unfold spaces. cbn [all_bytes].
  rewrite andb_true_iff. intros [Hc Hp]. cbn [String.append strings.TrimSpace].
  pose proof (asciiSpace_low _ Hc) as Hlow.
  assert (E : (utf8.RuneSelf <=? byte c) = false)
    by (apply Z.leb_gt; unfold utf8.RuneSelf; lia).
  rewrite E, Hc. now apply IH.
Qed.

Lemma TrimSpace_stop_spaces (p r : string) :
  spaces p = true -> strings.TrimSpace_stop (p +++ r) = strings.TrimSpace_stop r.
Proof.
  induction p as [|c p IH]; [reflexivity|]. unfold spaces. cbn [all_bytes].
  rewrite andb_true_iff. intros [Hc Hp]. cbn [String.append strings.TrimSpace_stop].
  pose proof (asciiSpace_low _ Hc) as Hlow.
  assert (E : (utf8.RuneSelf <=? byte c) = false)
    by (apply Z.leb_gt; unfold utf8.RuneSelf; lia).
  rewrite E, Hc. now apply IH.
Qed.

Lemma all_bytes_rev (p : ascii -> bool) (s : string) :
  all_bytes p (rev s) = all_bytes p s.
Proof.
  induction s as [|c s IH]; [reflexivity|].
  rewrite rev_cons, all_bytes_app, IH. cbn [all_bytes str1].
  rewrite andb_true_r. apply andb_comm.
Qed.

Lemma rev_last_byte (t : string) :
  forall c, exists u, rev (String c t) = String (last_byte t c) u.
Proof.
  induction t as [|c' t IH]; intros c.
  - now exists "".
  - destruct (IH c') as [u E]. rewrite rev_cons, E.
    cbn [last_byte String.append]. now eexists.
Qed.

Lemma solid_spec (c : ascii) :
  solid c = true ->
  (utf8.RuneSelf <=? byte c) = false /\ strings.asciiSpace (byte c) = false.
Proof.
  unfold solid. rewrite andb_true_iff, Z.ltb_lt, negb_true_iff.
  intros [H1 H2]. split; [apply Z.leb_gt; exact H1 | exact H2].
Qed.

(** [TrimSpace] gives back a tidy text from between white space. *)
Lemma TrimSpace_tidy (before s after : string) :
  spaces before = true -> spaces after = true -> tidy s = true ->
  strings.TrimSpace (before +++ s +++ after) = s.
Proof.
  intros Hb Ha Hs. rewrite (TrimSpace_spaces _ _ Hb).
  destruct s as [|c t].
  - cbn [String.append]. rewrite <- (append_empty_r after).
    now rewrite (TrimSpace_spaces _ _ Ha).
  - cbn [tidy] in Hs. apply andb_true_iff in Hs. destruct Hs as [Hc Hl].
    destruct (solid_spec _ Hc) as [E1 E2].
    cbn [String.append strings.TrimSpace]. rewrite E1, E2.
    change (String c (t +++ after)) with (String c t +++ after).
    rewrite rev_app, TrimSpace_stop_spaces
      by (unfold spaces; now rewrite all_bytes_rev).
    destruct (rev_last_byte t c) as [u E]. rewrite E.
    destruct (solid_spec _ Hl) as [E3 E4].
    cbn [strings.TrimSpace_stop]. rewrite E3, E4, <- E. apply rev_involutive.
Qed.

Lemma fmt_d_tidy (z : Z) : is_int z = true -> tidy (fmt_d z) = true.
Proof.
  intros Hz. pose proof (numeral_fmt_d z Hz) as N.
  assert (D : forall s v, digits_of s = Some v -> tidy s = true).
  { intros s v. destruct s as [|c t]; [reflexivity|]. unfold digits_of.
    destruct (all_bytes jsontext.is_digit (String c t)) eqn:Hd; [intros _|discriminate].
    assert (L : forall t c, all_bytes jsontext.is_digit (String c t) = true ->
                            jsontext.is_digit (last_byte t c) = true).
    { clear. induction t as [|c' t IH]; intros c H; cbn [all_bytes] in H;
        apply andb_true_iff in H; destruct H as [H1 H2]; [exact H1|].
      cbn [last_byte]. now apply IH. }
    assert (S : forall c, jsontext.is_digit c = true -> solid c = true).
    { clear. intros c H. apply is_digit_byte in H. unfold solid, strings.asciiSpace.
      apply andb_true_iff. split; [apply Z.ltb_lt; unfold utf8.RuneSelf; lia|].
      apply negb_true_iff. rewrite !orb_false_iff, !Z.eqb_neq. lia. }
    cbn [tidy]. apply andb_true_iff. split; apply S.
    - cbn [all_bytes] in Hd. apply andb_true_iff in Hd. exact (proj1 Hd).
    - now apply L. }
  unfold numeral in N. destruct (fmt_d z) as [|c t]; [discriminate|].
  destruct (Ascii.eqb c "-") eqn:Em.
  - apply Ascii.eqb_eq in Em. subst c.
    destruct (digits_of t) as [v|] eqn:Ed; [|discriminate].
    specialize (D t v Ed). destruct t as [|c' t']; [discriminate|].
    cbn [tidy last_byte] in *. apply andb_true_iff in D. destruct D as [_ D].
    now rewrite D.
  - destruct (Ascii.eqb c "+") eqn:Ep.
    + apply Ascii.eqb_eq in Ep. subst c.
      destruct (digits_of t) as [v|] eqn:Ed; [|discriminate].
      specialize (D t v Ed). destruct t as [|c' t']; [discriminate|].
      cbn [tidy last_byte] in *. apply andb_true_iff in D. destruct D as [_ D].
      now rewrite D.
    + now apply (D _ z).
Qed.

(** A number that the program prints with [%d] can be typed back:
    [strconv.Atoi] reads it, and so does [getIntInput] from a line that
    has it between white space, such as the end of the line. *)
Theorem getIntInput_reads_printed :
  forall (z : Z),
    is_int z = true ->
    strconv.Atoi (fmt_d z) = (z, None) /\
    forall (prompt before after : string) (rest : list string) (w : World),
      spaces before = true -> spaces after = true ->
      stdin w = (before +++ fmt_d z +++ after) :: rest ->
      getIntInput prompt w =
        ((z, None),
         mk_world (store w) (wire w) (entropy w) rest (stdout w ++ [prompt])).
Proof.
  intros z Hz. pose proof (Atoi_spec (fmt_d z)) as A.
  rewrite (numeral_fmt_d z Hz), Hz in A. split; [exact A|].
  intros prompt before after rest w Hb Ha Hin.
  unfold getIntInput, bind. rewrite getInput_run, Hin. cbn [hd tl].
  rewrite (TrimSpace_tidy _ _ _ Hb Ha (fmt_d_tidy z Hz)), A. reflexivity.
Qed.

(** Witness: the key -17 on a line of its own. *)
Lemma getIntInput_reads_printed_witness :
  strconv.Atoi (fmt_d (-17)) = (-17, None) /\
  forall (prompt before after : string) (rest : list string) (w : World),
    spaces before = true -> spaces after = true ->
    stdin w = (before +++ fmt_d (-17) +++ after) :: rest ->
    getIntInput prompt w =
      ((-17, None),
       mk_world (store w) (wire w) (entropy w) rest (stdout w ++ [prompt])).
Proof. apply (getIntInput_reads_printed (-17)). reflexivity. Defined.

(* ================================================================= *)
(** * The console and [main] *)

(** ** Whatever is typed, the store keeps its constraints *)

Section KeepsConsole.

Variable P : pg.Store -> Prop.
Hypothesis execute_keeps : forall q args st, P st -> P (snd (pg.execute q args st)).

Variable generate : string -> Z -> nat -> string * option error.
Variable compare : string -> string -> option error.
Variable ParseFloat : string -> float64 * option strconv.NumError.
Variable f2 : float64 -> string.
Variable library_Error : error -> string.
Variable NumError_Error : strconv.NumError -> string.

Lemma keeps_getInput prompt : keeps P (getInput prompt).
Proof. unfold getInput. keeps_by execute_keeps. Qed.

Lemma keeps_getIntInput prompt : keeps P (getIntInput prompt).
Proof.
  unfold getIntInput. keeps_by execute_keeps.
Qed.

Lemma keeps_getFloatInput prompt : keeps P (getFloatInput ParseFloat prompt).
Proof.
  unfold getFloatInput. keeps_by execute_keeps.
Qed.

Lemma keeps_getStringArrayInput prompt : keeps P (getStringArrayInput prompt).
Proof.
  unfold getStringArrayInput. apply keeps_bind; [apply keeps_getInput|].
  intros input. destruct (String.eqb input ""); apply keeps_ret.
Qed.

Lemma keeps_handleError {E} `{GoError E} (err : option E) : keeps P (handleError err).
Proof. destruct err; [apply keeps_fmt_Print | apply keeps_ret]. Qed.

Lemma keeps_for_range {A} (l : list A) (f : A -> M unit) :
  (forall x, keeps P (f x)) -> keeps P (for_range l f).
Proof.
  intros Hf. induction l as [|x l IH]; cbn [for_range]; [apply keeps_ret|].
  apply keeps_bind; [apply Hf | intros _; exact IH].
Qed.

Lemma keeps_registerUser username password :
  keeps P (registerUser generate username password).
Proof. unfold registerUser, hashPassword. keeps_by execute_keeps. Qed.

Lemma keeps_loginUser username password :
  keeps P (loginUser compare username password).
Proof. unfold loginUser. keeps_by execute_keeps. Qed.

Lemma keeps_addCompany name : keeps P (addCompany name).
Proof. unfold addCompany. keeps_by execute_keeps. Qed.

Lemma keeps_addCandidate candidate : keeps P (addCandidate candidate).
Proof. unfold addCandidate. keeps_by execute_keeps. Qed.

Lemma keeps_addJobOpening jobOpening : keeps P (addJobOpening jobOpening).
Proof. unfold addJobOpening. keeps_by execute_keeps. Qed.

Lemma keeps_findCandidatesBySkill skill : keeps P (findCandidatesBySkill skill).
Proof. unfold findCandidatesBySkill. keeps_by execute_keeps. Qed.

Lemma keeps_findJobOpeningsBySkill skill : keeps P (findJobOpeningsBySkill skill).
Proof. unfold findJobOpeningsBySkill. keeps_by execute_keeps. Qed.

Lemma keeps_createTables : keeps P createTables.
Proof. unfold createTables. keeps_by execute_keeps. Qed.

Lemma keeps_listAllJobOpenings_loop rows :
  keeps P (listAllJobOpenings_loop f2 rows).
Proof.
  induction rows as [|row rows IH]; cbn [listAllJobOpenings_loop]; [apply keeps_ret|].
  destruct (scan_job_opening row); [|apply keeps_ret].
  apply keeps_bind; [apply keeps_fmt_Print | intros _; exact IH].
Qed.

Lemma keeps_listAllJobOpenings : keeps P (listAllJobOpenings f2).
Proof.
  unfold listAllJobOpenings. keeps_by execute_keeps.
  all: first [apply keeps_listAllJobOpenings_loop | apply keeps_fmt_Print].
Qed.

Ltac keeps_console :=
  repeat lazymatch goal with
  | |- keeps _ (ret _) => apply keeps_ret
  | |- keeps _ (fmt_Print _) => apply keeps_fmt_Print
  | |- keeps _ (fmt_Println _) => apply keeps_fmt_Print
  | |- keeps _ (getInput _) => apply keeps_getInput
  | |- keeps _ (getIntInput _) => apply keeps_getIntInput
  | |- keeps _ (getFloatInput _ _) => apply keeps_getFloatInput
  | |- keeps _ (getStringArrayInput _) => apply keeps_getStringArrayInput
  | |- keeps _ (handleError _) => apply keeps_handleError
  | |- keeps _ (registerUser _ _ _) => apply keeps_registerUser
  | |- keeps _ (loginUser _ _ _) => apply keeps_loginUser
  | |- keeps _ (addCompany _) => apply keeps_addCompany
  | |- keeps _ (addCandidate _) => apply keeps_addCandidate
  | |- keeps _ (addJobOpening _) => apply keeps_addJobOpening
  | |- keeps _ (findCandidatesBySkill _) => apply keeps_findCandidatesBySkill
  | |- keeps _ (findJobOpeningsBySkill _) => apply keeps_findJobOpeningsBySkill
  | |- keeps _ (listAllJobOpenings _) => apply keeps_listAllJobOpenings
  | |- keeps _ (for_range _ _) => apply keeps_for_range; intros ?
  | |- keeps _ (bind _ _) => apply keeps_bind; [|intros ?]
  | |- keeps _ (match ?x with _ => _ end) => destruct x
  end.

Lemma keeps_print_menu : keeps P print_menu.
Proof. unfold print_menu. keeps_console. Qed.

Lemma keeps_register_case :
  keeps P (register_case generate library_Error).
Proof. unfold register_case. keeps_console. Qed.

Lemma keeps_login_case : keeps P (login_case compare library_Error).
Proof. unfold login_case. keeps_console. Qed.

Lemma keeps_company_case : keeps P (company_case library_Error).
Proof. unfold company_case. keeps_console. Qed.

Lemma keeps_candidate_case :
  keeps P (candidate_case library_Error NumError_Error).
Proof. unfold candidate_case. keeps_console. Qed.

Lemma keeps_job_opening_case :
  keeps P (job_opening_case ParseFloat library_Error NumError_Error).
Proof. unfold job_opening_case. keeps_console. Qed.

Lemma keeps_find_candidates_case : keeps P (find_candidates_case library_Error).
Proof. unfold find_candidates_case. keeps_console. Qed.

Lemma keeps_find_job_openings_case : keeps P (find_job_openings_case library_Error).
Proof. unfold find_job_openings_case. keeps_console. Qed.

Lemma keeps_list_case : keeps P (list_case f2 library_Error).
Proof. unfold list_case. keeps_console. Qed.

Lemma keeps_main_turn :
  keeps P (main_turn generate compare ParseFloat f2 library_Error NumError_Error).
Proof.
  unfold main_turn.
  apply keeps_bind; [apply keeps_print_menu | intros _].
  apply keeps_bind; [apply keeps_getIntInput | intros [choice err]].
  apply keeps_bind; [apply keeps_handleError | intros _].
  destruct err; [apply keeps_ret|].
  repeat match goal with
         | |- keeps _ (match ?x with _ => _ end) => destruct x
         end;
    lazymatch goal with
    | |- keeps _ (register_case _ _) => apply keeps_register_case
    | |- keeps _ (login_case _ _) => apply keeps_login_case
    | |- keeps _ (company_case _) => apply keeps_company_case
    | |- keeps _ (candidate_case _ _) => apply keeps_candidate_case
    | |- keeps _ (job_opening_case _ _ _) => apply keeps_job_opening_case
    | |- keeps _ (find_candidates_case _) => apply keeps_find_candidates_case
    | |- keeps _ (find_job_openings_case _) => apply keeps_find_job_openings_case
    | |- keeps _ (list_case _ _) => apply keeps_list_case
    | |- _ => keeps_console
    end.
Qed.

Lemma keeps_main_loop fuel :
  keeps P (main_loop generate compare ParseFloat f2 library_Error NumError_Error fuel).
Proof.
  induction fuel as [|fuel IH]; cbn [main_loop]; [apply keeps_ret|].
  apply keeps_bind; [apply keeps_main_turn|].
  intros [|]; [apply keeps_ret | exact IH].
Qed.

Lemma keeps_main fuel :
  keeps P (main generate compare ParseFloat f2 library_Error NumError_Error fuel).
Proof.
  unfold main. apply keeps_bind; [apply keeps_createTables|]. intros err.
  apply keeps_bind; [apply keeps_handleError|]. intros _.
  destruct err; [apply keeps_ret | apply keeps_main_loop].
Qed.

End KeepsConsole.

(** Whatever is typed, and however long [main] runs, the store stays
    consistent and keeps the constraints of the schema: no session gives
    a user another role than [user], two users one name, or a job
    opening a company that is not in the table. *)
Theorem main_keeps_store :
  forall (generate : string -> Z -> nat -> string * option error)
         (compare : string -> string -> option error)
         (ParseFloat : string -> float64 * option strconv.NumError)
         (f2 : float64 -> string)
         (library_Error : error -> string)
         (NumError_Error : strconv.NumError -> string)
         (fuel : nat) (w : World),
    pg.consistent (store w) -> schema_holds (store w) ->
    let w' := snd (main generate compare ParseFloat f2 library_Error NumError_Error
                     fuel w) in
    pg.consistent (store w') /\ schema_holds (store w').
Proof.
  intros generate compare ParseFloat f2 library_Error NumError_Error fuel w Hc Hs.
  apply (keeps_main (fun st => pg.consistent st /\ schema_holds st)).
  - intros q args st [H1 H2]. split;
      [now apply execute_consistent | now apply execute_schema_holds].
  - now split.
Qed.

(** ** Turns of [main] *)

Lemma for_range_Println (l : list string) :
  forall w,
    for_range l fmt_Println w =
    (tt, mk_world (store w) (wire w) (entropy w) (stdin w)
           (stdout w ++ map (fun s => s +++ newline) l)).
Proof.
  induction l as [|s l IH]; intros w; cbn [for_range map].
  - rewrite app_nil_r. now destruct w.
  - unfold bind, fmt_Println at 1, fmt_Print. rewrite IH. go_world.
    now rewrite <- app_assoc.
Qed.

Lemma getIntInput_run (prompt : string) (w : World) :
  getIntInput prompt w =
  (match strconv.Atoi (strings.TrimSpace (hd "" (stdin w))) with
   | (_, Some e) => (0, Some (invalid_integer e))
   | (num, None) => (num, None)
   end,
   mk_world (store w) (wire w) (entropy w) (tl (stdin w)) (stdout w ++ [prompt])).
Proof.
  unfold getIntInput, bind. rewrite getInput_run.
  destruct (strconv.Atoi _) as [num [e|]]; reflexivity.
Qed.

Section Turns.

Variable generate : string -> Z -> nat -> string * option error.
Variable compare : string -> string -> option error.
Variable ParseFloat : string -> float64 * option strconv.NumError.
Variable f2 : float64 -> string.
Variable library_Error : error -> string.
Variable NumError_Error : strconv.NumError -> string.

Local Abbreviation main_turn' :=
  (main_turn generate compare ParseFloat f2 library_Error NumError_Error).
Local Abbreviation main_loop' :=
  (main_loop generate compare ParseFloat f2 library_Error NumError_Error).
Local Abbreviation main' :=
  (main generate compare ParseFloat f2 library_Error NumError_Error).

(** A turn up to the [switch]. *)
Lemma main_turn_run (w : World) :
  main_turn' w =
  match strconv.Atoi (strings.TrimSpace (hd "" (stdin w))) with
  | (_, Some e) =>
    (false, said (complaint (E := input_error) (H := input_error_GoError NumError_Error)
                    (invalid_integer e)) (asked w))
  | (choice, None) =>
    match choice with
    | 1 => register_case generate library_Error
    | 2 => login_case compare library_Error
    | 3 => company_case library_Error
    | 4 => candidate_case library_Error NumError_Error
    | 5 => job_opening_case ParseFloat library_Error NumError_Error
    | 6 => find_candidates_case library_Error
    | 7 => find_job_openings_case library_Error
    | 8 => list_case f2 library_Error
    | 9 => fmt_Println farewell ;; ret true
    | _ => fmt_Println wrong_choice ;; ret false
    end (asked w)
  end.
Proof.
  unfold main_turn, print_menu. unfold bind at 1. rewrite for_range_Println.
  unfold bind at 1. rewrite getIntInput_run. go_world.
  fold menu_lines. rewrite <- app_assoc. fold (asked w).
  destruct (strconv.Atoi _) as [num [e|]]; reflexivity.
Qed.

(** A turn on a line that is no choice: the line is consumed, one line
    of complaint is printed, and nothing else happens. *)
Lemma main_turn_other (w : World) :
  (forall z, numeral (strings.TrimSpace (hd "" (stdin w))) = Some z -> z < 1 \/ 9 < z) ->
  exists line, main_turn' w = (false, said line (asked w)).
Proof.
  intros Hz. rewrite main_turn_run.
  pose proof (Atoi_spec (strings.TrimSpace (hd "" (stdin w)))) as A.
  destruct (numeral _) as [z|].
  - specialize (Hz z eq_refl). destruct (is_int z).
    + rewrite A.
      destruct z as [|p|p]; try (eexists; reflexivity).
      do 4 (try destruct p as [p|p|]); try lia; eexists; reflexivity.
    + destruct A as [v ->]. eexists. reflexivity.
  - destruct A as [v [kind ->]]. eexists. reflexivity.
Qed.

Lemma main_loop_S (fuel : nat) (w : World) :
  main_loop' (S fuel) w =
  let '(stop, w') := main_turn' w in
  if stop then (Some tt, w') else main_loop' fuel w'.
Proof.
  cbn [main_loop]. unfold bind. now destruct (main_turn' w) as [[|] w'].
Qed.

(** A line that is no choice does not change the store and sends
    nothing: the turn prints the menu, the prompt and one line about the
    choice, and [main] goes on with the next line. *)
Theorem main_ignores_other_lines :
  forall (fuel : nat) (w : World),
    (forall z, numeral (strings.TrimSpace (hd "" (stdin w))) = Some z ->
               z < 1 \/ 9 < z) ->
    exists line,
      let w' := mk_world (store w) (wire w) (entropy w) (tl (stdin w))
                  (stdout w ++ menu_lines ++ [choice_prompt; line]) in
      main_loop' (S fuel) w = main_loop' fuel w'.
Proof.
  intros fuel w Hz. destruct (main_turn_other w Hz) as [line E].
  exists line. rewrite main_loop_S, E.
  unfold said, asked. go_world. now rewrite <- !app_assoc.
Qed.

(** At the end of the input no turn ends [main]. *)
Lemma main_loop_end_of_input (fuel : nat) :
  forall w, stdin w = [] ->
    fst (main_loop' fuel w) = None /\
    store (snd (main_loop' fuel w)) = store w /\
    wire (snd (main_loop' fuel w)) = wire w /\
    List.length (stdout (snd (main_loop' fuel w))) =
      (List.length (stdout w) + 12 * fuel)%nat.
Proof.
  induction fuel as [|fuel IH]; intros w Hin.
  - cbn. repeat split. lia.
  - destruct (main_turn_other w) as [line E].
    { rewrite Hin. discriminate. }
    rewrite main_loop_S, E.
    destruct (IH (said line (asked w))) as [H1 [H2 [H3 H4]]].
    { cbn. now rewrite Hin. }
    rewrite H1, H2, H3, H4. repeat split.
    cbn [said asked stdout]. rewrite !length_app. cbn. lia.
Qed.

Lemma createTables_run (w : World) :
  createTables w =
  (None, mk_world (store w) (wire w ++ [Exec pg.CreateTables []])
           (entropy w) (stdin w) (stdout w)).
Proof. unfold createTables. go_run. cbn [pg.execute]. reflexivity. Qed.

Lemma main_run (fuel : nat) (w : World) :
  main' fuel w =
  main_loop' fuel
    (mk_world (store w) (wire w ++ [Exec pg.CreateTables []])
       (entropy w) (stdin w) (stdout w)).
Proof. unfold main. unfold bind at 1. rewrite createTables_run. reflexivity. Qed.

(** At the end of the input [main] does not return: however many turns
    it is given, it is still running, each turn printing the menu, the
    prompt and the complaint about the empty line; the store is as it
    was. *)
Theorem main_loops_at_end_of_input :
  forall (fuel : nat) (w : World),
    stdin w = [] ->
    fst (main' fuel w) = None /\
    store (snd (main' fuel w)) = store w /\
    wire (snd (main' fuel w)) = wire w ++ [Exec pg.CreateTables []] /\
    List.length (stdout (snd (main' fuel w))) = (List.length (stdout w) + 12 * fuel)%nat.
Proof.
  intros fuel w Hin. rewrite main_run.
  apply (main_loop_end_of_input fuel
           (mk_world (store w) (wire w ++ [Exec pg.CreateTables []])
              (entropy w) (stdin w) (stdout w))).
  exact Hin.
Qed.

(** On the choice 9 [main] says goodbye and returns: the lines after it
    are left unread and the store is as it was. *)
Theorem main_exits_on_9 :
  forall (fuel : nat) (w : World) (line : string) (rest : list string),
    stdin w = line :: rest ->
    numeral (strings.TrimSpace line) = Some 9 ->
    main' (S fuel) w =
    (Some tt,
     mk_world (store w) (wire w ++ [Exec pg.CreateTables []]) (entropy w) rest
       (stdout w ++ menu_lines ++ [choice_prompt; farewell +++ newline])).
Proof.
  intros fuel w line rest Hin Hn. rewrite main_run, main_loop_S.
  rewrite main_turn_run. go_world. rewrite Hin. cbn [hd].
  pose proof (Atoi_spec (strings.TrimSpace line)) as A. rewrite Hn in A.
  change (is_int 9) with true in A. rewrite A.
  unfold asked, bind, fmt_Println, fmt_Print, ret. go_world. cbn [tl].
  now rewrite <- !app_assoc.
Qed.

End Turns.

(** ** [listAllJobOpenings] *)

Lemma listAllJobOpenings_loop_rows (f2 : float64 -> string)
    (rs : list pg.job_openings_row) :
  Forall (fun r => pg.job_openings_company_id r <> None /\
                   pg.job_openings_experience r <> None) rs ->
  forall w,
    listAllJobOpenings_loop f2 (map pg.job_opening_columns rs) w =
    (None,
     mk_world (store w) (wire w) (entropy w) (stdin w)
       (stdout w ++ map (fun r => job_opening_text f2 (job_opening_of_row r)) rs)).
Proof.
  induction rs as [|r rs IH]; intros Hread w; cbn [map listAllJobOpenings_loop].
  - rewrite app_nil_r. now destruct w.
  - inversion Hread as [|? ? Hr Hrs]; subst.
    rewrite (scan_job_opening_row r Hr). unfold bind, fmt_Print.
    rewrite (IH Hrs). go_world. now rewrite <- app_assoc.
Qed.



(** ** A session: registration and login at the console *)

Lemma loginUser_found (compare : string -> string -> option error)
    (username password : string) (w : World)
    (r : pg.users_row) (rest : list pg.users_row) :
  rows_named username (store w) = r :: rest ->
  compare (pg.users_password_hash r) password = None ->
  loginUser compare username password w =
  ((pg.users_id r, pg.users_role r, None),
   mk_world (store w)
     (wire w ++ [Prepare pg.SelectUserByName;
                 Query pg.SelectUserByName [pg.AString username];
                 Close pg.SelectUserByName])
     (entropy w) (stdin w) (stdout w)).
Proof.
  intros Hrows Hc. unfold loginUser. go_run. cbn [pg.execute].
  fold (rows_named username (store w)). rewrite Hrows. cbn [map]. go_world.
  cbn [sql.scan_int sql.scan_string or_else User_PasswordHash User_ID User_Role].
  unfold checkPasswordHash. rewrite Hc. cbn [negb]. go_world.
  now rewrite <- !app_assoc.
Qed.

Section Session.

Variable generate : string -> Z -> nat -> string * option error.
Variable compare : string -> string -> option error.
Variable ParseFloat : string -> float64 * option strconv.NumError.
Variable f2 : float64 -> string.
Variable library_Error : error -> string.
Variable NumError_Error : strconv.NumError -> string.

Hypothesis bcrypt_sound :
  forall password cost seed hash,
    generate password cost seed = (hash, None) ->
    compare hash password = None.

Local Abbreviation main_turn' :=
  (main_turn generate compare ParseFloat f2 library_Error NumError_Error).
Local Abbreviation main_loop' :=
  (main_loop generate compare ParseFloat f2 library_Error NumError_Error).

(** The case 1 of the [switch]: two lines are read, trimmed, and given
    to [registerUser]. *)
Lemma register_case_run (w : World) :
  register_case generate library_Error w =
  let username := strings.TrimSpace (hd "" (stdin w)) in
  let password := strings.TrimSpace (hd "" (tl (stdin w))) in
  let '(err, w') :=
    registerUser generate username password
      (mk_world (store w) (wire w) (entropy w) (tl (tl (stdin w)))
         (stdout w ++ ["Введите имя пользователя: "; "Введите пароль: "])) in
  match err with
  | None => (false, said (registered +++ newline) w')
  | Some e =>
    (false, said (complaint (H := error_GoError library_Error) e) w')
  end.
Proof.
  unfold register_case. unfold bind at 1. rewrite getInput_run.
  unfold bind at 1. rewrite getInput_run. go_world.
  rewrite <- app_assoc. cbn [app]. unfold bind at 1.
  destruct (registerUser _ _ _ _) as [[e|] w']; reflexivity.
Qed.

(** The case 2 of the [switch]. *)
Lemma login_case_run (w : World) :
  login_case compare library_Error w =
  let username := strings.TrimSpace (hd "" (stdin w)) in
  let password := strings.TrimSpace (hd "" (tl (stdin w))) in
  let '(userID, role, err, w') :=
    loginUser compare username password
      (mk_world (store w) (wire w) (entropy w) (tl (tl (stdin w)))
         (stdout w ++ ["Введите имя пользователя: "; "Введите пароль: "])) in
  match err with
  | None => (false, said (login_text userID role) w')
  | Some e =>
    (false, said (complaint (H := error_GoError library_Error) e) w')
  end.
Proof.
  unfold login_case. unfold bind at 1. rewrite getInput_run.
  unfold bind at 1. rewrite getInput_run. go_world.
  rewrite <- app_assoc. cbn [app]. unfold bind at 1.
  destruct (loginUser _ _ _ _) as [[[userID role] [e|]] w']; reflexivity.
Qed.


End Session.

(** ** Witnesses for the console *)

(** Witness: a company is added and [main] is left. *)
Lemma main_keeps_store_witness :
  let w' := snd (main plainhash.GenerateFromPassword plainhash.CompareHashAndPassword
                   no_float no_text no_text no_text 3 (typed ["3"; "Acme"; "9"])) in
  pg.consistent (store w') /\ schema_holds (store w').
Proof.
  apply (main_keeps_store plainhash.GenerateFromPassword plainhash.CompareHashAndPassword
           no_float no_text no_text no_text 3 (typed ["3"; "Acme"; "9"])).
  - exact empty_consistent.
  - exact empty_schema_holds.
Defined.

(** Witness: the line 0 is no choice. *)
Lemma main_ignores_other_lines_witness :
  exists line,
    let w := typed ["0"; "9"] in
    let w' := mk_world (store w) (wire w) (entropy w) (tl (stdin w))
                (stdout w ++ menu_lines ++ [choice_prompt; line]) in
    main_loop plainhash.GenerateFromPassword plainhash.CompareHashAndPassword
      no_float no_text no_text no_text 2 w =
    main_loop plainhash.GenerateFromPassword plainhash.CompareHashAndPassword
      no_float no_text no_text no_text 1 w'.
Proof.
  apply (main_ignores_other_lines plainhash.GenerateFromPassword
           plainhash.CompareHashAndPassword no_float no_text no_text no_text
           1 (typed ["0"; "9"])).
  intros z H. injection H as <-. left. lia.
Defined.

(** Witness: five turns on no input. *)
Lemma main_loops_at_end_of_input_witness :
  let run := main plainhash.GenerateFromPassword plainhash.CompareHashAndPassword
               no_float no_text no_text no_text 5 (typed []) in
  fst run = None /\
  store (snd run) = store (typed []) /\
  wire (snd run) = wire (typed []) ++ [Exec pg.CreateTables []] /\
  List.length (stdout (snd run)) = (List.length (stdout (typed [])) + 12 * 5)%nat.
Proof.
  apply (main_loops_at_end_of_input plainhash.GenerateFromPassword
           plainhash.CompareHashAndPassword no_float no_text no_text no_text
           5 (typed [])).
  reflexivity.
Defined.

(** Witness: the choice 9, with white space and a sign. *)
Lemma main_exits_on_9_witness :
  let w := mk_world pg.empty [] 0 [" +9 " +++ newline; "1"] [] in
  main plainhash.GenerateFromPassword plainhash.CompareHashAndPassword
    no_float no_text no_text no_text 1 w =
  (Some tt,
   mk_world (store w) (wire w ++ [Exec pg.CreateTables []]) (entropy w) ["1"]
     (stdout w ++ menu_lines ++ [choice_prompt; farewell +++ newline])).
Proof.
  apply (main_exits_on_9 plainhash.GenerateFromPassword
           plainhash.CompareHashAndPassword no_float no_text no_text no_text
           0 (mk_world pg.empty [] 0 [" +9 " +++ newline; "1"] [])
           (" +9 " +++ newline) ["1"]).
  - reflexivity.
  - reflexivity.
Defined.


(* ================================================================= *)
(** * The console: lines *)

(** ** [strings.TrimSpace] leaves no white space at the ends *)

Lemma asciiSpace_IsSpace (b : Z) :
  unicode.IsSpace b = false -> strings.asciiSpace b = false.
Proof.
  unfold unicode.IsSpace, strings.asciiSpace.
  destruct (Z.leb_spec b 0xFF) as [H|H].
  - rewrite !orb_false_iff. tauto.
  - intros _. rewrite !orb_false_iff, !Z.eqb_neq. lia.
Qed.

Lemma high_not_space (c : ascii) : 0x80 <= byte c -> strings.asciiSpace (byte c) = false.
Proof.
  intros H. destruct (strings.asciiSpace (byte c)) eqn:E; [|reflexivity].
  apply asciiSpace_low in E. lia.
Qed.

Lemma DecodeRune_clean_start (c : ascii) (t : string) (r : Z) (size : nat) :
  utf8.DecodeRuneInString (String c t) = (r, size) ->
  unicode.IsSpace r = false ->
  strings.asciiSpace (byte c) = false.
Proof.
  intros Hd Hs. destruct (DecodeRune_cases _ _ _ _ Hd) as [[_ [[_ ->]|[H _]]]|[H _]].
  - now apply asciiSpace_IsSpace.
  - now apply high_not_space.
  - now apply high_not_space.
Qed.

Lemma TrimLeftFunc_loop_clean (fuel : nat) :
  forall s, clean_start (strings.TrimLeftFunc_loop fuel s).
Proof.
  induction fuel as [|fuel IH]; intros s; cbn [strings.TrimLeftFunc_loop]; [exact I|].
  destruct s as [|c t]; [exact I|].
  destruct (utf8.DecodeRuneInString (String c t)) as [r size] eqn:Hd.
  destruct (unicode.IsSpace r) eqn:Hs; [apply IH|].
  cbn [clean_start]. exact (DecodeRune_clean_start _ _ _ _ Hd Hs).
Qed.

Lemma trimmed_rev (s : string) : trimmed s <-> clean_start s /\ clean_start (rev s).
Proof.
  destruct s as [|c t]; [cbn; tauto|].
  destruct (rev_last_byte t c) as [u E]. rewrite E. cbn [trimmed clean_start]. tauto.
Qed.

Lemma length_take (n : nat) (s : string) :
  String.length (take n s) = Nat.min n (String.length s).
Proof.
  revert s. induction n as [|n IH]; intros [|c t]; cbn; try reflexivity.
  now rewrite IH.
Qed.

Lemma length_rev (s : string) : String.length (rev s) = String.length s.
Proof.
  induction s as [|c t IH]; [reflexivity|].
  rewrite rev_cons, length_append, IH. cbn. lia.
Qed.

Lemma back_to_start_positive (w : string) :
  forall k n, utf8.back_to_start k w = Some n -> (k < n)%nat.
Proof.
  induction w as [|b w IH]; intros k n; cbn [utf8.back_to_start]; [discriminate|].
  destruct (utf8.RuneStart (byte b)).
  - intros H. injection H as <-. lia.
  - intros H. apply IH in H. lia.
Qed.

(** The last rune: one byte of ASCII, or bytes of which the first is
    not of ASCII. *)
Lemma DecodeLastRune_cases (c : ascii) (t : string) (rn : Z) (size : nat) :
  utf8.DecodeLastRuneInString (String c t) = (rn, size) ->
  (byte c < 0x80 /\ rn = byte c /\ size = 1%nat) \/
  (exists c0 u,
      rev (take size (String c t)) = String c0 u /\ 0x80 <= byte c0).
Proof.
  unfold utf8.DecodeLastRuneInString.
  destruct (Z.ltb_spec (byte c) utf8.RuneSelf) as [Hlow|Hhigh].
  { intros H. injection H as <- <-. left. unfold utf8.RuneSelf in Hlow. now repeat split. }
  unfold utf8.RuneSelf in Hhigh. intros H. right.
  remember (match utf8.back_to_start 1 (take (utf8.UTFMax - 1) t) with
            | Some w => w
            | None => Nat.min (S utf8.UTFMax) (String.length (String c t))
            end) as width eqn:Ew.
  assert (Hw : (1 <= width)%nat).
  { subst width. destruct (utf8.back_to_start 1 _) as [n|] eqn:E.
    - apply back_to_start_positive in E. lia.
    - cbn [String.length utf8.UTFMax]. lia. }
  clear Ew.
  destruct (utf8.DecodeRuneInString (rev (take width (String c t)))) as [rn' sz] eqn:Hd.
  destruct (Nat.eqb_spec sz width) as [->|Hne].
  - injection H as <- <-.
    destruct (rev (take width (String c t))) as [|c0 u] eqn:Er.
    + exfalso. apply (f_equal String.length) in Er.
      rewrite length_rev, length_take in Er. cbn [String.length] in Er. lia.
    + exists c0, u. split; [reflexivity|].
      destruct (DecodeRune_cases _ _ _ _ Hd) as [[Hsz _]|[Hc0 _]]; [|exact Hc0].
      subst width. cbn in Er. injection Er as <- _. exact Hhigh.
  - injection H as <- <-. exists c, "". split; [reflexivity | exact Hhigh].
Qed.

Lemma rev_take_drop (n : nat) (r : string) :
  rev r = rev (drop n r) +++ rev (take n r).
Proof. rewrite <- rev_app. now rewrite take_drop. Qed.

(** The loop of [lastIndexFunc]: the byte where it stops is no white
    space of ASCII. *)
Lemma lastIndexFunc_loop_clean (fuel : nat) :
  forall r r',
    strings.lastIndexFunc_loop fuel r = Some r' ->
    exists c0 rest,
      rev r = rev r' +++ String c0 rest /\
      strings.asciiSpace (byte c0) = false.
Proof.
  induction fuel as [|fuel IH]; intros r r'; cbn [strings.lastIndexFunc_loop];
    [discriminate|].
  destruct r as [|c t]; [discriminate|].
  destruct (utf8.DecodeLastRuneInString (String c t)) as [rn size] eqn:Hd.
  destruct (unicode.IsSpace rn) eqn:Hs.
  - intros H. destruct (IH _ _ H) as [c0 [rest [E Hc]]].
    exists c0, (rest +++ rev (take size (String c t))).
    rewrite (rev_take_drop size (String c t)), E.
    change (String c0 (rest +++ rev (take size (String c t))))
      with (String c0 rest +++ rev (take size (String c t))).
    rewrite append_assoc. now split.
  - intros H. injection H as <-.
    rewrite (rev_take_drop size (String c t)).
    destruct (DecodeLastRune_cases _ _ _ _ Hd) as [[Hlow [-> ->]]|[c0 [u [E Hc0]]]].
    + exists c, "". cbn [take rev rev_append]. split; [reflexivity|].
      now apply asciiSpace_IsSpace.
    + exists c0, u. rewrite E. split; [reflexivity|]. now apply high_not_space.
Qed.

Lemma take_app_plus (e s : string) (n : nat) :
  take (String.length e + n) (e +++ s) = e +++ take n s.
Proof. induction e as [|c e IH]; cbn; [reflexivity | now rewrite IH]. Qed.

Lemma all_bytes_last (p : ascii -> bool) (t : string) :
  forall c, all_bytes p (String c t) = true -> p (last_byte t c) = true.
Proof.
  induction t as [|c' t IH]; intros c H; cbn [all_bytes] in H;
    apply andb_true_iff in H; destruct H as [H1 H2]; [exact H1|].
  cbn [last_byte]. now apply IH.
Qed.

Lemma clean_start_app (e a b : string) (c0 : ascii) :
  clean_start (e +++ String c0 a) ->
  strings.asciiSpace (byte c0) = false ->
  clean_start (e +++ String c0 b).
Proof. destruct e; cbn; auto. Qed.

(** [TrimRightFunc] keeps a clean start and leaves a clean end. *)
Lemma TrimRightFunc_trimmed (x : string) :
  clean_start x -> trimmed (strings.TrimRightFunc x).
Proof.
  intros Hx. unfold strings.TrimRightFunc.
  destruct (strings.lastIndexFunc_loop (String.length x) (rev x)) as [r'|] eqn:El;
    [|exact I].
  destruct (lastIndexFunc_loop_clean _ _ _ El) as [c0 [rest [E Hc]]].
  rewrite rev_involutive in E. rewrite <- (length_rev r').
  set (e := rev r') in *. rewrite E in *. rewrite drop_app_length.
  assert (Ends : forall n t',
             take (S n) (String c0 rest) = String c0 t' ->
             strings.asciiSpace (byte (last_byte t' c0)) = false ->
             trimmed (take (String.length e + S n) (e +++ String c0 rest))).
  { intros n t' Et Hl. rewrite take_app_plus, Et. apply trimmed_rev. split.
    - exact (clean_start_app _ _ _ _ Hx Hc).
    - rewrite rev_app. destruct (rev_last_byte t' c0) as [u ->]. exact Hl. }
  destruct (Z.leb_spec utf8.RuneSelf (byte c0)) as [Hhigh|Hlow].
  - unfold utf8.RuneSelf in Hhigh.
    pose proof (DecodeRune_width c0 rest) as Hw.
    destruct (utf8.DecodeRuneInString (String c0 rest)) as [rn wid] eqn:Hd.
    cbn [snd] in Hw. destruct wid as [|n]; [lia|].
    apply (Ends n (take n rest)); [reflexivity|].
    destruct (DecodeRune_cases _ _ _ _ Hd) as [[Hsz _]|[_ [He _]]].
    + injection Hsz as ->. cbn [take last_byte]. now apply high_not_space.
    + apply encodes_high in He. cbn [take] in He.
      apply all_bytes_last in He. apply Z.leb_le in He. now apply high_not_space.
  - replace (S (String.length e)) with (String.length e + 1)%nat by lia.
    apply (Ends 0%nat ""); [reflexivity | exact Hc].
Qed.

Lemma TrimSpace_stop_trimmed (r : string) :
  clean_start (rev r) -> trimmed (strings.TrimSpace_stop r).
Proof.
  induction r as [|d t IH]; intros Hr; [exact I|]. cbn [strings.TrimSpace_stop].
  destruct (Z.leb_spec utf8.RuneSelf (byte d)) as [Hhigh|Hlow].
  { now apply TrimRightFunc_trimmed. }
  destruct (strings.asciiSpace (byte d)) eqn:Hd.
  - destruct t as [|d' t']; [exact I|]. apply IH.
    rewrite rev_cons in Hr. destruct (rev_last_byte t' d') as [u E].
    rewrite E in *. exact Hr.
  - apply trimmed_rev. split; [exact Hr|]. rewrite rev_involutive. exact Hd.
Qed.

(** What [strings.TrimSpace] returns has no white space of ASCII at its
    ends. *)
Lemma TrimSpace_trimmed (s : string) : trimmed (strings.TrimSpace s).
Proof.
  induction s as [|c t IH]; [exact I|]. cbn [strings.TrimSpace].
  destruct (Z.leb_spec utf8.RuneSelf (byte c)) as [Hhigh|Hlow].
  { apply TrimRightFunc_trimmed. apply TrimLeftFunc_loop_clean. }
  destruct (strings.asciiSpace (byte c)) eqn:Hc; [exact IH|].
  apply TrimSpace_stop_trimmed. rewrite rev_involutive. exact Hc.
Qed.

(** ** [getInput] *)

(** What [getInput] returns is a part of the line, with no white space
    of ASCII at its ends: never the end of the line, and a name or a
    password never begins or ends with a space.  A tidy text between
    white space comes back as it is. *)
Theorem getInput_trimmed :
  forall (prompt : string) (w : World),
    let input := fst (getInput prompt w) in
    trimmed input /\
    part_of input (hd "" (stdin w)) /\
    snd (getInput prompt w) =
      mk_world (store w) (wire w) (entropy w) (tl (stdin w)) (stdout w ++ [prompt]) /\
    (forall before text after,
        spaces before = true -> spaces after = true -> tidy text = true ->
        hd "" (stdin w) = before +++ text +++ after ->
        input = text).
Proof.
  intros prompt w. rewrite getInput_run. cbn [fst snd].
  repeat match goal with |- _ /\ _ => split end.
  - apply TrimSpace_trimmed.
  - apply TrimSpace_part.
  - reflexivity.
  - intros before text after Hb Ha Ht ->. now apply TrimSpace_tidy.
Qed.

(** Witness: a name typed with spaces around it. *)
Lemma getInput_trimmed_witness :
  fst (getInput "> " (mk_world pg.empty [] 0 ["  alice " +++ newline] [])) = "alice".
Proof.
  apply (proj2 (proj2 (proj2 (getInput_trimmed "> "
           (mk_world pg.empty [] 0 ["  alice " +++ newline] [])))) "  " "alice"
           (" " +++ newline)); reflexivity.
Defined.

(** ** [getStringArrayInput] *)

Lemma Count_app (a b : string) (c : ascii) :
  strings.Count (a +++ b) c = (strings.Count a c + strings.Count b c)%nat.
Proof.
  induction a as [|x a IH]; [reflexivity|]. cbn [String.append strings.Count].
  destruct (Ascii.eqb x c); rewrite IH; reflexivity.
Qed.

Lemma Count_part (t s : string) (c : ascii) :
  part_of t s -> strings.Count s c = 0%nat -> strings.Count t c = 0%nat.
Proof. intros [before [after ->]]. rewrite !Count_app. lia. Qed.

Lemma IndexByte_none (x : string) (c : ascii) :
  strings.Count x c = 0%nat -> strings.IndexByte x c = -1.
Proof.
  induction x as [|a x IH]; [reflexivity|]. cbn [strings.Count strings.IndexByte].
  destruct (Ascii.eqb a c); [discriminate|]. intros H. now rewrite (IH H).
Qed.

Lemma IndexByte_first (x r : string) (c : ascii) :
  strings.Count x c = 0%nat ->
  strings.IndexByte (x +++ String c r) c = Z.of_nat (String.length x).
Proof.
  induction x as [|a x IH]; cbn [String.append strings.Count strings.IndexByte String.length].
  - now rewrite Ascii.eqb_refl.
  - destruct (Ascii.eqb a c); [discriminate|]. intros H. rewrite (IH H).
    destruct (Z.ltb_spec (Z.of_nat (String.length x)) 0); lia.
Qed.

(** The pieces between the separators, put together again. *)
Lemma concat_cons (sep x y : string) (l : list string) :
  String.concat sep (x :: y :: l) = x +++ sep +++ String.concat sep (y :: l).
Proof. reflexivity. Qed.

Lemma Count_concat (c : ascii) (pieces : list string) :
  pieces <> [] ->
  Forall (fun p => strings.Count p c = 0%nat) pieces ->
  strings.Count (String.concat (str1 c) pieces) c = (List.length pieces - 1)%nat.
Proof.
  induction pieces as [|x [|y l] IH]; intros Hne Hp; [congruence| |].
  - inversion Hp; subst. cbn. lia.
  - inversion Hp as [|? ? Hx Hl]; subst. rewrite concat_cons, !Count_app, Hx.
    rewrite IH by (try discriminate; exact Hl).
    cbn [str1 strings.Count List.length]. rewrite Ascii.eqb_refl. lia.
Qed.

Lemma genSplit_loop_concat (c : ascii) (pieces : list string) :
  pieces <> [] ->
  Forall (fun p => strings.Count p c = 0%nat) pieces ->
  strings.genSplit_loop (List.length pieces - 1) (String.concat (str1 c) pieces) c = pieces.
Proof.
  induction pieces as [|x [|y l] IH]; intros Hne Hp; [congruence| |].
  - reflexivity.
  - inversion Hp as [|? ? Hx Hl]; subst. rewrite concat_cons.
    cbn [List.length Nat.sub str1 String.append]. rewrite ?Nat.sub_0_r.
    cbn [strings.genSplit_loop]. rewrite (IndexByte_first _ _ _ Hx).
    destruct (Z.ltb_spec (Z.of_nat (String.length x)) 0); [lia|].
    rewrite Nat2Z.id.
    change (String c (String.concat (String c "") (y :: l)))
      with (str1 c +++ String.concat (str1 c) (y :: l)).
    rewrite take_app_length.
    replace (String.length x + 1)%nat with (String.length (x +++ str1 c))
      by (rewrite length_append; reflexivity).
    replace (x +++ String c (String.concat (str1 c) (y :: l)))
      with ((x +++ str1 c) +++ String.concat (str1 c) (y :: l))
      by (rewrite append_assoc; reflexivity).
    rewrite drop_app_length. f_equal.
    specialize (IH ltac:(discriminate) Hl).
    cbn [List.length Nat.sub] in IH. rewrite ?Nat.sub_0_r in IH. exact IH.
Qed.

(** [strings.Split] undoes the joining of pieces without the separator. *)
Lemma Split_concat (c : ascii) (pieces : list string) :
  pieces <> [] ->
  Forall (fun p => strings.Count p c = 0%nat) pieces ->
  strings.Split (String.concat (str1 c) pieces) c = pieces.
Proof.
  intros Hne Hp. unfold strings.Split. rewrite (Count_concat c pieces Hne Hp).
  pose proof (Count_le_length (String.concat (str1 c) pieces) c) as Hle.
  rewrite (Count_concat c pieces Hne Hp) in Hle.
  replace (Nat.min _ _ - 1)%nat with (List.length pieces - 1)%nat
    by (destruct pieces; [congruence | cbn [List.length] in *; lia]).
  now apply genSplit_loop_concat.
Qed.

Lemma last_byte_app (a t : string) (c d : ascii) :
  last_byte (a +++ String c t) d = last_byte t c.
Proof. revert d. induction a as [|x a IH]; intros d; cbn; [reflexivity | apply IH]. Qed.

Lemma concat_items_tidy (sep : string) (items : list string) :
  items <> [] -> Forall item items ->
  exists c t,
    String.concat sep items = String c t /\
    solid c = true /\ solid (last_byte t c) = true.
Proof.
  induction items as [|x [|y l] IH]; intros Hne Hi; [congruence| |].
  - inversion Hi as [|? ? [Hx [Ht _]] _]; subst.
    destruct x as [|c t]; [congruence|]. exists c, t.
    cbn [tidy] in Ht. apply andb_true_iff in Ht. now split.
  - inversion Hi as [|? ? [Hx [Ht _]] Hl]; subst.
    destruct (IH ltac:(discriminate) Hl) as [c' [t' [E [_ Hlast]]]].
    destruct x as [|c t]; [congruence|]. rewrite concat_cons, E.
    exists c, (t +++ sep +++ String c' t'). split; [reflexivity|].
    cbn [tidy] in Ht. apply andb_true_iff in Ht. split; [exact (proj1 Ht)|].
    rewrite <- append_assoc, last_byte_app. exact Hlast.
Qed.

Lemma concat_head (sep a y : string) (l : list string) :
  String.concat sep ((a +++ y) :: l) = a +++ String.concat sep (y :: l).
Proof. destruct l; cbn [String.concat]; [reflexivity | now rewrite append_assoc]. Qed.

Lemma concat_comma_space (x : string) (l : list string) :
  String.concat ", " (x :: l) = String.concat "," (x :: map (String.append " ") l).
Proof.
  revert x. induction l as [|y l IH]; intros x; [reflexivity|].
  rewrite concat_cons, IH. cbn [map]. rewrite concat_cons, concat_head. reflexivity.
Qed.

(** Items typed with a comma and a space between them. *)
Lemma getStringArrayInput_typed (prompt : string) (w : World)
    (items : list string) (rest : list string) :
  items <> [] -> Forall item items ->
  stdin w = (String.concat ", " items +++ newline) :: rest ->
  getStringArrayInput prompt w =
    ((Some items, None),
     mk_world (store w) (wire w) (entropy w) rest (stdout w ++ [prompt])).
Proof.
  intros Hne Hi Hin. unfold getStringArrayInput, bind. rewrite getInput_run, Hin.
  cbn [hd tl].
  destruct (concat_items_tidy ", " items Hne Hi) as [c [t [E [Hc Hl]]]].
  assert (T : strings.TrimSpace (String.concat ", " items +++ newline)
              = String.concat ", " items).
  { apply (TrimSpace_tidy "" _ newline); try reflexivity.
    rewrite E. cbn [tidy]. now rewrite Hc, Hl. }
  rewrite T, E. cbn [String.eqb]. rewrite <- E. unfold ret. f_equal. f_equal. f_equal.
  destruct items as [|x l]; [congruence|].
  inversion Hi as [|? ? [_ [Hx Hxc]] Hl']; subst.
  rewrite concat_comma_space.
  change "," with (str1 ","%char) at 1. rewrite Split_concat.
  - cbn [map]. f_equal.
    + rewrite <- (append_empty_r x) at 1.
      now apply (TrimSpace_tidy "" x "").
    + rewrite map_map. clear -Hl'. induction Hl' as [|y l [_ [Hy _]] _ IH];
        [reflexivity|]. cbn [map]. f_equal; [|exact IH].
      rewrite <- (append_empty_r y) at 1.
      now apply (TrimSpace_tidy " " y "").
  - discriminate.
  - constructor; [exact Hxc|]. apply Forall_map.
    eapply Forall_impl; [|exact Hl']. intros y [_ [_ Hy]]. exact Hy.
Qed.

(** The skills that [getStringArrayInput] returns have no white space of
    ASCII at their ends and hold no comma.  Items typed with a comma and
    a space between them come back as they were typed. *)
Theorem getStringArrayInput_items :
  forall (prompt : string) (w : World),
    (exists skills,
        fst (getStringArrayInput prompt w) = (Some skills, None) /\
        Forall (fun s => trimmed s /\ strings.Count s "," = 0%nat) skills) /\
    (forall (items : list string) (rest : list string),
        items <> [] -> Forall item items ->
        stdin w = (String.concat ", " items +++ newline) :: rest ->
        getStringArrayInput prompt w =
          ((Some items, None),
           mk_world (store w) (wire w) (entropy w) rest (stdout w ++ [prompt]))).
Proof.
  intros prompt w. split.
  - unfold getStringArrayInput, bind. rewrite getInput_run.
    destruct (String.eqb (strings.TrimSpace (hd "" (stdin w))) "").
    + exists []. split; [reflexivity | constructor].
    + eexists. split; [reflexivity|].
      destruct (Split_spec (strings.TrimSpace (hd "" (stdin w))) ",") as [_ [Hp _]].
      apply Forall_map. eapply Forall_impl; [|exact Hp]. intros p Hc. split.
      * apply TrimSpace_trimmed.
      * exact (Count_part _ _ _ (TrimSpace_part p) Hc).
  - intros items rest. apply getStringArrayInput_typed.
Qed.

(** Witness: two skills with a comma and a space between them. *)
Lemma getStringArrayInput_items_witness :
  getStringArrayInput "> " (mk_world pg.empty [] 0 ["go, sql" +++ newline] []) =
  ((Some ["go"; "sql"], None), mk_world pg.empty [] 0 [] ["> "]).
Proof.
  apply (proj2 (getStringArrayInput_items "> "
           (mk_world pg.empty [] 0 ["go, sql" +++ newline] [])) ["go"; "sql"] []).
  - discriminate.
  - repeat constructor; discriminate.
  - reflexivity.
Defined.

(** ** A session: a candidate typed in and found by a skill *)

Lemma for_range_Print {A} (f : A -> string) (l : list A) :
  forall w,
    for_range l (fun x => fmt_Print (f x)) w =
    (tt, mk_world (store w) (wire w) (entropy w) (stdin w) (stdout w ++ map f l)).
Proof.
  induction l as [|x l IH]; intros w; cbn [for_range map].
  - rewrite app_nil_r. now destruct w.
  - unfold bind, fmt_Print at 1. rewrite IH. go_world. now rewrite <- app_assoc.
Qed.

(** [addCandidate] when it inserts: the world afterwards. *)
Lemma addCandidate_inserted (candidate : Candidate) (w : World) :
  Candidate_FullName candidate <> "" -> 0 < Candidate_Age candidate ->
  Forall (fun x => utf8.ValidString x = true) (elems (Candidate_Skills candidate)) ->
  forallb no_nul (elems (Candidate_Skills candidate)) = true ->
  pg.consistent (store w) ->
  let st := store w in
  addCandidate candidate w =
  (None,
   mk_world
     (pg.mk_store (pg.users st) (pg.users_id_seq st)
        (pg.companies st) (pg.companies_id_seq st)
        (pg.candidates st ++
         [pg.mk_candidate (pg.candidates_id_seq st)
            (Candidate_FullName candidate) (Candidate_Age candidate)
            (Candidate_Email candidate) (Some (Candidate_Experience candidate))
            (Some (skills_document (Candidate_Skills candidate)))])
        (pg.candidates_id_seq st + 1)
        (pg.job_openings st) (pg.job_openings_id_seq st))
     (wire w ++
      [Prepare pg.InsertCandidate;
       Exec pg.InsertCandidate
         [pg.AString (Candidate_FullName candidate);
          pg.AInt (Candidate_Age candidate);
          pg.AString (Candidate_Email candidate);
          pg.AString (Candidate_Experience candidate);
          pg.ABytes (json.Marshal_strings (Candidate_Skills candidate))];
       Close pg.InsertCandidate])
     (entropy w) (stdin w) (stdout w)).
Proof.
  intros Hn Ha Hv Hnul [[_ [_ [Hkeys _]]] _] st. subst st.
  assert (E : String.eqb (Candidate_FullName candidate) ""
              || (Candidate_Age candidate <=? 0) = false).
  { rewrite (eqb_empty_false _ Hn). apply Z.leb_gt. exact Ha. }
  unfold addCandidate. rewrite E. unfold json_Marshal.
  go_run. cbn [pg.execute]. rewrite (jsonb_in_skills _ Hv), Hnul.
  rewrite (keys_fresh _ _ _ Hkeys). go_world. now rewrite <- !app_assoc.
Qed.

(** [findCandidatesBySkill] for a plain skill: the world afterwards. *)
Lemma findCandidatesBySkill_plain (skill : string) (w : World) :
  plain skill = true ->
  Forall (fun r => pg.candidates_experience r <> None) (pg.candidates (store w)) ->
  findCandidatesBySkill skill w =
  ((slice_of
      (map candidate_of_row
         (filter (fun r => pg.contains (pg.candidates_skills r) (JArray [JString skill]))
                 (pg.candidates (store w)))),
    None),
   mk_world (store w)
     (wire w ++
      [Query pg.SelectCandidatesBySkill
         [pg.AString (String "[" (String dquote (skill +++ String dquote "]")))];
       Close pg.SelectCandidatesBySkill])
     (entropy w) (stdin w) (stdout w)).
Proof.
  intros Hp Hread.
  rewrite (surjective_pairing (findCandidatesBySkill skill w)).
  rewrite (findCandidatesBySkill_result skill w Hread), (jsonb_in_fragment _ Hp).
  f_equal. unfold findCandidatesBySkill. go_run.
  cbn [String.append str1 pg.execute]. rewrite (jsonb_in_fragment _ Hp). go_world.
  destruct (candidates_loop _ _); unfold sql.Rows_Err; go_world;
    now rewrite <- !app_assoc.
Qed.

Section Search.

Variable generate : string -> Z -> nat -> string * option error.
Variable compare : string -> string -> option error.
Variable ParseFloat : string -> float64 * option strconv.NumError.
Variable f2 : float64 -> string.
Variable library_Error : error -> string.
Variable NumError_Error : strconv.NumError -> string.

Local Abbreviation main_loop' :=
  (main_loop generate compare ParseFloat f2 library_Error NumError_Error).

(** The case 4 of the [switch] on a name, an age that is a number, an
    email, an experience and items of skills. *)
Lemma candidate_case_run (w : World) (l1 l2 l3 l4 l5 : string) (rest : list string)
    (Age : Z) (items : list string) :
  stdin w = l1 :: l2 :: l3 :: l4 :: l5 :: rest ->
  numeral (strings.TrimSpace l2) = Some Age -> is_int Age = true ->
  l5 = String.concat ", " items +++ newline ->
  items <> [] -> Forall item items ->
  candidate_case library_Error NumError_Error w =
  let '(err, w') :=
    addCandidate
      (mk_Candidate 0 (strings.TrimSpace l1) Age (strings.TrimSpace l3)
         (strings.TrimSpace l4) (Some items))
      (mk_world (store w) (wire w) (entropy w) rest
         (stdout w ++
          ["Введите ФИО кандидата: "; "Введите возраст кандидата: ";
           "Введите email кандидата: "; "Введите опыт работы кандидата: ";
           "Введите навыки кандидата (через запятую): "])) in
  match err with
  | None => (false, said (candidate_added +++ newline) w')
  | Some e => (false, said (complaint (H := error_GoError library_Error) e) w')
  end.
Proof.
  intros Hin Hage Hint -> Hne Hi.
  pose proof (Atoi_spec (strings.TrimSpace l2)) as A. rewrite Hage, Hint in A.
  unfold candidate_case. unfold bind at 1. rewrite getInput_run.
  unfold bind at 1. rewrite getIntInput_run. go_world. rewrite Hin. cbn [hd tl].
  rewrite A. unfold bind at 1. unfold handleError at 1, ret at 1.
  unfold bind at 1. rewrite getInput_run. go_world. cbn [hd tl].
  unfold bind at 1. rewrite getInput_run. go_world. cbn [hd tl].
  unfold bind at 1.
  erewrite getStringArrayInput_typed; [|exact Hne|exact Hi|reflexivity].
  go_world. unfold bind at 1. unfold handleError at 1, ret at 1.
  rewrite <- !app_assoc. cbn [app]. unfold bind at 1.
  destruct (addCandidate _ _) as [[e|] w']; reflexivity.
Qed.

(** The case 6 of the [switch] on a plain skill. *)
Lemma find_candidates_case_run (w : World) (line : string) (rest : list string) :
  stdin w = line :: rest ->
  plain (strings.TrimSpace line) = true ->
  Forall (fun r => pg.candidates_experience r <> None) (pg.candidates (store w)) ->
  find_candidates_case library_Error w =
  (false,
   mk_world (store w)
     (wire w ++
      [Query pg.SelectCandidatesBySkill
         [pg.AString (String "[" (String dquote
                        (strings.TrimSpace line +++ String dquote "]")))];
       Close pg.SelectCandidatesBySkill])
     (entropy w) rest
     (stdout w ++
      ["Введите навык для поиска кандидатов: "; candidates_found +++ newline] ++
      map candidate_text
        (map candidate_of_row
           (filter (fun r => pg.contains (pg.candidates_skills r)
                               (JArray [JString (strings.TrimSpace line)]))
                   (pg.candidates (store w)))))).
Proof.
  intros Hin Hp Hread. unfold find_candidates_case.
  unfold bind at 1. rewrite getInput_run, Hin. cbn [hd tl].
  unfold bind at 1. rewrite (findCandidatesBySkill_plain _ _ Hp) by exact Hread.
  go_world. unfold bind at 1. unfold handleError at 1, ret at 1.
  unfold bind at 1. unfold fmt_Println, fmt_Print at 1. unfold bind at 1.
  rewrite for_range_Print. go_world. unfold ret. rewrite elems_slice_of.
  now rewrite <- !app_assoc.
Qed.


End Search.

